(** * Central2D / Shallow2D: a shallow embedding of the Jiang-Tadmor solver

    The development follows [central2d.h] and [shallow2d.h].

    - C++ [int] values are integers of [Z].  Signed overflow is undefined in
      C++: in the constructor, where the sizes of the grid are computed, a
      result outside the 32-bit range is the fault [IntOverflow]; the index
      expressions of the other members are bounded by these sizes and are
      computed in [Z].  Exhaustion of memory is not modelled.
    - [real] (the C++ [float]) is kept abstract: the solver is written over a
      signature of arithmetic operations ([RealOps]), so that the structural
      results hold for every interpretation of the arithmetic.  Two
      interpretations are given: exact rational arithmetic ([Q], kept in
      reduced form), used for the numeric results, and IEEE 754 binary32
      arithmetic; both run the solver on concrete grids.
    - A [std::vector<real>] is a [list real]; every subscript is checked and
      an out-of-range subscript (undefined behaviour in C++) is the fault
      [OutOfBounds].  Division by zero and a failed [assert] are faults too.
    - Loops are monadic folds over the list of their index values. *)

From Stdlib Require Import ZArith QArith Qabs Qreduction Qminmax Lia Lqa Bool List.
From Stdlib Require Import SpecFloat.
From stdpp Require Import base tactics list list_numbers.

Local Open Scope Z_scope.

(** ** Faults and the fault monad *)

Inductive fault : Type :=
  | OutOfBounds    (* subscript outside the allocated vector *)
  | DivByZero      (* [/] or [%] whose result is undefined *)
  | SqrtDomain     (* [sqrt] whose result is undefined *)
  | AssertFailed   (* [assert] evaluated to false *)
  | BadAlloc       (* [std::vector] constructed with a negative size *)
  | IntOverflow    (* [int] arithmetic whose result does not fit in 32 bits *)
  | OutOfFuel.     (* the model's bound on loop iterations was exhausted *)

Inductive result (A : Type) : Type :=
  | Ok (a : A)
  | Fault (e : fault).

Arguments Ok {A} a.
Arguments Fault {A} e.

(** [x ← m; k] runs [m] and passes its value to [k]; a fault ends the
    computation. *)
#[export] Instance result_ret : MRet result := fun A a => Ok a.
#[export] Instance result_bind : MBind result := fun A B k m =>
  match m with
  | Ok a => k a
  | Fault e => Fault e
  end.

Definition lift {A : Type} (e : fault) (o : option A) : result A :=
  match o with
  | Some a => Ok a
  | None => Fault e
  end.

(** ** Loops *)

(** [forM l body s] runs [body t] for the elements [t] of [l] in order,
    threading the state and stopping at the first fault. *)
Fixpoint forM {S T : Type} (l : list T) (body : T -> S -> result S) (s : S)
  : result S :=
  match l with
  | [] => Ok s
  | t :: l' => s' ← body t s; forM l' body s'
  end.

(** The index values of [for (int i = lo; i < hi; ++i)]. *)
Definition range (lo hi : Z) : list Z := seqZ lo (hi - lo).

(** ** Arithmetic signature *)

Class RealOps (real : Type) : Type := {
  rlit : Q -> real;                    (* a literal, or an [int] converted *)
  radd : real -> real -> real;
  rsub : real -> real -> real;
  rmul : real -> real -> real;
  rdiv : real -> real -> option real;  (* [None]: undefined quotient *)
  rsqrt : real -> option real;         (* [None]: undefined root *)
  rabs : real -> real;
  rlt : real -> real -> bool;          (* [a < b] *)
  rge : real -> real -> bool           (* [a >= b] *)
}.

Notation "x +! y" := (radd x y) (at level 50, left associativity).
Notation "x -! y" := (rsub x y) (at level 50, left associativity).
Notation "x *! y" := (rmul x y) (at level 40, left associativity).
Notation "x /! y" := (lift DivByZero (rdiv x y)) (at level 40, left associativity).
Notation "x <! y" := (rlt x y) (at level 70, no associativity).
Notation "x >=! y" := (rge x y) (at level 70, no associativity).

Section Arith.
Context {real : Type} {RO : RealOps real}.

(** [std::max(a, b)] is [(a < b) ? b : a]; [std::min(a, b)] is
    [(b < a) ? b : a]. *)
Definition std_max (a b : real) : real := if a <! b then b else a.
Definition std_min (a b : real) : real := if b <! a then b else a.

(** ** Vectors *)

(** [a[i]] read. *)
Definition rd (a : list real) (i : Z) : result real :=
  if i <? 0 then Fault OutOfBounds
  else lift OutOfBounds (a !! Z.to_nat i).

(** [a[i] = x]. *)
Definition wr (a : list real) (i : Z) (x : real) : result (list real) :=
  if (0 <=? i) && (i <? Z.of_nat (length a))
  then Ok (<[Z.to_nat i := x]> a)
  else Fault OutOfBounds.

(** The value stored at index [i] (zero outside the vector); used to
    state results, never by the solver itself. *)
Definition at_ (a : list real) (i : Z) : real :=
  if i <? 0 then rlit 0 else default (rlit 0) (a !! Z.to_nat i).

(** [std::copy(src + ps, src + ps + n, dst + pd)] and
    [memcpy(dst + pd, src + ps, n * sizeof(real))] between two distinct
    vectors.  A negative count is undefined behaviour. *)
Definition copy (src : list real) (ps n : Z) (dst : list real) (pd : Z)
  : result (list real) :=
  if n <? 0 then Fault OutOfBounds
  else forM (range 0 n)
         (fun j d => x ← rd src (ps + j); wr d (pd + j) x) dst.
End Arith.

(** ** Shallow water physics ([shallow2d.h]) *)

Module Shallow2D.
Section Physics.
Context {real : Type} {RO : RealOps real}.

Definition nfield : Z := 3.

(** Gravitational force. *)
Definition g : real := rlit (98 # 10).

(** One iteration of the flux loop: cell [i] of the run. *)
Definition flux_cell (U : list real) (h hu hv : Z) (fhu fhv ghu ghv : Z)
    (i : Z) (FG : list real * list real) : result (list real * list real) :=
  let '(FU, GU) := FG in
  hi ← rd U (h + i);
  hui ← rd U (hu + i);
  hvi ← rd U (hv + i);
  inv_h ← rlit 1 /! hi;
  FU ← wr FU (fhu + i) (hui *! hui *! inv_h +! (rlit (1#2) *! g) *! hi *! hi);
  FU ← wr FU (fhv + i) (hui *! hvi *! inv_h);
  GU ← wr GU (ghu + i) (hui *! hvi *! inv_h);
  GU ← wr GU (ghv + i) (hvi *! hvi *! inv_h +! (rlit (1#2) *! g) *! hi *! hi);
  Ok (FU, GU).

(** [flux(FU + pf, GU + pg, U + pu, ncell, field_stride)]: the three
    pointers are a vector and a start index each; [FU], [GU] and [U] are
    distinct vectors in every call of the solver. *)
Definition flux (FU GU U : list real) (pf pg pu : Z)
    (ncell field_stride : Z) : result (list real * list real) :=
  let fh := pf in
  let fhu := pf + field_stride in
  let fhv := pf + 2 * field_stride in
  let gh := pg in
  let ghu := pg + field_stride in
  let ghv := pg + 2 * field_stride in
  let h := pu in
  let hu := pu + field_stride in
  let hv := pu + 2 * field_stride in
  FU ← copy U hu ncell FU fh;
  GU ← copy U hv ncell GU gh;
  forM (range 0 ncell) (flux_cell U h hu hv fhu fhv ghu ghv) (FU, GU).

(** One iteration of the wave speed loop. *)
Definition wave_speed_cell (U : list real) (h hu hv : Z) (i : Z)
    (cxy : real * real) : result (real * real) :=
  let '(cx, cy) := cxy in
  hi ← rd U (h + i);
  hui ← rd U (hu + i);
  hvi ← rd U (hv + i);
  root_gh ← lift SqrtDomain (rsqrt (g *! hi));
  qx ← hui /! hi;
  qy ← hvi /! hi;
  Ok (std_max cx (rabs qx +! root_gh), std_max cy (rabs qy +! root_gh)).

(** [wave_speed(cxy, U + pu, ncell, field_stride)]; the updated pair is
    returned. *)
Definition wave_speed (cxy : real * real) (U : list real) (pu : Z)
    (ncell field_stride : Z) : result (real * real) :=
  let h := pu in
  let hu := pu + field_stride in
  let hv := pu + 2 * field_stride in
  forM (range 0 ncell) (wave_speed_cell U h hu hv) cxy.
End Physics.
End Shallow2D.

(** ** The solver ([central2d.h], with [Physics = Shallow2D]) *)

(** Number of ghost cells. *)
Definition nghost : Z := 3.
Definition nfield : Z := Shallow2D.nfield.

(** The eight vectors of a solver. *)
Inductive vecname : Type := U | F | G | UX | UY | FX | GY | V.

#[export] Instance vecname_eq_dec : EqDecision vecname.
Proof. solve_decision. Defined.

Record Central2D (real : Type) : Type := mkCentral2D {
  nx : Z; ny : Z;                (* Number of (non-ghost) cells in x/y *)
  nx_all : Z; ny_all : Z;        (* Total cells in x/y (including ghost) *)
  dx : real; dy : real;          (* Cell size in x/y *)
  cfl : real;                    (* Allowed CFL number *)
  u_ : list real;                (* Solution values *)
  f_ : list real;                (* Fluxes in x *)
  g_ : list real;                (* Fluxes in y *)
  ux_ : list real;               (* x differences of u *)
  uy_ : list real;               (* y differences of u *)
  fx_ : list real;               (* x differences of f *)
  gy_ : list real;               (* y differences of g *)
  v_ : list real                 (* Solution values at next step *)
}.

Arguments mkCentral2D {real}.
Arguments nx {real}. Arguments ny {real}.
Arguments nx_all {real}. Arguments ny_all {real}.
Arguments dx {real}. Arguments dy {real}. Arguments cfl {real}.
Arguments u_ {real}. Arguments f_ {real}. Arguments g_ {real}.
Arguments ux_ {real}. Arguments uy_ {real}.
Arguments fx_ {real}. Arguments gy_ {real}. Arguments v_ {real}.

Section Solver.
Context {real : Type} {RO : RealOps real}.

(** The Limiter template argument: [limdiff(fm, f0, fp)]. *)
Variable limdiff : real -> real -> real -> real.

Abbreviation solver := (Central2D real).

Definition vec (n : vecname) (s : solver) : list real :=
  match n with
  | U => u_ s | F => f_ s | G => g_ s | UX => ux_ s
  | UY => uy_ s | FX => fx_ s | GY => gy_ s | V => v_ s
  end.

Definition set_vec (n : vecname) (a : list real) (s : solver) : solver :=
  let '(mkCentral2D nx ny nxa nya dx dy cfl u f g ux uy fx gy v) := s in
  match n with
  | U => mkCentral2D nx ny nxa nya dx dy cfl a f g ux uy fx gy v
  | F => mkCentral2D nx ny nxa nya dx dy cfl u a g ux uy fx gy v
  | G => mkCentral2D nx ny nxa nya dx dy cfl u f a ux uy fx gy v
  | UX => mkCentral2D nx ny nxa nya dx dy cfl u f g a uy fx gy v
  | UY => mkCentral2D nx ny nxa nya dx dy cfl u f g ux a fx gy v
  | FX => mkCentral2D nx ny nxa nya dx dy cfl u f g ux uy a gy v
  | GY => mkCentral2D nx ny nxa nya dx dy cfl u f g ux uy fx a v
  | V => mkCentral2D nx ny nxa nya dx dy cfl u f g ux uy fx gy a
  end.

(** [n_[i]] read and [n_[i] = x]. *)
Definition load (n : vecname) (i : Z) (s : solver) : result real :=
  rd (vec n s) i.

Definition store (n : vecname) (i : Z) (x : real) (s : solver)
  : result solver :=
  a ← wr (vec n s) i x; Ok (set_vec n a s).

(** *** Construction *)

(** [std::vector<real>(n)]: [n] zeros; a negative [n], converted to the
    unsigned size type, makes the constructor throw. *)
Definition new_vector (n : Z) : result (list real) :=
  if n <? 0 then Fault BadAlloc else Ok (replicate (Z.to_nat n) (rlit 0)).

(** The range of [int] and the result of an [int] operation: its value
    when it fits, undefined otherwise. *)
Definition int_min : Z := - 2 ^ 31.
Definition int_max : Z := 2 ^ 31 - 1.

Definition fits_int (z : Z) : bool := (int_min <=? z) && (z <=? int_max).

Definition int_ (z : Z) : result Z :=
  if fits_int z then Ok z else Fault IntOverflow.

(** [nfield * nx_all * ny_all], evaluated from the left in [int]. *)
Definition field_size (nx_all ny_all : Z) : result Z :=
  n ← int_ (nfield * nx_all); int_ (n * ny_all).

(** A member [std::vector<real>] initialised with
    [nfield * nx_all * ny_all]. *)
Definition new_field (nx_all ny_all : Z) : result (list real) :=
  n ← field_size nx_all ny_all; new_vector n.

Definition Central2D_new (w h : real) (nx ny : Z) (cfl : real)
  : result solver :=
  nx_all ← int_ (nx + 2 * nghost);
  ny_all ← int_ (ny + 2 * nghost);
  dx ← w /! rlit (inject_Z nx);
  dy ← h /! rlit (inject_Z ny);
  u ← new_field nx_all ny_all;
  f ← new_field nx_all ny_all;
  g ← new_field nx_all ny_all;
  ux ← new_field nx_all ny_all;
  uy ← new_field nx_all ny_all;
  fx ← new_field nx_all ny_all;
  gy ← new_field nx_all ny_all;
  v ← new_field nx_all ny_all;
  Ok (mkCentral2D nx ny nx_all ny_all dx dy cfl u f g ux uy fx gy v).

(** Max allowed CFL number when the argument is omitted. *)
Definition default_cfl : real := rlit (45 # 100).

(** *** Array accessor functions *)

Definition offset (s : solver) (k ix iy : Z) : Z :=
  (k * ny_all s + iy) * nx_all s + ix.

(** Array size accessors and dimension accessors. *)
Definition xsize (s : solver) : Z := nx s.
Definition ysize (s : solver) : Z := ny s.
Definition get_dx (s : solver) : real := dx s.
Definition get_dy (s : solver) : real := dy s.

(** Read / write elements of simulation state: [operator()(k, i, j)]. *)
Definition get (s : solver) (k i j : Z) : result real :=
  load U (offset s k (i + nghost) (j + nghost)) s.

Definition set (s : solver) (k i j : Z) (x : real) : result solver :=
  store U (offset s k (i + nghost) (j + nghost)) x s.

(** C++ [a % b] truncates towards zero; a zero [b] is undefined. *)
Definition cmod (a b : Z) : result Z :=
  if b =? 0 then Fault DivByZero else Ok (Z.rem a b).

(** Wrapped accessor (periodic BC). *)
Definition ioffset (s : solver) (k ix iy : Z) : result Z :=
  wx ← cmod (ix + nx s - nghost) (nx s);
  wy ← cmod (iy + ny s - nghost) (ny s);
  Ok (offset s k (wx + nghost) (wy + nghost)).

(** In the loops below [s] is the solver at entry, from which the
    [const] members are read, and [m] the solver as updated so far. *)

(** [u(k,ix,iy) = uwrap(k,ix,iy)]. *)
Definition wrap_cell (s : solver) (k ix iy : Z) (m : solver)
  : result solver :=
  i ← ioffset s k ix iy;
  x ← load U i m;
  store U (offset s k ix iy) x m.

(** *** Boundary conditions *)

Definition apply_periodic (s : solver) : result solver :=
  forM (range 0 nfield) (fun k m =>
    (* Copy data between right and left boundaries *)
    m ← forM (range 0 (ny_all s)) (fun iy =>
           forM (range 0 nghost) (fun ix m =>
             m ← wrap_cell s k ix iy m;
             wrap_cell s k (nx s + nghost + ix) iy m)) m;
    (* Copy data between top and bottom boundaries *)
    forM (range 0 nghost) (fun iy =>
      forM (range 0 (nx_all s)) (fun ix m =>
        m ← wrap_cell s k ix iy m;
        wrap_cell s k ix (ny s + nghost + iy) m)) m) s.

(** *** Initial flux and speed computations *)

Definition compute_fg_speeds (s : solver) : result (solver * (real * real)) :=
  '(f, g) ← Shallow2D.flux (f_ s) (g_ s) (u_ s) 0 0 0
              (nx_all s * ny_all s) (nx_all s * ny_all s);
  let s := set_vec G g (set_vec F f s) in
  let cxy := (rlit (1 # 1000000000000000), rlit (1 # 1000000000000000)) in
  cxy ← Shallow2D.wave_speed cxy (u_ s) 0
          (nx_all s * ny_all s) (nx_all s * ny_all s);
  Ok (s, cxy).

(** *** Derivatives with limiters *)

Definition limited_derivs_at (s : solver) (i : Z) (m : solver)
  : result solver :=
  (* x derivs *)
  um ← load U (i - 1) m; u0 ← load U i m; up ← load U (i + 1) m;
  m ← store UX i (limdiff um u0 up) m;
  fm ← load F (i - 1) m; f0 ← load F i m; fp ← load F (i + 1) m;
  m ← store FX i (limdiff fm f0 fp) m;
  (* y derivs *)
  um ← load U (i - nx_all s) m; u0 ← load U i m; up ← load U (i + nx_all s) m;
  m ← store UY i (limdiff um u0 up) m;
  gm ← load G (i - nx_all s) m; g0 ← load G i m; gp ← load G (i + nx_all s) m;
  store GY i (limdiff gm g0 gp) m.

Definition limited_derivs (s : solver) : result solver :=
  let hi := nfield * (ny_all s - 1) * nx_all s in
  forM (range (ny_all s) hi) (limited_derivs_at s) s.

(** *** Advancing a time step *)

(** Half step predictor *)
Definition predictor (dtcdx2 dtcdy2 : real) (s : solver) : result solver :=
  forM (range 1 (ny_all s - 1)) (fun iy =>
    forM (range 1 (nx_all s - 1)) (fun ix =>
      forM (range 0 nfield) (fun k m =>
        u ← load U (offset s k ix iy) m;
        fx ← load FX (offset s k ix iy) m;
        gy ← load GY (offset s k ix iy) m;
        store V (offset s k ix iy) (u -! dtcdx2 *! fx -! dtcdy2 *! gy) m)))
    s.

(** Flux values of f and g at half step *)
Definition half_step_flux (s : solver) : result solver :=
  forM (range 1 (ny_all s - 1)) (fun iy m =>
    let jj := offset s 0 1 iy in
    '(f, g) ← Shallow2D.flux (f_ m) (g_ m) (v_ m) jj jj jj
                (nx_all s - 2) (nx_all s * ny_all s);
    Ok (set_vec G g (set_vec F f m))) s.

(** The assignment to [v(m,ix,iy)] in the corrector, [k] being the
    field [m] of the source. *)
Definition corrector_cell (dtcdx2 dtcdy2 : real) (s : solver)
    (k ix iy : Z) (m : solver) : result solver :=
  u00 ← load U (offset s k ix iy) m;
  u10 ← load U (offset s k (ix + 1) iy) m;
  u01 ← load U (offset s k ix (iy + 1)) m;
  u11 ← load U (offset s k (ix + 1) (iy + 1)) m;
  ux10 ← load UX (offset s k (ix + 1) iy) m;
  ux00 ← load UX (offset s k ix iy) m;
  ux11 ← load UX (offset s k (ix + 1) (iy + 1)) m;
  ux01 ← load UX (offset s k ix (iy + 1)) m;
  uy01 ← load UY (offset s k ix (iy + 1)) m;
  uy00 ← load UY (offset s k ix iy) m;
  uy11 ← load UY (offset s k (ix + 1) (iy + 1)) m;
  uy10 ← load UY (offset s k (ix + 1) iy) m;
  f10 ← load F (offset s k (ix + 1) iy) m;
  f00 ← load F (offset s k ix iy) m;
  f11 ← load F (offset s k (ix + 1) (iy + 1)) m;
  f01 ← load F (offset s k ix (iy + 1)) m;
  g01 ← load G (offset s k ix (iy + 1)) m;
  g00 ← load G (offset s k ix iy) m;
  g11 ← load G (offset s k (ix + 1) (iy + 1)) m;
  g10 ← load G (offset s k (ix + 1) iy) m;
  store V (offset s k ix iy)
    (rlit (1 # 4) *! (u00 +! u10 +! u01 +! u11) -!
     rlit (1 # 16) *! (ux10 -! ux00 +! ux11 -! ux01 +!
                       uy01 -! uy00 +! uy11 -! uy10) -!
     dtcdx2 *! (f10 -! f00 +! f11 -! f01) -!
     dtcdy2 *! (g01 -! g00 +! g11 -! g10)) m.

(** Corrector (finish the step) *)
Definition corrector (io : Z) (dtcdx2 dtcdy2 : real) (s : solver)
  : result solver :=
  forM (range (nghost - io) (ny s + nghost - io)) (fun iy =>
    forM (range (nghost - io) (nx s + nghost - io)) (fun ix =>
      forM (range 0 nfield) (fun k =>
        corrector_cell dtcdx2 dtcdy2 s k ix iy))) s.

(** Copy from v storage back to main grid *)
Definition copy_back (io : Z) (s : solver) : result solver :=
  forM (range 0 nfield) (fun k m =>
    u ← copy (v_ m) (offset s k (nghost - io) (nghost - io))
           (ny s * nx_all s)
           (u_ m) (offset s k nghost nghost);
    Ok (set_vec U u m)) s.

Definition compute_step (io : Z) (dt : real) (s : solver) : result solver :=
  dtcdx2 ← rlit (1 # 2) *! dt /! dx s;
  dtcdy2 ← rlit (1 # 2) *! dt /! dy s;
  s ← predictor dtcdx2 dtcdy2 s;
  s ← half_step_flux s;
  s ← corrector io dtcdx2 dtcdy2 s;
  copy_back io s.

(** *** Advance time *)

(** The variables of [run]: the solver, [t], [dt] and [done].  [run_log]
    is a ghost variable: it records the arguments of every call of
    [compute_step], in order. *)
Record run_state : Type := mkRun {
  run_sim : solver;
  run_t : real;
  run_dt : real;
  run_done : bool;
  run_log : list (Z * real)
}.

(** The [if (io == 0)] block: the step size of the pair and the new
    [done]. *)
Definition choose_dt (s : solver) (cxy : real * real) (t tfinal : real)
    (done : bool) : result (real * bool) :=
  qx ← fst cxy /! dx s;
  qy ← snd cxy /! dy s;
  dt ← cfl s /! std_max qx qy;
  if t +! rlit 2 *! dt >=! tfinal
  then dt ← (tfinal -! t) /! rlit 2; Ok (dt, true)
  else Ok (dt, done).

(** The body of [for (int io = 0; io < 2; ++io)]. *)
Definition half_step (tfinal : real) (io : Z) (st : run_state)
  : result run_state :=
  s ← apply_periodic (run_sim st);
  '(s, cxy) ← compute_fg_speeds s;
  s ← limited_derivs s;
  '(dt, done) ← (if io =? 0
                 then choose_dt s cxy (run_t st) tfinal (run_done st)
                 else Ok (run_dt st, run_done st));
  s ← compute_step io dt s;
  Ok (mkRun s (run_t st +! dt) dt done (run_log st ++ [(io, dt)])).

(** The body of [while (!done)]. *)
Definition macro_step (tfinal : real) (st : run_state) : result run_state :=
  forM (range 0 2) (half_step tfinal) st.

(** [while (!done)], entered with [done = false]; the loop may run
    forever, so the model takes a bound on the number of iterations. *)
Fixpoint run_loop (fuel : nat) (tfinal : real) (st : run_state)
  : result run_state :=
  match fuel with
  | O => Fault OutOfFuel
  | S fuel' =>
      st ← macro_step tfinal st;
      if run_done st then Ok st else run_loop fuel' tfinal st
  end.

(** [run(tfinal)].  [dt] is declared without a value in the source and
    assigned before its first use. *)
Definition run (fuel : nat) (tfinal : real) (s : solver) : result run_state :=
  run_loop fuel tfinal (mkRun s (rlit 0) (rlit 0) false []).

(** *** Diagnostics *)

(** The numbers printed by [solution_check]. *)
Record report : Type := mkReport {
  volume : real;
  momentum_x : real;
  momentum_y : real;
  range_min : real;
  range_max : real
}.

(** The running values of the scan. *)
Record sums : Type := mkSums {
  h_sum : real; hu_sum : real; hv_sum : real; hmin : real; hmax : real
}.

(** The body of the scan at cell [(i, j)]. *)
Definition check_cell (s : solver) (i j : Z) (a : sums) : result sums :=
  h ← load U (offset s 0 i j) s;
  hu ← load U (offset s 1 i j) s;
  hv ← load U (offset s 2 i j) s;
  let a' := mkSums (h_sum a +! h) (hu_sum a +! hu) (hv_sum a +! hv)
                   (std_min h (hmin a)) (std_max h (hmax a)) in
  if rlit 0 <! h then Ok a' else Fault AssertFailed.

Definition solution_check (s : solver) : result report :=
  h0 ← load U (offset s 0 nghost nghost) s;
  a ← forM (range nghost (ny s + nghost)) (fun j =>
        forM (range nghost (nx s + nghost)) (fun i =>
          check_cell s i j))
      (mkSums (rlit 0) (rlit 0) (rlit 0) h0 h0);
  let cell_area := dx s *! dy s in
  Ok (mkReport (h_sum a *! cell_area) (hu_sum a *! cell_area)
               (hv_sum a *! cell_area) (hmin a) (hmax a)).
End Solver.

(** ** Exact rational arithmetic *)

(** The square root rounded down to a multiple of [2^-24]. *)
Definition Qsqrt_floor (x : Q) : Q :=
  Qred (Z.sqrt (Qnum x * 2 ^ 48 / Zpos (Qden x)) # 2 ^ 24).

(** Rationals in reduced form, so that equal numbers are equal terms.  A
    quotient by zero and the root of a negative number are undefined. *)
#[export] Instance Q_ops : RealOps Q := {|
  rlit q := Qred q;
  radd x y := Qred (x + y);
  rsub x y := Qred (x - y);
  rmul x y := Qred (x * y);
  rdiv x y := if Qeq_bool y 0 then None else Some (Qred (x / y));
  rsqrt x := if Qle_bool 0 x then Some (Qsqrt_floor x) else None;
  rabs x := Qabs x;
  rlt x y := negb (Qle_bool y x);
  rge x y := Qle_bool y x
|}.

(** ** IEEE 754 binary32 arithmetic *)

Definition prec32 : Z := 24.
Definition emax32 : Z := 128.

(** The binary32 number nearest to the rational [q], ties to even: [q] is
    first cut to more than 64 significant bits and a sticky bit. *)
Definition f32_of_Q (q : Q) : spec_float :=
  let n := Qnum q in
  let d := Zpos (Qden q) in
  let k := Z.max 0 (64 + Z.log2 d - Z.log2 (Z.abs n)) in
  let m := (Z.abs n * 2 ^ k) / d in
  let sticky := if (Z.abs n * 2 ^ k) mod d =? 0 then 0 else 1 in
  binary_normalize prec32 emax32 (Z.sgn n * (2 * m + sticky)) (- (k + 1)) false.

(** The rational value of a finite binary32 number (0 otherwise). *)
Definition Q_of_f32 (x : spec_float) : Q :=
  match x with
  | S754_finite s m e =>
      let v := if 0 <=? e then inject_Z (Zpos m * 2 ^ e)
               else Qmake (Zpos m) (Z.to_pos (2 ^ (- e))) in
      Qred (if s then Qopp v else v)
  | _ => 0%Q
  end.

(** Every operation is rounded to binary32, to nearest with ties to even;
    every quotient and every root is defined (infinities and NaN).  The
    source evaluates in [double] the sub-expressions that contain a literal
    and rounds them when they are stored; here they are rounded at every
    operation. *)
#[export] Instance F32_ops : RealOps spec_float := {|
  rlit q := f32_of_Q q;
  radd x y := SFadd prec32 emax32 x y;
  rsub x y := SFsub prec32 emax32 x y;
  rmul x y := SFmul prec32 emax32 x y;
  rdiv x y := Some (SFdiv prec32 emax32 x y);
  rsqrt x := Some (SFsqrt prec32 emax32 x);
  rabs x := SFabs x;
  rlt x y := SFltb x y;
  rge x y := SFleb y x
|}.

(** ** A limiter *)

Section Limiter.
Context {real : Type} {RO : RealOps real}.

(** Modelled from the spec: the Limiter template argument, whose header is
    not among the sources.  A minmod slope limiter: a pure function of
    three consecutive values (left, center, right) that returns a scaled
    derivative estimate and damps it near discontinuities. *)
Definition xmin (a b : real) : real :=
  if (rlit 0 <! a) && (rlit 0 <! b) then std_min a b
  else if (a <! rlit 0) && (b <! rlit 0) then std_max a b
  else rlit 0.

Definition minmod_limdiff (um u0 up : real) : real :=
  let du1 := u0 -! um in
  let du2 := up -! u0 in
  let duc := rlit (1 # 2) *! (du1 +! du2) in
  xmin (rlit 2 *! xmin du1 du2) duc.
End Limiter.

(** * Notions used to state the results *)

Section Notions.
Context {real : Type} {RO : RealOps real}.
Implicit Types (s m : Central2D real) (n : vecname).

(** The [const] members of a solver. *)
Definition params s := (nx s, ny s, nx_all s, ny_all s, dx s, dy s, cfl s).

(** A solver as the constructor builds it for positive cell counts:
    padded sizes and eight vectors of [nfield * nx_all * ny_all] cells. *)
Record wf s : Prop := mkWf {
  wf_nx : 0 < nx s;
  wf_ny : 0 < ny s;
  wf_nx_all : nx_all s = nx s + 2 * nghost;
  wf_ny_all : ny_all s = ny s + 2 * nghost;
  wf_len : forall n, Z.of_nat (length (vec n s)) = nfield * nx_all s * ny_all s
}.

(** The value of field [k] of vector [n] at padded coordinates
    [(ix, iy)]. *)
Definition cell n s (k ix iy : Z) : real := at_ (vec n s) (offset s k ix iy).

(** [m] differs from [s] at most in the contents of the vectors [ws]. *)
Definition same_except (ws : list vecname) s m : Prop :=
  params m = params s /\
  (forall n, n ∉ ws -> vec n m = vec n s) /\
  (forall n, length (vec n m) = length (vec n s)).

(** The value assigned by the predictor at offset [i]. *)
Definition predicted (dtcdx2 dtcdy2 : real) s (i : Z) : real :=
  at_ (u_ s) i -! dtcdx2 *! at_ (fx_ s) i -! dtcdy2 *! at_ (gy_ s) i.

(** The value assigned by the corrector at offset [i], the offsets of the
    stencil being [i], [i + 1], [i + nx_all] and [i + nx_all + 1]. *)
Definition corrected (dtcdx2 dtcdy2 : real) s (i : Z) : real :=
  let e := i + 1 in
  let n := i + nx_all s in
  let ne := i + nx_all s + 1 in
  rlit (1 # 4) *! (at_ (u_ s) i +! at_ (u_ s) e +! at_ (u_ s) n +! at_ (u_ s) ne) -!
  rlit (1 # 16) *! (at_ (ux_ s) e -! at_ (ux_ s) i +! at_ (ux_ s) ne -! at_ (ux_ s) n +!
                    at_ (uy_ s) n -! at_ (uy_ s) i +! at_ (uy_ s) ne -! at_ (uy_ s) e) -!
  dtcdx2 *! (at_ (f_ s) e -! at_ (f_ s) i +! at_ (f_ s) ne -! at_ (f_ s) n) -!
  dtcdy2 *! (at_ (g_ s) n -! at_ (g_ s) i +! at_ (g_ s) ne -! at_ (g_ s) e).

(** [1/h], when it is defined. *)
Definition inv_of (h : real) : real := default (rlit 0) (rdiv (rlit 1) h).

(** The components of the two fluxes of a cell of height [h] and momenta
    [hu], [hv]. *)
Definition flux_x_hu (h hu hv : real) : real :=
  hu *! hu *! inv_of h +! (rlit (1 # 2) *! Shallow2D.g) *! h *! h.
Definition flux_xy (h hu hv : real) : real := hu *! hv *! inv_of h.
Definition flux_y_hv (h hu hv : real) : real :=
  hv *! hv *! inv_of h +! (rlit (1 # 2) *! Shallow2D.g) *! h *! h.

(** The run [p, p + n) of each of the three fields, [st] apart. *)
Definition in_runs (p n st i : Z) : Prop :=
  p <= i < p + n \/ p + st <= i < p + st + n \/ p + 2 * st <= i < p + 2 * st + n.

(** What a completed call of [flux] has stored. *)
Definition flux_post (FU GU U : list real) (pf pg pu ncell st : Z)
    (FU' GU' : list real) : Prop :=
  length FU' = length FU /\ length GU' = length GU /\
  (forall i, 0 <= i < ncell ->
     let h := at_ U (pu + i) in
     let hu := at_ U (pu + st + i) in
     let hv := at_ U (pu + 2 * st + i) in
     at_ FU' (pf + i) = hu /\
     at_ FU' (pf + st + i) = flux_x_hu h hu hv /\
     at_ FU' (pf + 2 * st + i) = flux_xy h hu hv /\
     at_ GU' (pg + i) = hv /\
     at_ GU' (pg + st + i) = flux_xy h hu hv /\
     at_ GU' (pg + 2 * st + i) = flux_y_hv h hu hv) /\
  (forall i, ~ in_runs pf ncell st i -> at_ FU' i = at_ FU i) /\
  (forall i, ~ in_runs pg ncell st i -> at_ GU' i = at_ GU i).

(** The flux at half step divides by the height in [v] at every cell but
    those of the outermost ring: these divisions are defined. *)
Definition half_step_defined s : Prop :=
  forall ix iy, 1 <= ix < nx_all s - 1 -> 1 <= iy < ny_all s - 1 ->
    is_Some (rdiv (rlit 1) (cell V s 0 ix iy)).

(** [f] and [g] of [s'] hold the fluxes of the values in [v] of [sv] at
    the cell [(ix, iy)]. *)
Definition flux_of_v (sv s' : Central2D real) (ix iy : Z) : Prop :=
  let h := cell V sv 0 ix iy in
  let hu := cell V sv 1 ix iy in
  let hv := cell V sv 2 ix iy in
  cell F s' 0 ix iy = hu /\
  cell F s' 1 ix iy = flux_x_hu h hu hv /\
  cell F s' 2 ix iy = flux_xy h hu hv /\
  cell G s' 0 ix iy = hv /\
  cell G s' 1 ix iy = flux_xy h hu hv /\
  cell G s' 2 ix iy = flux_y_hv h hu hv.

(** The canonical interior coordinate of the padded coordinate [c] along
    an axis of [N] interior cells: [((c - G + N) mod N) + G]. *)
Definition canonical (N c : Z) : Z := (c - nghost + N) mod N + nghost.

(** [(ix, iy)] has a ghost component. *)
Definition ghost s (ix iy : Z) : Prop :=
  ~ (nghost <= ix < nx s + nghost /\ nghost <= iy < ny s + nghost).

(** The interior (non-ghost) cells [(j, i)], row by row. *)
Definition interior_cells s : list (Z * Z) :=
  list_prod (range nghost (ny s + nghost)) (range nghost (nx s + nghost)).

(** The sum of field [k] over the interior, in the order of the scan. *)
Definition interior_sum (k : Z) s : real :=
  fold_left (fun acc ji => acc +! cell U s k ji.2 ji.1) (interior_cells s) (rlit 0).

(** The least and the greatest height of the interior. *)
Definition interior_min s : real :=
  fold_left (fun acc ji => std_min (cell U s 0 ji.2 ji.1) acc)
    (interior_cells s) (cell U s 0 nghost nghost).

Definition interior_max s : real :=
  fold_left (fun acc ji => std_max (cell U s 0 ji.2 ji.1) acc)
    (interior_cells s) (cell U s 0 nghost nghost).

(** Every interior height is positive. *)
Definition interior_positive s : bool :=
  forallb (fun ji => rlit 0 <! cell U s 0 ji.2 ji.1) (interior_cells s).

(** The value that the corrector assigns to the cell [(ix, iy)] of field
    [k], written with cells: [s] holds the state and its limited
    derivatives, [s2] the fluxes of the predicted values.  The stencil is
    the cells [(ix, iy)] to [(ix + 1, iy + 1)]. *)
Definition corrector_value (dtcdx2 dtcdy2 : real) s s2 (k ix iy : Z) : real :=
  rlit (1 # 4) *! (cell U s k ix iy +! cell U s k (ix + 1) iy +!
                   cell U s k ix (iy + 1) +! cell U s k (ix + 1) (iy + 1)) -!
  rlit (1 # 16) *! (cell UX s k (ix + 1) iy -! cell UX s k ix iy +!
                    cell UX s k (ix + 1) (iy + 1) -! cell UX s k ix (iy + 1) +!
                    cell UY s k ix (iy + 1) -! cell UY s k ix iy +!
                    cell UY s k (ix + 1) (iy + 1) -! cell UY s k (ix + 1) iy) -!
  dtcdx2 *! (cell F s2 k (ix + 1) iy -! cell F s2 k ix iy +!
             cell F s2 k (ix + 1) (iy + 1) -! cell F s2 k ix (iy + 1)) -!
  dtcdy2 *! (cell G s2 k ix (iy + 1) -! cell G s2 k ix iy +!
             cell G s2 k (ix + 1) (iy + 1) -! cell G s2 k (ix + 1) iy).

(** The three calls that precede [compute_step] in a half-step: the
    solver as [compute_step] receives it, and the wave speeds measured. *)
Definition prepare (limdiff : real -> real -> real -> real) s
  : result (Central2D real * (real * real)) :=
  s1 ← apply_periodic s;
  '(s2, cxy) ← compute_fg_speeds s1;
  s3 ← limited_derivs limdiff s2;
  Ok (s3, cxy).

(** The calls of [compute_step] made by macro-steps of step sizes [dts]. *)
Definition pairs_of (dts : list real) : list (Z * real) :=
  flat_map (fun dt => [(0, dt); (1, dt)]) dts.

(** The value of a completed computation ([d] otherwise). *)
Definition value_of {A : Type} (d : A) (r : result A) : A :=
  match r with
  | Ok a => a
  | Fault _ => d
  end.

(** The cell [(k, ix, iy)] of [u] in [m] holds the value that its canonical
    cell had in [s]. *)
Definition periodic_at s (c : Z * Z * Z) m : Prop :=
  let '(k, ix, iy) := c in
  0 <= k < nfield -> 0 <= ix < nx_all s -> 0 <= iy < ny_all s ->
  at_ (u_ m) (offset s k ix iy) =
  at_ (u_ s) (offset s k (canonical (nx s) ix) (canonical (ny s) iy)).

(** [m] is [s] but for [u], whose interior cells are those of [s]. *)
Definition interior_kept s m : Prop :=
  same_except [U] s m /\
  forall k ix iy, nghost <= ix < nx s + nghost -> nghost <= iy < ny s + nghost ->
    periodic_at s (k, ix, iy) m.
End Notions.

(** A computation [body] covers the items [cov] when, from every state
    satisfying the invariant [I], it returns a state that satisfies [I],
    keeps every property [R c] that held and establishes [R c] for the
    covered items [c]. *)
Section Covers.
Context {S C : Type} (I : S -> Prop) (R : C -> S -> Prop).

Definition covers (body : S -> result S) (cov : C -> Prop) : Prop :=
  forall m, I m ->
    exists m', body m = Ok m' /\ I m' /\
      (forall c, R c m -> R c m') /\ (forall c, cov c -> R c m').
End Covers.

(** * Concrete grids *)

Definition empty_solver : Central2D Q :=
  mkCentral2D 0 0 0 0 0%Q 0%Q 0%Q [] [] [] [] [] [] [] [].

(** A 1 x 1 grid of side 1 holding still water of height 1, as built
    through the constructor and the accessor. *)
Definition lake_new : Central2D Q := Eval vm_compute in
  value_of empty_solver
    (s ← Central2D_new 1%Q 1%Q 1 1 default_cfl; set s 0 0 0 1%Q).

(** The same after the ghost cells are filled. *)
Definition lake : Central2D Q := Eval vm_compute in
  value_of empty_solver (apply_periodic lake_new).

(** [lake] after one even half-step of size 1/100. *)
Definition lake_stepped : Central2D Q := Eval vm_compute in
  value_of empty_solver (compute_step 0 (1 # 100)%Q lake).

(** The variables of [run] at the entry of the first macro-step, and after
    it, for [run(1/10)] on [lake_new]. *)
Definition lake_start : @run_state Q := mkRun lake_new 0%Q 0%Q false [].

Definition lake_after : @run_state Q := Eval vm_compute in
  value_of lake_start (macro_step minmod_limdiff (1 # 10)%Q lake_start).

(** A 2 x 1 grid of side 1 holding still water of height 1. *)
Definition narrow_new : Central2D Q := Eval vm_compute in
  value_of empty_solver
    (s ← Central2D_new 1%Q 1%Q 2 1 default_cfl;
     s ← set s 0 0 0 1%Q;
     set s 0 1 0 1%Q).

Definition narrow_wrapped : Central2D Q := Eval vm_compute in
  value_of empty_solver (apply_periodic narrow_new).

(** A 1 x 3 grid of side 1: height 1, no momentum in x, and momentum in y
    1/10, 2/10 and 0 in the three rows. *)
Definition ridge_new : Central2D Q := Eval vm_compute in
  value_of empty_solver
    (s ← Central2D_new 1%Q 1%Q 1 3 default_cfl;
     s ← set s 0 0 0 1%Q; s ← set s 0 0 1 1%Q; s ← set s 0 0 2 1%Q;
     s ← set s 2 0 0 (1 # 10)%Q; set s 2 0 1 (2 # 10)%Q).

(** The same at the entry of [limited_derivs] in the first half-step. *)
Definition ridge : Central2D Q := Eval vm_compute in
  value_of empty_solver
    (s ← apply_periodic ridge_new; sc ← compute_fg_speeds s; Ok sc.1).

Definition ridge_derivs : Central2D Q := Eval vm_compute in
  value_of empty_solver (limited_derivs minmod_limdiff ridge).

(** [ridge_new] after [run(1/1000)], which is one macro-step. *)
Definition ridge_after : @run_state Q := Eval vm_compute in
  value_of (mkRun ridge_new 0%Q 0%Q false [])
    (run minmod_limdiff 1 (1 # 1000)%Q ridge_new).

(** The same grid and the same call in binary32 arithmetic. *)
Definition ridge32_new : Central2D spec_float := Eval vm_compute in
  value_of (mkCentral2D 0 0 0 0 S754_nan S754_nan S754_nan [] [] [] [] [] [] [] [])
    (s ← Central2D_new (f32_of_Q 1) (f32_of_Q 1) 1 3 default_cfl;
     s ← set s 0 0 0 (f32_of_Q 1); s ← set s 0 0 1 (f32_of_Q 1);
     s ← set s 0 0 2 (f32_of_Q 1);
     s ← set s 2 0 0 (f32_of_Q (1 # 10)); set s 2 0 1 (f32_of_Q (2 # 10))).

Definition ridge32_after : @run_state spec_float := Eval vm_compute in
  value_of (mkRun ridge32_new S754_nan S754_nan false [])
    (run minmod_limdiff 1 (f32_of_Q (1 # 1000)) ridge32_new).

(** [lake] after [compute_fg_speeds], with the two speeds. *)
Definition lake_fg : Central2D Q * (Q * Q) := Eval vm_compute in
  value_of (empty_solver, (0%Q, 0%Q)) (compute_fg_speeds lake).

(** [lake_new] after [run(0)]. *)
Definition lake_still : @run_state Q := Eval vm_compute in
  value_of lake_start (run minmod_limdiff 1 0%Q lake_new).

(** A grid with no cell along x, as the constructor returns it in binary32
    arithmetic, where [dx = 1/0] is infinite. *)
Definition strip32_new : Central2D spec_float := Eval vm_compute in
  value_of (mkCentral2D 0 0 0 0 S754_nan S754_nan S754_nan [] [] [] [] [] [] [] [])
    (Central2D_new (f32_of_Q 1) (f32_of_Q 1) 0 1 default_cfl).

(** A 2 x 1 grid in binary32 arithmetic, as the constructor returns it. *)
Definition narrow32_new : Central2D spec_float := Eval vm_compute in
  value_of (mkCentral2D 0 0 0 0 S754_nan S754_nan S754_nan [] [] [] [] [] [] [] [])
    (Central2D_new (f32_of_Q 1) (f32_of_Q 1) 2 1 default_cfl).

(** The three values of the uniform state of [lake]. *)
Definition lake_values (k : Z) : Q := if k =? 0 then 1%Q else 0%Q.




(** * Reasoning about loops *)

Section Loops.
Context {S T : Type}.
Implicit Types (l : list T) (body : T -> S -> result S) (s : S).

Lemma bind_Ok {A B} (m : result A) (k : A -> result B) (b : B) :
  (m ≫= k) = Ok b <-> exists a, m = Ok a /\ k a = Ok b.
Proof.
  destruct m as [a|e]; simpl; split.
  - intros Hk. exists a. auto.
  - intros (a' & Ha & Hk). congruence.
  - discriminate.
  - intros (a' & Ha & _). discriminate.
Qed.

Lemma forM_app l1 l2 body s :
  forM (l1 ++ l2) body s = (forM l1 body s ≫= forM l2 body).
Proof.
  revert s. induction l1 as [|t l1 IH]; intros s; simpl; [reflexivity|].
  destruct (body t s) as [s'|e]; simpl; [apply IH | reflexivity].
Qed.

Lemma forM_ext l body1 body2 s :
  (forall t s, t ∈ l -> body1 t s = body2 t s) ->
  forM l body1 s = forM l body2 s.
Proof.
  revert s. induction l as [|t l IH]; intros s Hb; simpl; [reflexivity|].
  rewrite Hb by constructor.
  destruct (body2 t s) as [s'|e]; simpl; [|reflexivity].
  apply IH. intros t' s'' Ht'. apply Hb. by constructor.
Qed.

Lemma forM_inv (I : S -> Prop) (Q : T -> S -> Prop) l body s :
  I s ->
  (forall t s, t ∈ l -> I s ->
     exists s', body t s = Ok s' /\ I s' /\ Q t s' /\
                forall t', t' ∈ l -> Q t' s -> Q t' s') ->
  exists s', forM l body s = Ok s' /\ I s' /\ forall t, t ∈ l -> Q t s'.
Proof.
  intros HI Hbody.
  assert (Hgen : forall l2 l1 s, l = l1 ++ l2 -> I s ->
            (forall t, t ∈ l1 -> Q t s) ->
            exists s', forM l2 body s = Ok s' /\ I s' /\
                       forall t, t ∈ l -> Q t s').
  { induction l2 as [|t l2 IH]; intros l1 s1 Hl HI1 HQ1.
    - exists s1. rewrite app_nil_r in Hl. subst l1. auto.
    - destruct (Hbody t s1) as (s2 & Hs2 & HI2 & HQ2 & Hst); [|done|].
      { subst l. apply elem_of_app. right. constructor. }
      destruct (IH (l1 ++ [t]) s2) as (s3 & Hs3 & HI3 & HQ3).
      + by rewrite <- app_assoc.
      + done.
      + intros t' [Ht'|Ht']%elem_of_app.
        * apply Hst; [|by apply HQ1]. subst l. apply elem_of_app. by left.
        * apply list_elem_of_singleton in Ht'. by subst t'.
      + exists s3. simpl. rewrite Hs2. simpl. auto. }
  apply (Hgen l [] s); [done|done|]. intros t Ht. by apply elem_of_nil in Ht.
Qed.

Lemma forM_preserve (P : S -> Prop) l body s s' :
  (forall t s s', t ∈ l -> P s -> body t s = Ok s' -> P s') ->
  P s -> forM l body s = Ok s' -> P s'.
Proof.
  revert s. induction l as [|t l IH]; intros s Hb HP; simpl.
  - intros [= <-]. done.
  - intros (s1 & H1 & H2)%bind_Ok. apply (IH s1); [|by eapply Hb; [constructor|..]|done].
    intros t' s2 s3 Ht'. apply Hb. by constructor.
Qed.

Lemma forM_check (P : T -> bool) (step : T -> S -> S) (e : fault) l body s :
  (forall t s, t ∈ l -> body t s = if P t then Ok (step t s) else Fault e) ->
  forM l body s =
    if forallb P l then Ok (fold_left (fun s t => step t s) l s) else Fault e.
Proof.
  revert s. induction l as [|t l IH]; intros s Hb; simpl; [reflexivity|].
  rewrite Hb by constructor. destruct (P t); simpl; [|reflexivity].
  apply IH. intros t' s' Ht'. apply Hb. by constructor.
Qed.
End Loops.

Lemma forM_nest {S A B : Type} (la : list A) (lb : list B)
    (body : A -> B -> S -> result S) (s : S) :
  forM la (fun a => forM lb (body a)) s =
  forM (list_prod la lb) (fun ab => body ab.1 ab.2) s.
Proof.
  revert s. induction la as [|a la IH]; intros s; simpl; [reflexivity|].
  rewrite forM_app.
  assert (Hmap : forall s, forM (map (fun y => (a, y)) lb) (fun ab => body ab.1 ab.2) s
                 = forM lb (body a) s).
  { clear. induction lb as [|b lb IH]; intros s; simpl; [reflexivity|].
    destruct (body a b s); simpl; [apply IH|reflexivity]. }
  rewrite Hmap. destruct (forM lb (body a) s); simpl; [apply IH|reflexivity].
Qed.

Lemma elem_of_range (lo hi i : Z) : i ∈ range lo hi <-> lo <= i < hi.
Proof. unfold range. rewrite elem_of_seqZ. lia. Qed.

Lemma elem_of_list_prod {A B} (la : list A) (lb : list B) (ab : A * B) :
  ab ∈ list_prod la lb <-> ab.1 ∈ la /\ ab.2 ∈ lb.
Proof.
  destruct ab as [a b]. rewrite !list_elem_of_In. apply in_prod_iff.
Qed.

(** * Vectors *)

Section Vectors.
Context {real : Type} {RO : RealOps real}.
Implicit Types (a : list real) (i j : Z) (x : real).

Lemma rd_Ok a i : 0 <= i < Z.of_nat (length a) -> rd a i = Ok (at_ a i).
Proof.
  intros Hi. unfold rd, at_. destruct (Z.ltb_spec i 0); [lia|].
  destruct (lookup_lt_is_Some_2 a (Z.to_nat i)) as [x Hx]; [lia|].
  by rewrite Hx.
Qed.

Lemma rd_Ok_inv a i x :
  rd a i = Ok x -> 0 <= i < Z.of_nat (length a) /\ x = at_ a i.
Proof.
  unfold rd, at_. destruct (Z.ltb_spec i 0); [discriminate|].
  destruct (a !! Z.to_nat i) as [y|] eqn:Hy; simpl; [|discriminate].
  intros [= <-]. apply lookup_lt_Some in Hy. split; [lia|done].
Qed.

Lemma wr_Ok a i x :
  0 <= i < Z.of_nat (length a) -> wr a i x = Ok (<[Z.to_nat i := x]> a).
Proof.
  intros Hi. unfold wr.
  destruct (Z.leb_spec 0 i); [|lia]. destruct (Z.ltb_spec i (Z.of_nat (length a))); [|lia].
  reflexivity.
Qed.

Lemma wr_Ok_inv a i x a' :
  wr a i x = Ok a' ->
  0 <= i < Z.of_nat (length a) /\ a' = <[Z.to_nat i := x]> a.
Proof.
  unfold wr. destruct (Z.leb_spec 0 i); simpl; [|discriminate].
  destruct (Z.ltb_spec i (Z.of_nat (length a))); [|discriminate].
  intros [= <-]. split; [lia|done].
Qed.

Lemma at_insert_eq a i x :
  0 <= i < Z.of_nat (length a) -> at_ (<[Z.to_nat i := x]> a) i = x.
Proof.
  intros Hi. unfold at_. destruct (Z.ltb_spec i 0); [lia|].
  rewrite list_lookup_insert_eq by lia. reflexivity.
Qed.

Lemma at_insert_ne a i j x :
  0 <= i -> i <> j -> at_ (<[Z.to_nat i := x]> a) j = at_ a j.
Proof.
  intros Hi Hne. unfold at_. destruct (Z.ltb_spec j 0); [reflexivity|].
  rewrite list_lookup_insert_ne by lia. reflexivity.
Qed.

Lemma at_lookup a i x :
  0 <= i -> a !! Z.to_nat i = Some x -> at_ a i = x.
Proof.
  intros Hi Hx. unfold at_. destruct (Z.ltb_spec i 0); [lia|]. by rewrite Hx.
Qed.

(** [copy] moves the [n] values and nothing else. *)
Lemma copy_spec (src : list real) ps n (dst : list real) pd :
  0 <= n -> 0 <= ps -> ps + n <= Z.of_nat (length src) ->
  0 <= pd -> pd + n <= Z.of_nat (length dst) ->
  exists d, copy src ps n dst pd = Ok d /\
    length d = length dst /\
    (forall j, 0 <= j < n -> at_ d (pd + j) = at_ src (ps + j)) /\
    (forall i, ~ (pd <= i < pd + n) -> at_ d i = at_ dst i).
Proof.
  intros Hn Hps Hsrc Hpd Hdst. unfold copy.
  destruct (Z.ltb_spec n 0); [lia|].
  destruct (forM_inv
    (fun d => length d = length dst /\
              forall i, ~ (pd <= i < pd + n) -> at_ d i = at_ dst i)
    (fun j d => at_ d (pd + j) = at_ src (ps + j))
    (range 0 n) (fun j d => x ← rd src (ps + j); wr d (pd + j) x) dst)
    as (d & Hd & [Hlen Hout] & Hin).
  - auto.
  - intros j d Hj%elem_of_range [Hlen Hout].
    rewrite rd_Ok by lia. simpl. rewrite wr_Ok by lia.
    eexists. split; [reflexivity|]. split; [|split].
    + split; [by rewrite length_insert|].
      intros i Hi. rewrite at_insert_ne by lia. auto.
    + apply at_insert_eq. lia.
    + intros j' Hj'%elem_of_range HQ.
      destruct (decide (j' = j)) as [->|Hne].
      * apply at_insert_eq. lia.
      * rewrite at_insert_ne by lia. done.
  - exists d. repeat split; auto.
    intros j Hj. apply Hin. apply elem_of_range. lia.
Qed.
End Vectors.

(** * The vectors of a solver *)

Section SolverLemmas.
Context {real : Type} {RO : RealOps real}.
Implicit Types (s m : Central2D real) (n : vecname) (a : list real).

Lemma vec_set_vec_eq n a s : vec n (set_vec n a s) = a.
Proof. destruct s, n; reflexivity. Qed.

Lemma vec_set_vec_ne n n' a s : n <> n' -> vec n' (set_vec n a s) = vec n' s.
Proof. destruct s, n, n'; (reflexivity || congruence). Qed.

Lemma params_set_vec n a s : params (set_vec n a s) = params s.
Proof. destruct s, n; reflexivity. Qed.

Lemma offset_params s m k ix iy : params m = params s -> offset m k ix iy = offset s k ix iy.
Proof. unfold params, offset. intros [= _ _ -> -> _ _ _]. reflexivity. Qed.

Lemma load_Ok n i m :
  0 <= i < Z.of_nat (length (vec n m)) -> load n i m = Ok (at_ (vec n m) i).
Proof. apply rd_Ok. Qed.

Lemma store_Ok n i x m :
  0 <= i < Z.of_nat (length (vec n m)) ->
  store n i x m = Ok (set_vec n (<[Z.to_nat i := x]> (vec n m)) m).
Proof. intros Hi. unfold store. by rewrite wr_Ok. Qed.

Lemma store_Ok_inv n i x m m' :
  store n i x m = Ok m' ->
  0 <= i < Z.of_nat (length (vec n m)) /\
  m' = set_vec n (<[Z.to_nat i := x]> (vec n m)) m.
Proof.
  unfold store. intros (a & Ha & [= <-])%bind_Ok.
  apply wr_Ok_inv in Ha as [? ->]. done.
Qed.

Lemma same_except_refl ws s : same_except ws s s.
Proof. by repeat split. Qed.

Lemma same_except_set ws s m n a :
  same_except ws s m -> n ∈ ws -> length a = length (vec n s) ->
  same_except ws s (set_vec n a m).
Proof.
  intros (Hp & Hv & Hl) Hn Ha. split; [|split].
  - by rewrite params_set_vec.
  - intros n' Hn'. rewrite vec_set_vec_ne; [by apply Hv|]. intros ->. done.
  - intros n'. destruct (decide (n = n')) as [<-|Hne].
    + by rewrite vec_set_vec_eq.
    + by rewrite vec_set_vec_ne.
Qed.

Lemma same_except_trans ws s m m' :
  same_except ws s m -> same_except ws m m' -> same_except ws s m'.
Proof.
  intros (Hp & Hv & Hl) (Hp' & Hv' & Hl'). split; [|split].
  - congruence.
  - intros n Hn. rewrite Hv', Hv; done.
  - intros n. rewrite Hl', Hl; done.
Qed.

Lemma same_except_weaken ws ws' s m :
  same_except ws s m -> (forall n, n ∈ ws -> n ∈ ws') -> same_except ws' s m.
Proof.
  intros (Hp & Hv & Hl) Hsub. split; [done|split; [|done]].
  intros n Hn. apply Hv. intros Hn'. apply Hn, Hsub, Hn'.
Qed.

Lemma same_except_wf ws s m : same_except ws s m -> wf s -> wf m.
Proof.
  intros (Hp & Hv & Hl) [H1 H2 H3 H4 H5].
  unfold params in Hp. injection Hp as E1 E2 E3 E4 _ _ _.
  constructor; rewrite ?E1, ?E2, ?E3, ?E4; try done.
  intros n. rewrite Hl. apply H5.
Qed.

Lemma offset_bounds s k ix iy :
  wf s -> 0 <= k < nfield -> 0 <= ix < nx_all s -> 0 <= iy < ny_all s ->
  0 <= offset s k ix iy < nfield * nx_all s * ny_all s.
Proof.
  intros [H1 H2 H3 H4 _]. unfold offset, nfield, Shallow2D.nfield, nghost in *.
  intros Hk Hx Hy. nia.
Qed.

(** A loop whose every iteration is one assignment [W[idx t] = val t], the
    value being computed from the other vectors. *)
Lemma forM_store {T : Type} (W : vecname) (idx : T -> Z) (val : T -> real)
    (body : T -> Central2D real -> result (Central2D real)) (l : list T) s :
  (forall t, t ∈ l -> 0 <= idx t < Z.of_nat (length (vec W s))) ->
  (forall t m, t ∈ l -> same_except [W] s m ->
     body t m = store W (idx t) (val t) m) ->
  (forall t t', t ∈ l -> t' ∈ l -> idx t = idx t' -> val t = val t') ->
  exists s', forM l body s = Ok s' /\ same_except [W] s s' /\
    (forall t, t ∈ l -> at_ (vec W s') (idx t) = val t) /\
    (forall i, (forall t, t ∈ l -> idx t <> i) ->
       at_ (vec W s') i = at_ (vec W s) i).
Proof.
  intros Hidx Hbody Hval.
  destruct (forM_inv
    (fun m => same_except [W] s m /\
              forall i, (forall t, t ∈ l -> idx t <> i) ->
                        at_ (vec W m) i = at_ (vec W s) i)
    (fun t m => at_ (vec W m) (idx t) = val t) l body s)
    as (s' & Hs' & [Hse Hout] & Hin).
  - split; [apply same_except_refl|done].
  - intros t m Ht [Hse Hout]. rewrite Hbody by done.
    assert (Hlen : length (vec W m) = length (vec W s)) by apply Hse.
    specialize (Hidx t Ht).
    rewrite store_Ok by lia. eexists. split; [reflexivity|].
    split; [split|split].
    + apply same_except_set; [done|by constructor|].
      rewrite length_insert. done.
    + intros i Hi. rewrite vec_set_vec_eq, at_insert_ne; [by apply Hout|lia|by apply Hi].
    + rewrite vec_set_vec_eq. apply at_insert_eq. lia.
    + intros t' Ht' HQ. rewrite vec_set_vec_eq.
      destruct (decide (idx t = idx t')) as [Heq|Hne].
      * rewrite <- Heq, at_insert_eq by lia. by apply Hval.
      * rewrite at_insert_ne by lia. done.
  - exists s'. auto.
Qed.
End SolverLemmas.

(** * The phases of a step *)

Lemma forM_nest3 {S A B C : Type} (la : list A) (lb : list B) (lc : list C)
    (body : A -> B -> C -> S -> result S) (s : S) :
  forM la (fun a => forM lb (fun b => forM lc (body a b))) s =
  forM (list_prod la (list_prod lb lc)) (fun t => body t.1 t.2.1 t.2.2) s.
Proof.
  rewrite <- (forM_nest la (list_prod lb lc) (fun a bc => body a bc.1 bc.2)).
  apply forM_ext. intros a s' _. apply forM_nest.
Qed.

Section Step.
Context {real : Type} {RO : RealOps real}.
Implicit Types (s m : Central2D real) (n : vecname).

Lemma load_same_except W n i s m :
  wf s -> same_except [W] s m -> n <> W ->
  0 <= i < nfield * nx_all s * ny_all s ->
  load n i m = Ok (at_ (vec n s) i).
Proof.
  intros Hwf (Hp & Hv & Hl) Hn Hi.
  rewrite load_Ok.
  - rewrite Hv; [done|]. by intros ->%list_elem_of_singleton.
  - rewrite Hl, (wf_len s Hwf). done.
Qed.

Lemma predictor_spec dtcdx2 dtcdy2 s :
  wf s ->
  exists s1, predictor dtcdx2 dtcdy2 s = Ok s1 /\ same_except [V] s s1 /\
    (forall k ix iy, 0 <= k < nfield ->
       1 <= ix < nx_all s - 1 -> 1 <= iy < ny_all s - 1 ->
       at_ (v_ s1) (offset s k ix iy) = predicted dtcdx2 dtcdy2 s (offset s k ix iy)).
Proof.
  intros Hwf. unfold predictor.
  rewrite (forM_nest3 _ _ _ (fun iy ix k m =>
    u ← load U (offset s k ix iy) m;
    fx ← load FX (offset s k ix iy) m;
    gy ← load GY (offset s k ix iy) m;
    store V (offset s k ix iy) (u -! dtcdx2 *! fx -! dtcdy2 *! gy) m)).
  destruct (forM_store V (fun t => offset s t.2.2 t.2.1 t.1)
              (fun t => predicted dtcdx2 dtcdy2 s (offset s t.2.2 t.2.1 t.1))
              (fun t : Z * (Z * Z) => (fun iy ix k m =>
    u ← load U (offset s k ix iy) m;
    fx ← load FX (offset s k ix iy) m;
    gy ← load GY (offset s k ix iy) m;
    store V (offset s k ix iy) (u -! dtcdx2 *! fx -! dtcdy2 *! gy) m) t.1 t.2.1 t.2.2)
              (list_prod (range 1 (ny_all s - 1))
                 (list_prod (range 1 (nx_all s - 1)) (range 0 nfield))) s)
    as (s1 & Hs1 & Hse & Hin & _).
  - intros [iy [ix k]] (Hy%elem_of_range & (Hx%elem_of_range & Hk%elem_of_range)%elem_of_list_prod)%elem_of_list_prod.
    simpl in *. change (vec V s) with (v_ s). pose proof (wf_len s Hwf V) as HL. simpl in HL.
    rewrite HL. apply offset_bounds; [done|lia..].
  - intros [iy [ix k]] m (Hy%elem_of_range & (Hx%elem_of_range & Hk%elem_of_range)%elem_of_list_prod)%elem_of_list_prod Hse.
    simpl in *.
    assert (Hb : 0 <= offset s k ix iy < nfield * nx_all s * ny_all s)
      by (apply offset_bounds; [done|lia..]).
    rewrite !(load_same_except V _ _ s m) by (done || discriminate). simpl.
    reflexivity.
  - intros t t' _ _ ->. reflexivity.
  - exists s1. split; [done|]. split; [done|].
    intros k ix iy Hk Hx Hy.
    apply (Hin (iy, (ix, k))).
    rewrite !elem_of_list_prod, !elem_of_range. simpl. lia.
Qed.
End Step.

Lemma mixed_radix_unique (a a' N x x' : Z) :
  0 <= x < N -> 0 <= x' < N -> a * N + x = a' * N + x' -> a = a' /\ x = x'.
Proof. intros Hx Hx' Heq. assert (a = a') by nia. subst a'. lia. Qed.

Section Corrector.
Context {real : Type} {RO : RealOps real}.
Implicit Types (s m : Central2D real) (n : vecname).

Lemma offset_east s k ix iy : offset s k (ix + 1) iy = offset s k ix iy + 1.
Proof. unfold offset. ring. Qed.

Lemma offset_north s k ix iy :
  offset s k ix (iy + 1) = offset s k ix iy + nx_all s.
Proof. unfold offset. ring. Qed.

Lemma offset_north_east s k ix iy :
  offset s k (ix + 1) (iy + 1) = offset s k ix iy + nx_all s + 1.
Proof. unfold offset. ring. Qed.

Lemma offset_inj s k ix iy k' ix' iy' :
  0 <= ix < nx_all s -> 0 <= ix' < nx_all s ->
  0 <= iy < ny_all s -> 0 <= iy' < ny_all s ->
  offset s k ix iy = offset s k' ix' iy' -> k = k' /\ ix = ix' /\ iy = iy'.
Proof.
  unfold offset. intros Hx Hx' Hy Hy' Heq.
  assert (Hrow : k * ny_all s + iy = k' * ny_all s + iy' /\ ix = ix').
  { apply (mixed_radix_unique _ _ (nx_all s)); done. }
  destruct Hrow as [Hrow ->].
  apply (mixed_radix_unique _ _ (ny_all s)) in Hrow as [-> ->]; done.
Qed.

Lemma corrector_spec io dtcdx2 dtcdy2 s :
  wf s -> 0 <= io <= 1 ->
  exists s', corrector io dtcdx2 dtcdy2 s = Ok s' /\ same_except [V] s s' /\
    (forall k ix iy, 0 <= k < nfield ->
       nghost - io <= ix < nx s + nghost - io ->
       nghost - io <= iy < ny s + nghost - io ->
       at_ (v_ s') (offset s k ix iy) = corrected dtcdx2 dtcdy2 s (offset s k ix iy)) /\
    (forall k ix iy, 0 <= k < nfield -> 0 <= ix < nx_all s -> 0 <= iy < ny_all s ->
       ~ (nghost - io <= ix < nx s + nghost - io /\
          nghost - io <= iy < ny s + nghost - io) ->
       at_ (v_ s') (offset s k ix iy) = at_ (v_ s) (offset s k ix iy)).
Proof.
  intros Hwf Hio. unfold corrector.
  rewrite (forM_nest3 _ _ _ (fun iy ix k => corrector_cell dtcdx2 dtcdy2 s k ix iy)).
  destruct (forM_store V (fun t => offset s t.2.2 t.2.1 t.1)
              (fun t => corrected dtcdx2 dtcdy2 s (offset s t.2.2 t.2.1 t.1))
              (fun t : Z * (Z * Z) => corrector_cell dtcdx2 dtcdy2 s t.2.2 t.2.1 t.1)
              (list_prod (range (nghost - io) (ny s + nghost - io))
                 (list_prod (range (nghost - io) (nx s + nghost - io)) (range 0 nfield))) s)
    as (s' & Hs' & Hse & Hin & Hout).
  - intros [iy [ix k]] (Hy%elem_of_range & (Hx%elem_of_range & Hk%elem_of_range)%elem_of_list_prod)%elem_of_list_prod.
    simpl in *. change (vec V s) with (v_ s). pose proof (wf_len s Hwf V) as HL. simpl in HL.
    rewrite HL. destruct Hwf. unfold nghost in *. apply offset_bounds; [done|lia..].
  - intros [iy [ix k]] m (Hy%elem_of_range & (Hx%elem_of_range & Hk%elem_of_range)%elem_of_list_prod)%elem_of_list_prod Hse.
    simpl in *. unfold corrector_cell.
    pose proof (wf_nx_all s Hwf) as Hxa. pose proof (wf_ny_all s Hwf) as Hya.
    unfold nghost in *.
    assert (H00 : 0 <= offset s k ix iy < nfield * nx_all s * ny_all s)
      by (apply offset_bounds; [done|lia..]).
    assert (H10 : 0 <= offset s k (ix + 1) iy < nfield * nx_all s * ny_all s)
      by (apply offset_bounds; [done|lia..]).
    assert (H01 : 0 <= offset s k ix (iy + 1) < nfield * nx_all s * ny_all s)
      by (apply offset_bounds; [done|lia..]).
    assert (H11 : 0 <= offset s k (ix + 1) (iy + 1) < nfield * nx_all s * ny_all s)
      by (apply offset_bounds; [done|lia..]).
    rewrite !(load_same_except V _ _ s m) by (done || discriminate). simpl.
    rewrite offset_north_east, offset_north, offset_east. reflexivity.
  - intros t t' _ _ ->. reflexivity.
  - exists s'. split; [done|]. split; [done|]. split.
    + intros k ix iy Hk Hx Hy. apply (Hin (iy, (ix, k))).
      rewrite !elem_of_list_prod, !elem_of_range. simpl. lia.
    + intros k ix iy Hk Hx Hy Hnot. apply Hout.
      intros [iy' [ix' k']] (Hy'%elem_of_range & (Hx'%elem_of_range & Hk'%elem_of_range)%elem_of_list_prod)%elem_of_list_prod.
      simpl in *. intros Heq. apply Hnot.
      pose proof (wf_nx_all s Hwf) as Hxa. pose proof (wf_ny_all s Hwf) as Hya.
      unfold nghost in *.
      apply offset_inj in Heq as (_ & -> & ->); lia.
Qed.
End Corrector.

Section FluxLemmas.
Context {real : Type} {RO : RealOps real}.
Implicit Types (FU GU U : list real).

Lemma flux_spec FU GU U pf pg pu ncell st :
  0 <= ncell <= st ->
  0 <= pf -> pf + 2 * st + ncell <= Z.of_nat (length FU) ->
  0 <= pg -> pg + 2 * st + ncell <= Z.of_nat (length GU) ->
  0 <= pu -> pu + 2 * st + ncell <= Z.of_nat (length U) ->
  (forall i, 0 <= i < ncell -> is_Some (rdiv (rlit 1) (at_ U (pu + i)))) ->
  exists FU' GU', Shallow2D.flux FU GU U pf pg pu ncell st = Ok (FU', GU') /\
    flux_post FU GU U pf pg pu ncell st FU' GU'.
Proof.
  intros Hn Hpf HFU Hpg HGU Hpu HU Hdef. unfold Shallow2D.flux.
  destruct (copy_spec U (pu + st) ncell FU pf) as (F1 & -> & HF1len & HF1in & HF1out); try lia.
  simpl.
  destruct (copy_spec U (pu + 2 * st) ncell GU pg) as (G1 & -> & HG1len & HG1in & HG1out); try lia.
  simpl.
  destruct (forM_inv
    (fun FG : list real * list real =>
       length FG.1 = length FU /\ length FG.2 = length GU /\
       (forall i, 0 <= i < ncell -> at_ FG.1 (pf + i) = at_ U (pu + st + i)) /\
       (forall i, 0 <= i < ncell -> at_ FG.2 (pg + i) = at_ U (pu + 2 * st + i)) /\
       (forall i, ~ in_runs pf ncell st i -> at_ FG.1 i = at_ FU i) /\
       (forall i, ~ in_runs pg ncell st i -> at_ FG.2 i = at_ GU i))
    (fun i (FG : list real * list real) =>
       let h := at_ U (pu + i) in
       let hu := at_ U (pu + st + i) in
       let hv := at_ U (pu + 2 * st + i) in
       at_ FG.1 (pf + st + i) = flux_x_hu h hu hv /\
       at_ FG.1 (pf + 2 * st + i) = flux_xy h hu hv /\
       at_ FG.2 (pg + st + i) = flux_xy h hu hv /\
       at_ FG.2 (pg + 2 * st + i) = flux_y_hv h hu hv)
    (range 0 ncell)
    (Shallow2D.flux_cell U pu (pu + st) (pu + 2 * st)
       (pf + st) (pf + 2 * st) (pg + st) (pg + 2 * st))
    (F1, G1)) as ([FU' GU'] & HOk & (HlF & HlG & HcF & HcG & HoF & HoG) & HQ).
  - simpl. repeat split; try done.
    + intros i Hi. rewrite HF1out; [done|]. unfold in_runs in Hi. lia.
    + intros i Hi. rewrite HG1out; [done|]. unfold in_runs in Hi. lia.
  - intros i [FU1 GU1] Hi%elem_of_range (HlF & HlG & HcF & HcG & HoF & HoG).
    simpl in *. unfold Shallow2D.flux_cell.
    rewrite !rd_Ok by lia. simpl.
    destruct (Hdef i) as [inv Hinv]; [lia|].
    assert (Hinv' : inv_of (at_ U (pu + i)) = inv) by (unfold inv_of; by rewrite Hinv).
    rewrite Hinv. simpl.
    rewrite wr_Ok by lia. simpl.
    rewrite wr_Ok by (rewrite length_insert; lia). simpl.
    rewrite wr_Ok by lia. simpl.
    rewrite wr_Ok by (rewrite length_insert; lia). simpl.
    eexists. split; [reflexivity|]. simpl.
    split; [|split].
    + rewrite !length_insert. repeat split; try done.
      * intros j Hj. rewrite !at_insert_ne by lia. by apply HcF.
      * intros j Hj. rewrite !at_insert_ne by lia. by apply HcG.
      * intros j Hj. unfold in_runs in Hj. rewrite !at_insert_ne by lia. apply HoF. unfold in_runs. lia.
      * intros j Hj. unfold in_runs in Hj. rewrite !at_insert_ne by lia. apply HoG. unfold in_runs. lia.
    + unfold flux_x_hu, flux_xy, flux_y_hv. rewrite Hinv'.
      repeat split.
      * rewrite at_insert_ne by lia. apply at_insert_eq. lia.
      * apply at_insert_eq. rewrite length_insert. lia.
      * rewrite at_insert_ne by lia. apply at_insert_eq. lia.
      * apply at_insert_eq. rewrite length_insert. lia.
    + intros j Hj%elem_of_range. simpl.
      destruct (decide (j = i)) as [->|Hne].
      * intros _. unfold flux_x_hu, flux_xy, flux_y_hv. rewrite Hinv'.
        repeat split.
        -- rewrite at_insert_ne by lia. apply at_insert_eq. lia.
        -- apply at_insert_eq. rewrite length_insert. lia.
        -- rewrite at_insert_ne by lia. apply at_insert_eq. lia.
        -- apply at_insert_eq. rewrite length_insert. lia.
      * rewrite !at_insert_ne by lia. done.
  - exists FU', GU'. split; [done|]. simpl in *.
    split; [done|]. split; [done|]. split; [|split; done].
    intros i Hi h hu hv.
    destruct (HQ i) as (Q1 & Q2 & Q3 & Q4); [apply elem_of_range; lia|].
    rewrite HcF, HcG by lia. repeat split; done.
Qed.
End FluxLemmas.

Lemma forM_Ok_each {S T : Type} (I : S -> Prop) (P : T -> Prop)
    (l : list T) (body : T -> S -> result S) (s s' : S) :
  I s ->
  (forall t s s', t ∈ l -> I s -> body t s = Ok s' -> I s' /\ P t) ->
  forM l body s = Ok s' -> forall t, t ∈ l -> P t.
Proof.
  revert s. induction l as [|t l IH]; intros s HI Hb; simpl.
  - intros _ t Ht. by apply elem_of_nil in Ht.
  - intros (s1 & H1 & H2)%bind_Ok t' Ht'.
    destruct (Hb t s s1) as [HI1 HP]; [constructor|done|done|].
    apply elem_of_cons in Ht' as [->|Ht']; [done|].
    apply (IH s1); try done.
    intros t2 s2 s3 Ht2. apply Hb. by constructor.
Qed.

Section FluxInversion.
Context {real : Type} {RO : RealOps real}.
Implicit Types (FU GU U : list real) (s m : Central2D real).

Lemma flux_Ok_defined FU GU U pf pg pu ncell st FG :
  Shallow2D.flux FU GU U pf pg pu ncell st = Ok FG ->
  forall i, 0 <= i < ncell -> is_Some (rdiv (rlit 1) (at_ U (pu + i))).
Proof.
  unfold Shallow2D.flux.
  intros (F1 & _ & (G1 & _ & Hloop)%bind_Ok)%bind_Ok i Hi.
  refine (forM_Ok_each (fun _ => True)
           (fun i => is_Some (rdiv (rlit 1) (at_ U (pu + i)))) _ _ _ _ I _ Hloop i _);
    [|apply elem_of_range; lia].
  intros j [FU1 GU1] FG' _ _. unfold Shallow2D.flux_cell.
  intros (hi & Hhi & (hui & _ & (hvi & _ & (inv & Hinv & _)%bind_Ok)%bind_Ok)%bind_Ok)%bind_Ok.
  split; [done|]. apply rd_Ok_inv in Hhi as [_ ->].
  destruct (rdiv (rlit 1) (at_ U (pu + j))); [by eexists|discriminate].
Qed.

Lemma half_step_flux_Ok_defined s s' :
  half_step_flux s = Ok s' -> half_step_defined s.
Proof.
  unfold half_step_flux. intros Hloop ix iy Hx Hy.
  assert (Hrow : forall i, 0 <= i < nx_all s - 2 ->
            is_Some (rdiv (rlit 1) (at_ (v_ s) (offset s 0 1 iy + i)))).
  { refine (forM_Ok_each (fun m => v_ m = v_ s)
           (fun iy => forall i, 0 <= i < nx_all s - 2 ->
              is_Some (rdiv (rlit 1) (at_ (v_ s) (offset s 0 1 iy + i))))
           _ _ _ _ eq_refl _ Hloop iy _); [|apply elem_of_range; lia].
    intros j m m' _ Hv. intros ([f g] & Hflux & [= <-])%bind_Ok.
    split; [by destruct m|].
    rewrite <- Hv. eapply flux_Ok_defined. exact Hflux. }
  unfold cell. simpl. replace (offset s 0 ix iy) with (offset s 0 1 iy + (ix - 1))
    by (unfold offset; ring). apply Hrow. lia.
Qed.
End FluxInversion.

Ltac vec_in := repeat constructor.
Ltac vec_notin :=
  let H := fresh in
  intros H; repeat (apply elem_of_cons in H as [H|H]; [discriminate H|]);
  by apply elem_of_nil in H.

Section HalfStepFlux.
Context {real : Type} {RO : RealOps real}.
Implicit Types (s m : Central2D real).

Lemma in_runs_row s iy i :
  in_runs (offset s 0 1 iy) (nx_all s - 2) (nx_all s * ny_all s) i ->
  exists k ix, 0 <= k < nfield /\ 1 <= ix < nx_all s - 1 /\ i = offset s k ix iy.
Proof.
  unfold in_runs, offset, nfield, Shallow2D.nfield. intros [H|[H|H]].
  - exists 0, (i - iy * nx_all s). lia.
  - exists 1, (i - (ny_all s + iy) * nx_all s). lia.
  - exists 2, (i - (2 * ny_all s + iy) * nx_all s). lia.
Qed.

Lemma half_step_flux_spec s :
  wf s -> half_step_defined s ->
  exists s', half_step_flux s = Ok s' /\ same_except [F; G] s s' /\
    forall ix iy, 1 <= ix < nx_all s - 1 -> 1 <= iy < ny_all s - 1 ->
      flux_of_v s s' ix iy.
Proof.
  intros Hwf Hdef. unfold half_step_flux.
  pose proof (wf_nx_all s Hwf) as Hxa. pose proof (wf_ny_all s Hwf) as Hya.
  pose proof (wf_nx s Hwf) as Hnx. pose proof (wf_ny s Hwf) as Hny.
  unfold nghost in *.
  set (st := nx_all s * ny_all s).
  set (Q := fun (iy : Z) (m : Central2D real) =>
    forall ix, 1 <= ix < nx_all s - 1 ->
      let h := at_ (v_ s) (offset s 0 ix iy) in
      let hu := at_ (v_ s) (offset s 1 ix iy) in
      let hv := at_ (v_ s) (offset s 2 ix iy) in
      at_ (f_ m) (offset s 0 ix iy) = hu /\
      at_ (f_ m) (offset s 1 ix iy) = flux_x_hu h hu hv /\
      at_ (f_ m) (offset s 2 ix iy) = flux_xy h hu hv /\
      at_ (g_ m) (offset s 0 ix iy) = hv /\
      at_ (g_ m) (offset s 1 ix iy) = flux_xy h hu hv /\
      at_ (g_ m) (offset s 2 ix iy) = flux_y_hv h hu hv).
  destruct (forM_inv (same_except [F; G] s) Q (range 1 (ny_all s - 1))
    (fun iy m =>
       let jj := offset s 0 1 iy in
       '(f, g) ← Shallow2D.flux (f_ m) (g_ m) (v_ m) jj jj jj (nx_all s - 2) st;
       Ok (set_vec G g (set_vec F f m))) s) as (s' & Hs' & Hse & HQ).
  - apply same_except_refl.
  - intros iy m Hiy%elem_of_range Hse.
    assert (Hv : v_ m = v_ s).
    { destruct Hse as (_ & Hv & _). apply (Hv V). vec_notin. }
    assert (Hlen : forall n, Z.of_nat (length (vec n m)) = nfield * st).
    { intros n. destruct Hse as (_ & _ & Hl). rewrite Hl, (wf_len s Hwf). unfold st. ring. }
    pose proof (Hlen F) as HlF. pose proof (Hlen G) as HlG. pose proof (Hlen V) as HlV.
    simpl in HlF, HlG, HlV.
    assert (Hjj : offset s 0 1 iy = iy * nx_all s + 1) by (unfold offset; ring).
    assert (Hst : (iy + 1) * nx_all s <= st) by (unfold st; nia).
    destruct (flux_spec (f_ m) (g_ m) (v_ m) (offset s 0 1 iy) (offset s 0 1 iy)
                (offset s 0 1 iy) (nx_all s - 2) st) as (f' & g' & Hflux & Hpost);
      unfold nfield, Shallow2D.nfield in *; try nia.
    { intros i Hi. rewrite Hv.
      replace (offset s 0 1 iy + i) with (offset s 0 (1 + i) iy) by (unfold offset; ring).
      apply Hdef; lia. }
    simpl. rewrite Hflux. simpl. eexists. split; [reflexivity|].
    destruct Hpost as (HlF' & HlG' & Hin & HoF & HoG).
    assert (Hf' : f_ (set_vec G g' (set_vec F f' m)) = f') by (by destruct m).
    assert (Hg' : g_ (set_vec G g' (set_vec F f' m)) = g') by (by destruct m).
    assert (HQnew : Q iy (set_vec G g' (set_vec F f' m))).
    { intros ix Hix. rewrite Hf', Hg'.
      specialize (Hin (ix - 1) ltac:(lia)). rewrite Hv in Hin. simpl in Hin.
      replace (offset s 0 1 iy + (ix - 1)) with (offset s 0 ix iy) in Hin
        by (unfold offset; ring).
      replace (offset s 0 1 iy + st + (ix - 1)) with (offset s 1 ix iy) in Hin
        by (unfold offset, st; ring).
      replace (offset s 0 1 iy + 2 * st + (ix - 1)) with (offset s 2 ix iy) in Hin
        by (unfold offset, st; ring).
      exact Hin. }
    split; [|split; [exact HQnew|]].
    + apply same_except_set; [apply same_except_set|..]; try done; try vec_in.
      * change (vec F s) with (f_ s). destruct Hse as (_ & _ & Hl).
        rewrite HlF'. apply (Hl F).
      * change (vec G s) with (g_ s). destruct Hse as (_ & _ & Hl).
        rewrite HlG'. apply (Hl G).
    + intros iy' Hiy'%elem_of_range HQ'.
      destruct (decide (iy' = iy)) as [->|Hne]; [exact HQnew|].
      intros ix Hix. rewrite Hf', Hg'.
      assert (Hout : forall k, 0 <= k < 3 ->
                ~ in_runs (offset s 0 1 iy) (nx_all s - 2) st (offset s k ix iy')).
      { intros k Hk (k2 & ix2 & Hk2 & Hx2 & Heq)%in_runs_row.
        apply offset_inj in Heq as (_ & _ & ?); lia. }
      rewrite !HoF, !HoG by (apply Hout; lia). apply HQ'. done.
  - exists s'. split; [exact Hs'|]. split; [exact Hse|].
    intros ix iy Hx Hy. unfold flux_of_v, cell.
    assert (Hp : params s' = params s) by apply Hse.
    rewrite !(offset_params s s') by done. simpl.
    apply HQ; [apply elem_of_range; lia|done].
Qed.
End HalfStepFlux.

Section CopyBack.
Context {real : Type} {RO : RealOps real}.
Implicit Types (s m : Central2D real).

Lemma copy_back_spec io s :
  wf s -> 0 <= io <= 1 ->
  exists s', copy_back io s = Ok s' /\ same_except [U] s s' /\
    (forall k j, 0 <= k < nfield -> 0 <= j < ny s * nx_all s ->
       at_ (u_ s') (offset s k nghost nghost + j) =
       at_ (v_ s) (offset s k (nghost - io) (nghost - io) + j)) /\
    (forall i, (forall k, 0 <= k < nfield ->
                  ~ (offset s k nghost nghost <= i
                     < offset s k nghost nghost + ny s * nx_all s)) ->
       at_ (u_ s') i = at_ (u_ s) i).
Proof.
  intros Hwf Hio. unfold copy_back.
  pose proof (wf_nx_all s Hwf) as Hxa. pose proof (wf_ny_all s Hwf) as Hya.
  pose proof (wf_nx s Hwf) as Hnx. pose proof (wf_ny s Hwf) as Hny.
  set (n := ny s * nx_all s).
  set (dst := fun k => offset s k nghost nghost).
  set (src := fun k => offset s k (nghost - io) (nghost - io)).
  assert (Hdst : forall k, dst k = k * (ny_all s * nx_all s) + (3 * nx_all s + 3))
    by (intros k; unfold dst, offset, nghost; ring).
  assert (Hsrc : forall k, src k = k * (ny_all s * nx_all s) + ((3 - io) * nx_all s + 3 - io))
    by (intros k; unfold src, offset, nghost; ring).
  assert (Hn : 0 <= n /\ n + 6 * nx_all s = ny_all s * nx_all s)
    by (unfold n, nghost in *; nia).
  destruct (forM_inv
    (fun m => same_except [U] s m /\
       forall i, (forall k, 0 <= k < nfield -> ~ (dst k <= i < dst k + n)) ->
         at_ (u_ m) i = at_ (u_ s) i)
    (fun k m => forall j, 0 <= j < n -> at_ (u_ m) (dst k + j) = at_ (v_ s) (src k + j))
    (range 0 nfield)
    (fun k m => u ← copy (v_ m) (src k) n (u_ m) (dst k); Ok (set_vec U u m)) s)
    as (s' & Hs' & [Hse Hout] & Hin).
  - split; [apply same_except_refl|done].
  - intros k m Hk%elem_of_range [Hse Hout].
    assert (Hv : v_ m = v_ s) by (destruct Hse as (_ & Hv & _); apply (Hv V); vec_notin).
    assert (HlU : Z.of_nat (length (u_ m)) = nfield * nx_all s * ny_all s).
    { destruct Hse as (_ & _ & Hl). specialize (Hl U). simpl in Hl.
      rewrite Hl. apply (wf_len s Hwf U). }
    pose proof (wf_len s Hwf V) as HlV. simpl in HlV.
    unfold nfield, Shallow2D.nfield, nghost in *.
    destruct (copy_spec (v_ m) (src k) n (u_ m) (dst k)) as (u' & Hcopy & Hlen & Hcin & Hcout);
      [rewrite ?Hv, ?Hsrc, ?Hdst, ?HlU, ?HlV; nia..|].
    cbv beta. rewrite Hcopy. rewrite Hv in Hcin. simpl. eexists. split; [reflexivity|].
    assert (Hu' : u_ (set_vec U u' m) = u') by (by destruct m).
    rewrite Hu'. split; [split|split].
    + apply same_except_set; [done|vec_in|]. rewrite Hlen.
      destruct Hse as (_ & _ & Hl). apply (Hl U).
    + intros i Hi. rewrite Hcout; [by apply Hout|]. apply Hi. lia.
    + exact Hcin.
    + intros k' Hk'%elem_of_range HQ j Hj.
      destruct (decide (k' = k)) as [->|Hne]; [by apply Hcin|].
      rewrite Hcout; [by apply HQ|]. rewrite !Hdst. nia.
  - exists s'. split; [exact Hs'|]. split; [exact Hse|]. split.
    + intros k j Hk Hj. apply (Hin k); [apply elem_of_range; lia|done].
    + exact Hout.
Qed.
End CopyBack.

Section ComputeStep.
Context {real : Type} {RO : RealOps real}.
Implicit Types (s m : Central2D real).

Lemma same_except_vec ws s m n :
  same_except ws s m -> n ∉ ws -> vec n m = vec n s.
Proof. intros (_ & Hv & _) Hn. by apply Hv. Qed.

Lemma same_except_params ws s m : same_except ws s m -> params m = params s.
Proof. by intros (Hp & _). Qed.

Lemma params_nx_all s m : params m = params s -> nx_all m = nx_all s.
Proof. unfold params. by intros [= _ _ -> _ _ _ _]. Qed.

Lemma cell_same_params n s s' k ix iy :
  params s' = params s -> cell n s' k ix iy = at_ (vec n s') (offset s k ix iy).
Proof. intros Hp. unfold cell. by rewrite (offset_params s s'). Qed.

(** The phases of [compute_step] and the solver between them. *)
Lemma compute_step_phases io dt s s' :
  wf s -> 0 <= io <= 1 -> compute_step io dt s = Ok s' ->
  exists dtcdx2 dtcdy2 s1 s2 s3,
    rdiv (rlit (1 # 2) *! dt) (dx s) = Some dtcdx2 /\
    rdiv (rlit (1 # 2) *! dt) (dy s) = Some dtcdy2 /\
    predictor dtcdx2 dtcdy2 s = Ok s1 /\ same_except [V] s s1 /\
    half_step_flux s1 = Ok s2 /\ same_except [F; G] s1 s2 /\
    corrector io dtcdx2 dtcdy2 s2 = Ok s3 /\ same_except [V] s2 s3 /\
    copy_back io s3 = Ok s' /\ same_except [U] s3 s' /\
    wf s1 /\ wf s2 /\ wf s3.
Proof.
  intros Hwf Hio. unfold compute_step.
  intros (a & Ha & (b & Hb & (s1 & H1 & (s2 & H2 & (s3 & H3 & H4)%bind_Ok)%bind_Ok)%bind_Ok)%bind_Ok)%bind_Ok.
  destruct (rdiv (rlit (1 # 2) *! dt) (dx s)) as [a'|] eqn:Ea; [|discriminate].
  destruct (rdiv (rlit (1 # 2) *! dt) (dy s)) as [b'|] eqn:Eb; [|discriminate].
  injection Ha as ->. injection Hb as ->.
  destruct (predictor_spec a b s Hwf) as (s1' & H1' & Hse1 & _).
  rewrite H1 in H1'. injection H1' as <-.
  assert (Hwf1 : wf s1) by (eapply same_except_wf; eauto).
  destruct (half_step_flux_spec s1 Hwf1) as (s2' & H2' & Hse2 & _).
  { eapply half_step_flux_Ok_defined. exact H2. }
  rewrite H2 in H2'. injection H2' as <-.
  assert (Hwf2 : wf s2) by (eapply same_except_wf; eauto).
  destruct (corrector_spec io a b s2 Hwf2 Hio) as (s3' & H3' & Hse3 & _).
  rewrite H3 in H3'. injection H3' as <-.
  assert (Hwf3 : wf s3) by (eapply same_except_wf; eauto).
  destruct (copy_back_spec io s3 Hwf3 Hio) as (s4 & H4' & Hse4 & _).
  rewrite H4 in H4'. injection H4' as <-.
  exists a, b, s1, s2, s3. split_and!; done.
Qed.
(** The corrector's value in terms of cells. *)
Lemma corrected_cells dtcdx2 dtcdy2 s s2 k ix iy :
  params s2 = params s -> u_ s2 = u_ s -> ux_ s2 = ux_ s -> uy_ s2 = uy_ s ->
  corrected dtcdx2 dtcdy2 s2 (offset s k ix iy)
  = corrector_value dtcdx2 dtcdy2 s s2 k ix iy.
Proof.
  intros Hp HU HUX HUY. unfold corrected, corrector_value, cell.
  rewrite !(offset_params s s2) by done.
  rewrite !offset_north_east, !offset_north, !offset_east.
  rewrite (params_nx_all _ _ Hp). simpl. rewrite HU, HUX, HUY. reflexivity.
Qed.

(** What a completed half-step leaves: the corrector's values in the
    window of [v], and in [u] the run of [v] that the copy back has
    moved. *)
Lemma compute_step_result io dt s s' :
  wf s -> 0 <= io <= 1 -> compute_step io dt s = Ok s' ->
  exists dtcdx2 dtcdy2 s1 s2 s3,
    rdiv (rlit (1 # 2) *! dt) (dx s) = Some dtcdx2 /\
    rdiv (rlit (1 # 2) *! dt) (dy s) = Some dtcdy2 /\
    predictor dtcdx2 dtcdy2 s = Ok s1 /\ half_step_flux s1 = Ok s2 /\
    corrector io dtcdx2 dtcdy2 s2 = Ok s3 /\ copy_back io s3 = Ok s' /\
    same_except [U] s3 s' /\ params s3 = params s /\ wf s3 /\ wf s' /\
    (forall k ix iy, 0 <= k < nfield ->
       nghost - io <= ix < nx s + nghost - io ->
       nghost - io <= iy < ny s + nghost - io ->
       cell V s3 k ix iy = corrector_value dtcdx2 dtcdy2 s s2 k ix iy) /\
    (forall k i j, 0 <= k < nfield ->
       0 <= j * nx_all s + i < ny s * nx_all s ->
       cell U s' k (nghost + i) (nghost + j) =
       cell V s3 k (nghost - io + i) (nghost - io + j)) /\
    (forall i, (forall k, 0 <= k < nfield ->
                  ~ (offset s k nghost nghost <= i
                     < offset s k nghost nghost + ny s * nx_all s)) ->
       at_ (u_ s') i = at_ (u_ s) i).
Proof.
  intros Hwf Hio Hstep.
  destruct (compute_step_phases io dt s s' Hwf Hio Hstep)
    as (a & b & s1 & s2 & s3 & Ha & Hb & H1 & Hse1 & H2 & Hse2 & H3 & Hse3 & H4
        & _ & _ & Hwf2 & Hwf3).
  destruct (corrector_spec io a b s2 Hwf2 Hio) as (s3' & H3' & _ & Hcorr & _).
  rewrite H3 in H3'. injection H3' as <-.
  destruct (copy_back_spec io s3 Hwf3 Hio) as (s4 & H4' & Hse4 & Hcopy & Hout).
  rewrite H4 in H4'. injection H4' as <-.
  pose proof (same_except_params _ _ _ Hse1) as Hp1.
  pose proof (same_except_params _ _ _ Hse2) as Hp2.
  pose proof (same_except_params _ _ _ Hse3) as Hp3.
  pose proof (same_except_params _ _ _ Hse4) as Hp4.
  assert (Hp2' : params s2 = params s) by congruence.
  assert (Hp3' : params s3 = params s) by congruence.
  assert (Hp' : params s' = params s) by congruence.
  assert (Hg : nx s2 = nx s /\ ny s2 = ny s /\ nx s3 = nx s /\ ny s3 = ny s /\
               nx_all s3 = nx_all s).
  { unfold params in Hp2', Hp3'.
    injection Hp2' as -> -> _ _ _ _ _. injection Hp3' as -> -> -> _ _ _ _. done. }
  destruct Hg as (Hnx2 & Hny2 & Hnx & Hny & Hnxa).
  assert (Hkeep : forall n, n <> V -> n <> F -> n <> G -> vec n s3 = vec n s).
  { intros n HV HF HG.
    rewrite (same_except_vec _ _ _ n Hse3), (same_except_vec _ _ _ n Hse2),
      (same_except_vec _ _ _ n Hse1); [done|..];
      repeat (intros [->|Hin]%elem_of_cons; [done|revert Hin]);
      by intros ?%elem_of_nil. }
  assert (Hkeep2 : forall n, n <> V -> n <> F -> n <> G -> vec n s2 = vec n s).
  { intros n HV HF HG.
    rewrite (same_except_vec _ _ _ n Hse2), (same_except_vec _ _ _ n Hse1); [done|..];
      repeat (intros [->|Hin]%elem_of_cons; [done|revert Hin]);
      by intros ?%elem_of_nil. }
  exists a, b, s1, s2, s3. split_and!; try done.
  - eapply same_except_wf; eauto.
  - intros k ix iy Hk Hx Hy. rewrite (cell_same_params V s s3) by done.
    change (vec V s3) with (v_ s3).
    rewrite <- (offset_params s s2) by done.
    rewrite Hcorr by (rewrite ?Hnx2, ?Hny2; done).
    rewrite (offset_params s s2) by done.
    apply corrected_cells; [done|apply (Hkeep2 U)|apply (Hkeep2 UX)|apply (Hkeep2 UY)];
      done.
  - intros k i j Hk Hij. unfold cell. rewrite (offset_params s s') by done.
    rewrite (offset_params s s3) by done. simpl.
    specialize (Hcopy k (j * nx_all s + i) Hk). rewrite Hny, Hnxa in Hcopy.
    specialize (Hcopy Hij). rewrite !(offset_params s s3) in Hcopy by done.
    replace (offset s k (nghost + i) (nghost + j))
      with (offset s k nghost nghost + (j * nx_all s + i)) by (unfold offset; ring).
    replace (offset s k (nghost - io + i) (nghost - io + j))
      with (offset s k (nghost - io) (nghost - io) + (j * nx_all s + i))
      by (unfold offset; ring).
    exact Hcopy.
  - intros i Hi. rewrite Hout.
    + change (at_ (vec U s3) i = at_ (vec U s) i). by rewrite (Hkeep U).
    + intros k Hk. rewrite (offset_params s s3), Hny, Hnxa by done. by apply Hi.
Qed.
(** After a half-step of parity [io] the accessor reads, at the interior
    cell [(i, j)], the corrector's value for the stencil whose first cell
    is [(nghost - io + i, nghost - io + j)]. *)
Lemma compute_step_get io dt s s' :
  wf s -> 0 <= io <= 1 -> compute_step io dt s = Ok s' ->
  exists dtcdx2 dtcdy2 s1 s2,
    rdiv (rlit (1 # 2) *! dt) (dx s) = Some dtcdx2 /\
    rdiv (rlit (1 # 2) *! dt) (dy s) = Some dtcdy2 /\
    predictor dtcdx2 dtcdy2 s = Ok s1 /\ half_step_flux s1 = Ok s2 /\
    wf s' /\ params s' = params s /\
    forall k i j, 0 <= k < nfield -> 0 <= i < nx s -> 0 <= j < ny s ->
      get s' k i j =
      Ok (corrector_value dtcdx2 dtcdy2 s s2 k (nghost - io + i) (nghost - io + j)).
Proof.
  intros Hwf Hio Hstep.
  destruct (compute_step_result io dt s s' Hwf Hio Hstep)
    as (a & b & s1 & s2 & s3 & Ha & Hb & H1 & H2 & _ & _ & Hse4 & Hp3 & _ & Hwf'
        & Hcorr & Hcopy & _).
  pose proof (same_except_params _ _ _ Hse4) as Hp4.
  assert (Hp' : params s' = params s) by congruence.
  assert (Hg : nx s' = nx s /\ ny s' = ny s).
  { unfold params in Hp'. injection Hp' as -> -> _ _ _ _ _. done. }
  destruct Hg as [Hnx Hny].
  pose proof (wf_nx_all s Hwf) as Hxa.
  exists a, b, s1, s2. split_and!; try done.
  intros k i j Hk Hi Hj. unfold get. rewrite load_Ok.
  - f_equal. rewrite <- Hcorr by (done || lia).
    rewrite <- Hcopy; [|done|unfold nghost in *; nia].
    unfold cell. simpl. do 2 f_equal; ring.
  - rewrite (wf_len s' Hwf' U). apply offset_bounds; try done.
    + pose proof (wf_nx_all s' Hwf'). pose proof (wf_nx s' Hwf').
      unfold nghost in *. lia.
    + pose proof (wf_ny_all s' Hwf'). pose proof (wf_ny s' Hwf').
      unfold nghost in *. lia.
Qed.
End ComputeStep.

(** * Facts of exact rational arithmetic *)

Section QArithmetic.
Local Open Scope Q_scope.
Implicit Types (x y z : Q).

Lemma Q_radd x y : x +! y == x + y.
Proof. simpl. apply Qred_correct. Qed.

Lemma Q_rsub x y : x -! y == x - y.
Proof. simpl. apply Qred_correct. Qed.

Lemma Q_rmul x y : x *! y == x * y.
Proof. simpl. apply Qred_correct. Qed.

Lemma Q_rlit x : rlit x == x.
Proof. simpl. apply Qred_correct. Qed.

Lemma Q_rdiv_Some x y z : rdiv x y = Some z -> ~ y == 0 /\ z == x / y.
Proof.
  simpl. destruct (Qeq_bool y 0) eqn:E; [discriminate|].
  intros [= <-]. split; [|apply Qred_correct].
  intros H. apply Qeq_bool_iff in H. congruence.
Qed.

Lemma Q_rdiv_defined x y : ~ y == 0 -> is_Some (rdiv x y).
Proof.
  intros Hy. simpl. destruct (Qeq_bool y 0) eqn:E; [|by eexists].
  apply Qeq_bool_iff in E. contradiction.
Qed.

Lemma Q_rdiv_zero x y : y == 0 -> rdiv x y = None.
Proof. intros Hy. simpl. apply Qeq_bool_iff in Hy. by rewrite Hy. Qed.

Lemma Q_rlt x y : (x <! y) = true <-> x < y.
Proof.
  simpl. rewrite negb_true_iff. split.
  - intros H. apply Qnot_le_lt. intros Hle. apply Qle_bool_iff in Hle. congruence.
  - intros H. destruct (Qle_bool y x) eqn:E; [|done].
    apply Qle_bool_iff in E. apply Qle_not_lt in E. contradiction.
Qed.

Lemma Q_rge x y : (x >=! y) = true <-> y <= x.
Proof. simpl. apply Qle_bool_iff. Qed.

Lemma Q_std_max x y : std_max x y == Qmax x y.
Proof.
  unfold std_max. destruct (x <! y) eqn:E.
  - apply Q_rlt in E. symmetry. apply Q.max_r. by apply Qlt_le_weak.
  - symmetry. apply Q.max_l. apply Qnot_lt_le. intros H. apply Q_rlt in H. congruence.
Qed.

Lemma Q_std_max_le x y : x <= std_max x y.
Proof. rewrite Q_std_max. apply Q.le_max_l. Qed.

Lemma Q_rsqrt_defined x : 0 <= x -> is_Some (rsqrt x).
Proof. intros Hx. simpl. apply Qle_bool_iff in Hx. rewrite Hx. by eexists. Qed.
End QArithmetic.

(** * Faults in loops; the [const] members are never assigned *)

Lemma forM_some_fault {S T : Type} (l : list T) (body : T -> S -> result S) (s : S) :
  (exists t, t ∈ l /\ forall s, exists e, body t s = Fault e) ->
  exists e, forM l body s = Fault e.
Proof.
  intros (t & Ht & Hf). revert s. induction l as [|t' l IH]; intros s.
  - by apply elem_of_nil in Ht.
  - simpl. apply elem_of_cons in Ht as [<-|Ht].
    + destruct (Hf s) as [e ->]. by exists e.
    + destruct (body t' s) as [s'|e]; simpl; [by apply IH|by exists e].
Qed.

Lemma forM_fault {S T : Type} (I : S -> Prop) (e : fault)
    (l : list T) (body : T -> S -> result S) (s : S) :
  I s ->
  (forall t s, t ∈ l -> I s ->
     (exists s', body t s = Ok s' /\ I s') \/ body t s = Fault e) ->
  (exists t, t ∈ l /\ forall s, I s -> body t s = Fault e) ->
  forM l body s = Fault e.
Proof.
  intros HI Hb (t & Ht & Hf). revert s HI.
  induction l as [|t' l IH]; intros s HI.
  - by apply elem_of_nil in Ht.
  - simpl. destruct (Hb t' s) as [(s' & Hs' & HI')| ->]; [constructor|done| |done].
    apply elem_of_cons in Ht as [->|Ht].
    + rewrite Hf in Hs' by done. discriminate.
    + rewrite Hs'. simpl. apply IH; try done.
      intros t2 s2 Ht2. apply Hb. by constructor.
Qed.

Section Params.
Context {real : Type} {RO : RealOps real}.
Variable limdiff : real -> real -> real -> real.
Implicit Types (s m : Central2D real).

Lemma store_params n i x m m' : store n i x m = Ok m' -> params m' = params m.
Proof. intros [_ ->]%store_Ok_inv. apply params_set_vec. Qed.

Lemma wrap_cell_params s k ix iy m m' :
  wrap_cell s k ix iy m = Ok m' -> params m' = params m.
Proof.
  unfold wrap_cell. intros (i & _ & (x & _ & H)%bind_Ok)%bind_Ok.
  by apply store_params in H.
Qed.

Lemma apply_periodic_params s s' :
  apply_periodic s = Ok s' -> params s' = params s.
Proof.
  unfold apply_periodic.
  apply (forM_preserve (fun m => params m = params s)); [|done].
  intros k m m' _ Hm (m1 & H1 & H2)%bind_Ok.
  assert (Hm1 : params m1 = params s).
  { revert H1. apply (forM_preserve (fun m => params m = params s)); [|done].
    intros iy m2 m3 _ Hm2. apply (forM_preserve (fun m => params m = params s)); [|done].
    intros ix m4 m5 _ Hm4 (m6 & H6 & H7)%bind_Ok.
    apply wrap_cell_params in H6, H7. congruence. }
  revert H2. apply (forM_preserve (fun m => params m = params s)); [|done].
  intros iy m2 m3 _ Hm2. apply (forM_preserve (fun m => params m = params s)); [|done].
  intros ix m4 m5 _ Hm4 (m6 & H6 & H7)%bind_Ok.
  apply wrap_cell_params in H6, H7. congruence.
Qed.

Lemma compute_fg_speeds_params s s' cxy :
  compute_fg_speeds s = Ok (s', cxy) -> params s' = params s.
Proof.
  unfold compute_fg_speeds.
  intros ([f g] & _ & (c & _ & [= <- _])%bind_Ok)%bind_Ok.
  by rewrite !params_set_vec.
Qed.

Lemma limited_derivs_params s s' :
  limited_derivs limdiff s = Ok s' -> params s' = params s.
Proof.
  unfold limited_derivs.
  apply (forM_preserve (fun m => params m = params s)); [|done].
  intros i m m' _ Hm. unfold limited_derivs_at.
  intros (? & _ & (? & _ & (? & _ & (m1 & H1 &
          (? & _ & (? & _ & (? & _ & (m2 & H2 &
          (? & _ & (? & _ & (? & _ & (m3 & H3 &
          (? & _ & (? & _ & (? & _ & H4)%bind_Ok)%bind_Ok)%bind_Ok
          )%bind_Ok)%bind_Ok)%bind_Ok)%bind_Ok
          )%bind_Ok)%bind_Ok)%bind_Ok)%bind_Ok
          )%bind_Ok)%bind_Ok)%bind_Ok)%bind_Ok.
  apply store_params in H1, H2, H3, H4. congruence.
Qed.
End Params.

(** * Wave speeds and fluxes in exact arithmetic *)

Ltac run_ok := cbn [mbind result_bind lift].

Section WaveSpeed.
Local Open Scope Q_scope.
Implicit Types (U : list Q) (s : Central2D Q).

(** The running maxima never decrease. *)
Lemma wave_speed_ge (cxy : Q * Q) U (pu ncell st : Z) (c : Q * Q) :
  Shallow2D.wave_speed cxy U pu ncell st = Ok c ->
  cxy.1 <= c.1 /\ cxy.2 <= c.2.
Proof.
  unfold Shallow2D.wave_speed.
  apply (forM_preserve (fun c : Q * Q => cxy.1 <= c.1 /\ cxy.2 <= c.2)).
  - intros i [cx cy] c' _ [Hx Hy]. unfold Shallow2D.wave_speed_cell.
    intros (hi & _ & (hui & _ & (hvi & _ & (r & _ & (qx & _ & (qy & _ & [= <-]
           )%bind_Ok)%bind_Ok)%bind_Ok)%bind_Ok)%bind_Ok)%bind_Ok.
    simpl in *. split.
    + eapply Qle_trans; [exact Hx|apply Q_std_max_le].
    + eapply Qle_trans; [exact Hy|apply Q_std_max_le].
  - split; apply Qle_refl.
Qed.

Lemma compute_fg_speeds_floor s s' (cx cy : Q) :
  compute_fg_speeds s = Ok (s', (cx, cy)) ->
  (1 # 1000000000000000) <= cx /\ (1 # 1000000000000000) <= cy.
Proof.
  unfold compute_fg_speeds.
  intros ([f g] & _ & (c & Hw & [= _ ->])%bind_Ok)%bind_Ok.
  apply wave_speed_ge in Hw. simpl in Hw. exact Hw.
Qed.

Lemma g_positive : 0 < (Shallow2D.g : Q).
Proof. reflexivity. Qed.

Lemma wave_speed_defined (cxy : Q * Q) U (pu ncell st : Z) :
  (0 <= ncell)%Z -> (0 <= st)%Z -> (0 <= pu)%Z ->
  (pu + 2 * st + ncell <= Z.of_nat (length U))%Z ->
  (forall i, (0 <= i < ncell)%Z -> 0 < at_ U (pu + i)) ->
  exists c, Shallow2D.wave_speed cxy U pu ncell st = Ok c.
Proof.
  intros Hn Hst Hpu HU Hpos. unfold Shallow2D.wave_speed.
  destruct (forM_inv (fun _ : Q * Q => True) (fun _ _ => True) (range 0 ncell)
              (Shallow2D.wave_speed_cell U pu (pu + st) (pu + 2 * st)) cxy)
    as (c & Hc & _); [done| |by exists c].
  intros i [cx cy] Hi%elem_of_range _. unfold Shallow2D.wave_speed_cell.
  rewrite !rd_Ok by lia. cbn [mbind result_bind lift].
  specialize (Hpos i Hi).
  destruct (Q_rsqrt_defined (Shallow2D.g *! at_ U (pu + i))) as [r Hr].
  { rewrite Q_rmul. apply Qmult_le_0_compat; apply Qlt_le_weak; [apply g_positive|done]. }
  rewrite Hr. cbn [mbind result_bind lift].
  destruct (Q_rdiv_defined (at_ U (pu + st + i)) (at_ U (pu + i))) as [qx Hqx].
  { intros H0. rewrite H0 in Hpos. by apply Qlt_irrefl in Hpos. }
  destruct (Q_rdiv_defined (at_ U (pu + 2 * st + i)) (at_ U (pu + i))) as [qy Hqy].
  { intros H0. rewrite H0 in Hpos. by apply Qlt_irrefl in Hpos. }
  rewrite Hqx, Hqy. simpl. eexists. split; [reflexivity|]. done.
Qed.

Lemma wave_speed_zero (cxy : Q * Q) U (pu ncell st : Z) :
  (0 <= ncell)%Z -> (0 <= st)%Z -> (0 <= pu)%Z ->
  (pu + 2 * st + ncell <= Z.of_nat (length U))%Z ->
  (exists i, (0 <= i < ncell)%Z /\ at_ U (pu + i) == 0) ->
  exists e, Shallow2D.wave_speed cxy U pu ncell st = Fault e.
Proof.
  intros Hn Hst Hpu HU (i & Hi & Hz). unfold Shallow2D.wave_speed.
  apply forM_some_fault. exists i. split; [apply elem_of_range; lia|].
  intros [cx cy]. unfold Shallow2D.wave_speed_cell.
  rewrite !rd_Ok by lia. cbn [mbind result_bind lift].
  destruct (rsqrt (Shallow2D.g *! at_ U (pu + i))) as [r|]; cbn [mbind result_bind lift]; [|eexists; reflexivity].
  rewrite !Q_rdiv_zero by done. eexists. reflexivity.
Qed.

Lemma flux_zero FU GU U (pf pg pu ncell st : Z) :
  (0 <= ncell <= st)%Z ->
  (0 <= pf)%Z -> (pf + 2 * st + ncell <= Z.of_nat (length FU))%Z ->
  (0 <= pg)%Z -> (pg + 2 * st + ncell <= Z.of_nat (length GU))%Z ->
  (0 <= pu)%Z -> (pu + 2 * st + ncell <= Z.of_nat (length U))%Z ->
  (exists i, (0 <= i < ncell)%Z /\ at_ U (pu + i) == 0) ->
  Shallow2D.flux FU GU U pf pg pu ncell st = Fault DivByZero.
Proof.
  intros Hn Hpf HFU Hpg HGU Hpu HU (i & Hi & Hz). unfold Shallow2D.flux.
  destruct (copy_spec U (pu + st) ncell FU pf) as (F1 & -> & HF1len & _); try lia.
  cbn [mbind result_bind lift].
  destruct (copy_spec U (pu + 2 * st) ncell GU pg) as (G1 & -> & HG1len & _); try lia.
  cbn [mbind result_bind lift].
  apply (forM_fault (fun FG : list Q * list Q =>
                       length FG.1 = length FU /\ length FG.2 = length GU)).
  - done.
  - intros j [FU1 GU1] Hj%elem_of_range [HlF HlG]. cbn [fst snd] in *.
    unfold Shallow2D.flux_cell. rewrite !rd_Ok by lia. cbn [mbind result_bind lift].
    destruct (rdiv (rlit 1) (at_ U (pu + j))) as [inv|]; cbn [mbind result_bind lift]; [left|right; reflexivity].
    rewrite wr_Ok by lia. cbn [mbind result_bind lift].
    rewrite wr_Ok by (rewrite length_insert; lia). cbn [mbind result_bind lift].
    rewrite wr_Ok by lia. cbn [mbind result_bind lift].
    rewrite wr_Ok by (rewrite length_insert; lia). cbn [mbind result_bind lift].
    eexists. split; [reflexivity|]. simpl. by rewrite !length_insert.
  - exists i. split; [apply elem_of_range; lia|].
    intros [FU1 GU1] [HlF HlG]. unfold Shallow2D.flux_cell.
    rewrite !rd_Ok by lia. cbn [mbind result_bind lift]. rewrite Q_rdiv_zero by done. reflexivity.
Qed.

(** C10, in exact arithmetic.  [flux] and [wave_speed] divide by the
    height of every cell of the run they are given, without a test: for a
    run inside the vectors, if every height of the run is positive then
    both return normally (no division by zero, no square root of a
    negative number); if some height of the run is zero, [flux] stops on a
    division by zero and [wave_speed] faults too. *)
Theorem shallow2d_defined_on_positive_height
    FU GU U (pf pg pu ncell st : Z) (cxy : Q * Q) :
  (0 <= ncell <= st)%Z ->
  (0 <= pf)%Z -> (pf + 2 * st + ncell <= Z.of_nat (length FU))%Z ->
  (0 <= pg)%Z -> (pg + 2 * st + ncell <= Z.of_nat (length GU))%Z ->
  (0 <= pu)%Z -> (pu + 2 * st + ncell <= Z.of_nat (length U))%Z ->
  ((forall i, (0 <= i < ncell)%Z -> 0 < at_ U (pu + i)) ->
     (exists FG, Shallow2D.flux FU GU U pf pg pu ncell st = Ok FG) /\
     (exists c, Shallow2D.wave_speed cxy U pu ncell st = Ok c)) /\
  ((exists i, (0 <= i < ncell)%Z /\ at_ U (pu + i) == 0) ->
     Shallow2D.flux FU GU U pf pg pu ncell st = Fault DivByZero /\
     (exists e, Shallow2D.wave_speed cxy U pu ncell st = Fault e)).
Proof.
  intros Hn Hpf HFU Hpg HGU Hpu HU. split.
  - intros Hpos. split.
    + destruct (flux_spec FU GU U pf pg pu ncell st) as (FU' & GU' & Hf & _); try done.
      * intros i Hi. apply Q_rdiv_defined. intros H0.
        specialize (Hpos i Hi). rewrite H0 in Hpos. by apply Qlt_irrefl in Hpos.
      * by eexists.
    + apply wave_speed_defined; try done; lia.
  - intros Hz. split.
    + by apply flux_zero.
    + apply wave_speed_zero; try done; lia.
Qed.
End WaveSpeed.

(** * The periodic wrap *)

Section Covering.
Context {S C : Type} (I : S -> Prop) (R : C -> S -> Prop).

Lemma covers_seq (b1 b2 : S -> result S) (cov1 cov2 : C -> Prop) :
  covers I R b1 cov1 -> covers I R b2 cov2 ->
  covers I R (fun m => m ← b1 m; b2 m) (fun c => cov1 c \/ cov2 c).
Proof.
  intros H1 H2 m Hm.
  destruct (H1 m Hm) as (m1 & E1 & I1 & K1 & C1).
  destruct (H2 m1 I1) as (m2 & E2 & I2 & K2 & C2).
  exists m2. rewrite E1. simpl. split_and!; auto.
  intros c [Hc|Hc]; auto.
Qed.

Lemma covers_forM {T : Type} (l : list T) (body : T -> S -> result S)
    (cov : T -> C -> Prop) :
  (forall t, t ∈ l -> covers I R (body t) (cov t)) ->
  covers I R (forM l body) (fun c => exists t, t ∈ l /\ cov t c).
Proof.
  induction l as [|t l IH]; intros Hb m Hm.
  - exists m. simpl. split_and!; auto.
    intros c (t & Ht & _). by apply elem_of_nil in Ht.
  - destruct (Hb t ltac:(constructor) m Hm) as (m1 & E1 & I1 & K1 & C1).
    destruct (IH (fun t' Ht' => Hb t' ltac:(by constructor)) m1 I1)
      as (m2 & E2 & I2 & K2 & C2).
    exists m2. simpl. rewrite E1. simpl. split_and!; auto.
    intros c (t' & [->|Ht']%elem_of_cons & Hc); eauto.
Qed.

Lemma covers_weaken (b : S -> result S) (cov cov' : C -> Prop) :
  covers I R b cov -> (forall c, cov' c -> cov c) -> covers I R b cov'.
Proof.
  intros Hb Hsub m Hm. destruct (Hb m Hm) as (m' & E & I' & K & Cv).
  exists m'. split_and!; auto.
Qed.
End Covering.

Section Periodic.
Context {real : Type} {RO : RealOps real}.
Implicit Types (s m : Central2D real).

Lemma canonical_range (N c : Z) :
  0 < N -> nghost <= canonical N c < N + nghost.
Proof.
  intros HN. unfold canonical. pose proof (Z.mod_pos_bound (c - nghost + N) N HN). lia.
Qed.

Lemma canonical_interior (N c : Z) :
  nghost <= c < N + nghost -> canonical N c = c.
Proof.
  intros Hc. unfold canonical.
  replace (c - nghost + N) with (c - nghost + 1 * N) by ring.
  rewrite Z.mod_add by lia. rewrite Z.mod_small by lia. ring.
Qed.

(** Where C++ [%] and the mathematical remainder agree. *)
Lemma cmod_canonical (N c : Z) :
  0 < N -> N <> 2 -> 0 <= c ->
  cmod (c + N - nghost) N = Ok (canonical N c - nghost).
Proof.
  intros HN H2 Hc. unfold cmod, canonical, nghost in *.
  destruct (Z.eqb_spec N 0); [lia|]. f_equal.
  replace (c - 3 + N) with (c + N - 3) by ring.
  destruct (decide (N = 1)) as [->|H1].
  - rewrite Z.rem_1_r, Z.mod_1_r. ring.
  - rewrite Z.rem_mod_nonneg by lia. ring.
Qed.

Lemma wrap_cell_covers s k ix iy :
  wf s -> nx s <> 2 -> ny s <> 2 ->
  0 <= k < nfield -> 0 <= ix < nx_all s -> 0 <= iy < ny_all s ->
  covers (interior_kept s) (periodic_at s) (wrap_cell s k ix iy)
    (fun c => c = (k, ix, iy)).
Proof.
  intros Hwf Hnx2 Hny2 Hk Hx Hy m [Hse Hint].
  pose proof (wf_nx s Hwf) as Hnx. pose proof (wf_ny s Hwf) as Hny.
  pose proof (wf_nx_all s Hwf) as Hxa. pose proof (wf_ny_all s Hwf) as Hya.
  pose proof (canonical_range (nx s) ix Hnx) as Hcx.
  pose proof (canonical_range (ny s) iy Hny) as Hcy.
  set (cx := canonical (nx s) ix) in *. set (cy := canonical (ny s) iy) in *.
  assert (Hlen : Z.of_nat (length (vec U m)) = nfield * nx_all s * ny_all s).
  { destruct Hse as (_ & _ & Hl). rewrite Hl. apply (wf_len s Hwf). }
  unfold wrap_cell, ioffset.
  rewrite !cmod_canonical by lia. simpl.
  replace (canonical (nx s) ix - nghost + nghost) with cx by (unfold cx; ring).
  replace (canonical (ny s) iy - nghost + nghost) with cy by (unfold cy; ring).
  assert (Hbc : 0 <= offset s k cx cy < nfield * nx_all s * ny_all s)
    by (unfold nghost in *; apply offset_bounds; [done|lia..]).
  assert (Hb : 0 <= offset s k ix iy < nfield * nx_all s * ny_all s)
    by (apply offset_bounds; done).
  rewrite load_Ok by lia. simpl. rewrite store_Ok by lia.
  eexists. split; [reflexivity|].
  assert (Hread : at_ (u_ m) (offset s k cx cy) = at_ (u_ s) (offset s k cx cy)).
  { specialize (Hint k cx cy Hcx Hcy). unfold periodic_at in Hint.
    rewrite Hint by (unfold nghost in *; lia).
    rewrite !canonical_interior by done. reflexivity. }
  assert (Hkeep : forall c, periodic_at s c m ->
            periodic_at s c
              (set_vec U (<[Z.to_nat (offset s k ix iy) := at_ (vec U m) (offset s k cx cy)]> (vec U m)) m)).
  { intros [[k' x'] y'] Hc Hk' Hx' Hy'.
    assert (Hu : forall a, u_ (set_vec U a m) = a) by (intros a; by destruct m).
    rewrite Hu. simpl.
    destruct (decide (offset s k ix iy = offset s k' x' y')) as [Heq|Hne].
    - rewrite <- Heq, at_insert_eq by (simpl in Hlen; lia).
      apply offset_inj in Heq as (<- & <- & <-); try done.
    - rewrite at_insert_ne by lia. by apply Hc. }
  split_and!.
  - split.
    + apply same_except_set; [done|vec_in|]. rewrite length_insert. apply Hse.
    + intros k' x' y' Hx' Hy'. apply Hkeep. by apply Hint.
  - exact Hkeep.
  - intros c ->. intros _ _ _.
    assert (Hu : forall a, u_ (set_vec U a m) = a) by (intros a; by destruct m).
    rewrite Hu. simpl. rewrite at_insert_eq by (simpl in Hlen; lia). exact Hread.
Qed.

(** On every grid with [nx] and [ny] other than 2, [apply_periodic] returns
    and leaves in every cell of [u] the initial value of its canonical
    interior cell; nothing else changes. *)
Lemma apply_periodic_spec s :
  wf s -> nx s <> 2 -> ny s <> 2 ->
  exists s', apply_periodic s = Ok s' /\ same_except [U] s s' /\
    forall k ix iy, 0 <= k < nfield -> 0 <= ix < nx_all s -> 0 <= iy < ny_all s ->
      cell U s' k ix iy = cell U s k (canonical (nx s) ix) (canonical (ny s) iy).
Proof.
  intros Hwf Hnx2 Hny2.
  pose proof (wf_nx s Hwf) as Hnx. pose proof (wf_ny s Hwf) as Hny.
  pose proof (wf_nx_all s Hwf) as Hxa. pose proof (wf_ny_all s Hwf) as Hya.
  assert (Hcov : covers (interior_kept s) (periodic_at s)
            (forM (range 0 nfield) (fun k m =>
               m ← forM (range 0 (ny_all s)) (fun iy =>
                      forM (range 0 nghost) (fun ix m =>
                        m ← wrap_cell s k ix iy m;
                        wrap_cell s k (nx s + nghost + ix) iy m)) m;
               forM (range 0 nghost) (fun iy =>
                 forM (range 0 (nx_all s)) (fun ix m =>
                   m ← wrap_cell s k ix iy m;
                   wrap_cell s k ix (ny s + nghost + iy) m)) m))
            (fun c => let '(k, ix, iy) := c in
               0 <= k < nfield /\ 0 <= ix < nx_all s /\ 0 <= iy < ny_all s /\
               ghost s ix iy)).
  { eapply covers_weaken.
    - apply covers_forM. intros k Hk%elem_of_range.
      apply covers_seq.
      + apply covers_forM. intros iy Hiy%elem_of_range.
        apply covers_forM. intros ix Hix%elem_of_range.
        apply covers_seq; apply wrap_cell_covers; try done; unfold nghost in *; lia.
      + apply covers_forM. intros iy Hiy%elem_of_range.
        apply covers_forM. intros ix Hix%elem_of_range.
        apply covers_seq; apply wrap_cell_covers; try done; unfold nghost in *; lia.
    - intros [[k ix] iy] (Hk & Hx & Hy & Hg). unfold ghost, nghost in *.
      exists k. split; [by apply elem_of_range|].
      destruct (decide (ix < 3)) as [Hl|Hl];
        [|destruct (decide (nx s + 3 <= ix)) as [Hr|Hr]].
      + left. exists iy. split; [apply elem_of_range; lia|].
        exists ix. split; [apply elem_of_range; lia|]. by left.
      + left. exists iy. split; [apply elem_of_range; lia|].
        exists (ix - nx s - 3). split; [apply elem_of_range; lia|].
        right. do 2 f_equal. lia.
      + right. destruct (decide (iy < 3)) as [Hb|Hb].
        * exists iy. split; [apply elem_of_range; lia|].
          exists ix. split; [apply elem_of_range; lia|]. by left.
        * exists (iy - ny s - 3). split; [apply elem_of_range; lia|].
          exists ix. split; [apply elem_of_range; lia|].
          right. f_equal. lia. }
  assert (HI : interior_kept s s).
  { split; [apply same_except_refl|].
    intros k ix iy Hx Hy _ _ _. rewrite !canonical_interior by done. reflexivity. }
  destruct (Hcov s HI) as (s' & Hs' & [Hse Hint] & _ & Hghost).
  exists s'. split; [exact Hs'|]. split; [exact Hse|].
  intros k ix iy Hk Hx Hy. unfold cell.
  rewrite (offset_params s s') by apply Hse. simpl.
  destruct (decide (nghost <= ix < nx s + nghost /\ nghost <= iy < ny s + nghost))
    as [[Hix Hiy]|Hg].
  - apply (Hint k ix iy); done.
  - apply (Hghost (k, ix, iy)); done.
Qed.
End Periodic.

Section SpeedsDefined.
Local Open Scope Q_scope.
Implicit Types (s : Central2D Q).

(** [compute_fg_speeds] runs [flux] and [wave_speed] over the whole padded
    grid: it returns when every height, ghost cells included, is positive,
    and stops on a division by zero when some height, possibly of a ghost
    cell, is zero. *)
Lemma compute_fg_speeds_defined s :
  wf s ->
  ((forall ix iy, (0 <= ix < nx_all s)%Z -> (0 <= iy < ny_all s)%Z ->
      0 < cell U s 0 ix iy) ->
   exists r, compute_fg_speeds s = Ok r) /\
  ((exists ix iy, (0 <= ix < nx_all s)%Z /\ (0 <= iy < ny_all s)%Z /\
      cell U s 0 ix iy == 0) ->
   compute_fg_speeds s = Fault DivByZero).
Proof.
  intros Hwf.
  pose proof (wf_nx s Hwf) as Hnx. pose proof (wf_ny s Hwf) as Hny.
  pose proof (wf_nx_all s Hwf) as Hxa. pose proof (wf_ny_all s Hwf) as Hya.
  pose proof (wf_len s Hwf U) as HlU. pose proof (wf_len s Hwf F) as HlF.
  pose proof (wf_len s Hwf G) as HlG. simpl in HlU, HlF, HlG.
  unfold nfield, Shallow2D.nfield, nghost in *.
  set (st := (nx_all s * ny_all s)%Z) in *.
  assert (Hst : (0 <= st)%Z) by (unfold st; nia).
  unfold compute_fg_speeds. fold st. split.
  - intros Hpos.
    assert (Hrun : forall i, (0 <= i < st)%Z -> 0 < at_ (u_ s) (0 + i)).
    { intros i Hi.
      replace (0 + i)%Z with (offset s 0 (i mod nx_all s) (i / nx_all s)).
      - apply Hpos.
        + apply Z.mod_pos_bound. lia.
        + split; [apply Z.div_pos; lia|]. apply Z.div_lt_upper_bound; [lia|].
          unfold st in Hi. lia.
      - unfold offset. pose proof (Z.div_mod i (nx_all s)). lia. }
    destruct (flux_spec (f_ s) (g_ s) (u_ s) 0 0 0 st st) as (f' & g' & Hf & _);
      try lia.
    { intros i Hi. apply Q_rdiv_defined. intros H0. specialize (Hrun i Hi).
      rewrite H0 in Hrun. by apply Qlt_irrefl in Hrun. }
    rewrite Hf. run_ok.
    assert (Hu : u_ (set_vec G g' (set_vec F f' s)) = u_ s) by (by destruct s).
    rewrite Hu.
    destruct (wave_speed_defined
                (rlit (1 # 1000000000000000), rlit (1 # 1000000000000000))
                (u_ s) 0 st st) as (c & Hc); try lia; [exact Hrun|].
    assert (Hg : forall a b, nx_all (set_vec G a (set_vec F b s)) = nx_all s
                          /\ ny_all (set_vec G a (set_vec F b s)) = ny_all s)
      by (intros a b; by destruct s).
    destruct (Hg g' f') as [-> ->]. fold st. rewrite Hc. run_ok. by eexists.
  - intros (ix & iy & Hx & Hy & Hz).
    rewrite (flux_zero (f_ s) (g_ s) (u_ s) 0 0 0 st st); try lia; [reflexivity|].
    exists (offset s 0 ix iy). split; [unfold offset, st; nia|exact Hz].
Qed.
End SpeedsDefined.

(** * The periodic wrap returns on every grid *)

Section PeriodicTotal.
Context {real : Type} {RO : RealOps real}.
Implicit Types (s m : Central2D real).

(** The wrapped coordinate stays inside the padded axis even when the
    dividend of [%] is negative. *)
Lemma rem_wrap_bounds (N c : Z) :
  0 < N -> 0 <= c -> - 2 <= Z.rem (c + N - nghost) N < N.
Proof.
  intros HN Hc. unfold nghost.
  destruct (Z.le_gt_cases 0 (c + N - 3)) as [Hd|Hd].
  - pose proof (Z.rem_bound_pos (c + N - 3) N Hd HN). lia.
  - pose proof (Z.rem_opp_l (- (c + N - 3)) N ltac:(lia)) as Ho.
    rewrite Z.opp_involutive in Ho.
    pose proof (Z.rem_le (- (c + N - 3)) N ltac:(lia) HN) as Hle.
    pose proof (Z.rem_bound_pos (- (c + N - 3)) N ltac:(lia) HN) as Hb.
    lia.
Qed.

(** An assignment [u(k,ix,iy) = uwrap(k,ix,iy)] to a ghost cell returns and
    keeps the interior. *)
Lemma wrap_cell_keeps s k ix iy :
  wf s -> 0 <= k < nfield -> 0 <= ix < nx_all s -> 0 <= iy < ny_all s ->
  ghost s ix iy ->
  covers (interior_kept s) (fun (_ : unit) (_ : Central2D real) => True)
    (wrap_cell s k ix iy) (fun _ => True).
Proof.
  intros Hwf Hk Hx Hy Hg m [Hse Hint].
  pose proof (wf_nx s Hwf) as Hnx. pose proof (wf_ny s Hwf) as Hny.
  pose proof (wf_nx_all s Hwf) as Hxa. pose proof (wf_ny_all s Hwf) as Hya.
  pose proof (rem_wrap_bounds (nx s) ix Hnx ltac:(lia)) as Hwx.
  pose proof (rem_wrap_bounds (ny s) iy Hny ltac:(lia)) as Hwy.
  assert (Hlen : Z.of_nat (length (vec U m)) = nfield * nx_all s * ny_all s).
  { destruct Hse as (_ & _ & Hl). rewrite Hl. apply (wf_len s Hwf). }
  unfold wrap_cell, ioffset, cmod.
  destruct (Z.eqb_spec (nx s) 0); [lia|]. destruct (Z.eqb_spec (ny s) 0); [lia|].
  simpl.
  set (wx := Z.rem (ix + nx s - nghost) (nx s)) in *.
  set (wy := Z.rem (iy + ny s - nghost) (ny s)) in *.
  assert (Hbc : 0 <= offset s k (wx + nghost) (wy + nghost)
                < nfield * nx_all s * ny_all s)
    by (unfold nghost in *; apply offset_bounds; [done|lia..]).
  assert (Hb : 0 <= offset s k ix iy < nfield * nx_all s * ny_all s)
    by (apply offset_bounds; done).
  rewrite load_Ok by lia. simpl. rewrite store_Ok by lia.
  eexists. split; [reflexivity|]. split_and!; try done.
  split.
  - apply same_except_set; [done|vec_in|]. rewrite length_insert. apply Hse.
  - intros k' x' y' Hx' Hy' Hk' Hx'' Hy''.
    assert (Hu : forall a, u_ (set_vec U a m) = a) by (intros a; by destruct m).
    rewrite Hu. rewrite at_insert_ne.
    + by apply (Hint k' x' y').
    + lia.
    + intros Heq. apply offset_inj in Heq as (<- & <- & <-); try done.
      by apply Hg.
Qed.

(** On every well-formed solver [apply_periodic] returns and keeps the
    interior. *)
Lemma apply_periodic_total s :
  wf s -> exists s', apply_periodic s = Ok s' /\ interior_kept s s'.
Proof.
  intros Hwf.
  pose proof (wf_nx s Hwf) as Hnx. pose proof (wf_ny s Hwf) as Hny.
  pose proof (wf_nx_all s Hwf) as Hxa. pose proof (wf_ny_all s Hwf) as Hya.
  assert (Hcov : covers (interior_kept s)
            (fun (_ : unit) (_ : Central2D real) => True)
            (forM (range 0 nfield) (fun k m =>
               m ← forM (range 0 (ny_all s)) (fun iy =>
                      forM (range 0 nghost) (fun ix m =>
                        m ← wrap_cell s k ix iy m;
                        wrap_cell s k (nx s + nghost + ix) iy m)) m;
               forM (range 0 nghost) (fun iy =>
                 forM (range 0 (nx_all s)) (fun ix m =>
                   m ← wrap_cell s k ix iy m;
                   wrap_cell s k ix (ny s + nghost + iy) m)) m))
            (fun _ => False)).
  { eapply covers_weaken.
    - apply covers_forM. intros k Hk%elem_of_range.
      apply covers_seq.
      + apply covers_forM. intros iy Hiy%elem_of_range.
        apply covers_forM. intros ix Hix%elem_of_range.
        apply covers_seq; apply wrap_cell_keeps; try done;
          unfold ghost, nghost in *; lia.
      + apply covers_forM. intros iy Hiy%elem_of_range.
        apply covers_forM. intros ix Hix%elem_of_range.
        apply covers_seq; apply wrap_cell_keeps; try done;
          unfold ghost, nghost in *; lia.
    - intros _ []. }
  assert (HI : interior_kept s s).
  { split; [apply same_except_refl|].
    intros k ix iy Hx Hy _ _ _. rewrite !canonical_interior by done. reflexivity. }
  destruct (Hcov s HI) as (s' & Hs' & Hkept & _ & _).
  by exists s'.
Qed.

(** [apply_periodic] is deterministic: what it returns keeps the
    interior cells of [u] and every other vector. *)
Lemma apply_periodic_interior s s' :
  wf s -> apply_periodic s = Ok s' ->
  same_except [U] s s' /\
  forall k ix iy, 0 <= k < nfield ->
    nghost <= ix < nx s + nghost -> nghost <= iy < ny s + nghost ->
    cell U s' k ix iy = cell U s k ix iy.
Proof.
  intros Hwf Hap.
  pose proof (wf_nx_all s Hwf) as Hxa. pose proof (wf_ny_all s Hwf) as Hya.
  destruct (apply_periodic_total s Hwf) as (s0 & Hs0 & Hse & Hint).
  rewrite Hap in Hs0. injection Hs0 as <-.
  split; [exact Hse|].
  intros k ix iy Hk Hx Hy. unfold cell.
  rewrite (offset_params s s') by apply Hse. simpl.
  specialize (Hint k ix iy Hx Hy). unfold periodic_at in Hint.
  rewrite Hint by (unfold nghost in *; lia).
  rewrite !canonical_interior by done. reflexivity.
Qed.
End PeriodicTotal.

(** * Diagnostics *)

Section Diagnostics.
Context {real : Type} {RO : RealOps real}.
Implicit Types (s : Central2D real).

Lemma fold_sums s (l : list (Z * Z)) (a : sums) :
  fold_left (fun (a : sums) ji =>
               mkSums (h_sum a +! cell U s 0 ji.2 ji.1)
                      (hu_sum a +! cell U s 1 ji.2 ji.1)
                      (hv_sum a +! cell U s 2 ji.2 ji.1)
                      (std_min (cell U s 0 ji.2 ji.1) (hmin a))
                      (std_max (cell U s 0 ji.2 ji.1) (hmax a))) l a =
  mkSums (fold_left (fun acc ji => acc +! cell U s 0 ji.2 ji.1) l (h_sum a))
         (fold_left (fun acc ji => acc +! cell U s 1 ji.2 ji.1) l (hu_sum a))
         (fold_left (fun acc ji => acc +! cell U s 2 ji.2 ji.1) l (hv_sum a))
         (fold_left (fun acc ji => std_min (cell U s 0 ji.2 ji.1) acc) l (hmin a))
         (fold_left (fun acc ji => std_max (cell U s 0 ji.2 ji.1) acc) l (hmax a)).
Proof.
  revert a. induction l as [|ji l IH]; intros a; simpl.
  - by destruct a.
  - rewrite IH. reflexivity.
Qed.

Lemma elem_of_interior_cells s ji :
  ji ∈ interior_cells s <->
  nghost <= ji.1 < ny s + nghost /\ nghost <= ji.2 < nx s + nghost.
Proof. unfold interior_cells. rewrite elem_of_list_prod, !elem_of_range. done. Qed.


End Diagnostics.

(** * The time loop *)

Section Run.
Context {real : Type} {RO : RealOps real}.
Variable limdiff : real -> real -> real -> real.
Implicit Types (s : Central2D real) (st : @run_state real).

Lemma half_step_log tfinal io st st' :
  half_step limdiff tfinal io st = Ok st' ->
  run_log st' = run_log st ++ [(io, run_dt st')] /\
  (io <> 0 -> run_dt st' = run_dt st /\ run_done st' = run_done st).
Proof.
  unfold half_step.
  intros (s1 & _ & ([s2 cxy] & _ & (s3 & _ & ([dt done] & Hdt & (s4 & _ & [= <-])%bind_Ok)%bind_Ok)%bind_Ok)%bind_Ok)%bind_Ok.
  simpl. split; [done|]. intros Hio.
  destruct (Z.eqb_spec io 0); [done|]. by injection Hdt as -> ->.
Qed.

Lemma macro_step_unfold tfinal st :
  macro_step limdiff tfinal st =
  (st ← half_step limdiff tfinal 0 st; half_step limdiff tfinal 1 st).
Proof.
  unfold macro_step. change (range 0 2) with [0; 1]. simpl.
  destruct (half_step limdiff tfinal 0 st) as [st1|]; simpl; [|done].
  by destruct (half_step limdiff tfinal 1 st1).
Qed.

Lemma macro_step_log tfinal st st' :
  macro_step limdiff tfinal st = Ok st' ->
  run_log st' = run_log st ++ [(0, run_dt st'); (1, run_dt st')].
Proof.
  rewrite macro_step_unfold. intros (st1 & H0 & H1)%bind_Ok.
  apply half_step_log in H0 as [L0 _]. apply half_step_log in H1 as [L1 E1].
  destruct E1 as [E1 _]; [done|]. rewrite L1, L0, E1, <- app_assoc. done.
Qed.

Lemma run_loop_log fuel tfinal st st' :
  run_loop limdiff fuel tfinal st = Ok st' ->
  exists dts : list real, dts <> [] /\ run_log st' = run_log st ++ pairs_of dts.
Proof.
  revert st. induction fuel as [|fuel IH]; intros st; simpl; [discriminate|].
  intros (st1 & Hm & Hrest)%bind_Ok. apply macro_step_log in Hm.
  destruct (run_done st1).
  - injection Hrest as <-. exists [run_dt st1]. split; [done|]. simpl. done.
  - apply IH in Hrest as (dts & _ & Hlog).
    exists (run_dt st1 :: dts). split; [done|].
    rewrite Hlog, Hm, <- app_assoc. done.
Qed.

Lemma pairs_of_length (dts : list real) : length (pairs_of dts) = (2 * length dts)%nat.
Proof. induction dts as [|dt dts IH]; simpl; [done|]. rewrite IH. lia. Qed.

(** The loop returns after the first macro-step that sets [done]. *)
Lemma run_loop_done fuel tfinal st st' :
  macro_step limdiff tfinal st = Ok st' -> run_done st' = true ->
  run_loop limdiff (S fuel) tfinal st = Ok st'.
Proof. intros Hm Hd. simpl. rewrite Hm. simpl. by rewrite Hd. Qed.

(** A larger bound on the iterations does not change the outcome of a run
    that returns. *)
Lemma run_loop_fuel_mono fuel fuel' tfinal st st' :
  (fuel <= fuel')%nat ->
  run_loop limdiff fuel tfinal st = Ok st' ->
  run_loop limdiff fuel' tfinal st = Ok st'.
Proof.
  revert fuel' st. induction fuel as [|fuel IH]; intros fuel' st Hle; simpl;
    [discriminate|].
  destruct fuel' as [|fuel']; [lia|]. simpl.
  destruct (macro_step limdiff tfinal st) as [st1|e]; simpl; [|done].
  destruct (run_done st1); [done|]. apply IH. lia.
Qed.
End Run.

(** * The step size *)

Section HalfSteps.
Context {real : Type} {RO : RealOps real}.
Variable limdiff : real -> real -> real -> real.
Implicit Types (s : Central2D real) (st : @run_state real).

Lemma half_step_even tfinal st st1 :
  half_step limdiff tfinal 0 st = Ok st1 ->
  exists s1 s2 s3 cxy,
    apply_periodic (run_sim st) = Ok s1 /\
    compute_fg_speeds s1 = Ok (s2, cxy) /\
    params s3 = params (run_sim st) /\
    choose_dt s3 cxy (run_t st) tfinal (run_done st)
      = Ok (run_dt st1, run_done st1) /\
    run_t st1 = run_t st +! run_dt st1.
Proof.
  unfold half_step.
  intros (s1 & H1 & ([s2 cxy] & H2 & (s3 & H3 & ([dt done] & Hdt & (s4 & _ & [= <-]
         )%bind_Ok)%bind_Ok)%bind_Ok)%bind_Ok)%bind_Ok.
  exists s1, s2, s3, cxy. simpl. split_and!; try done.
  apply apply_periodic_params in H1. apply compute_fg_speeds_params in H2.
  apply limited_derivs_params in H3. congruence.
Qed.

Lemma half_step_odd tfinal st1 st' :
  half_step limdiff tfinal 1 st1 = Ok st' ->
  run_dt st' = run_dt st1 /\ run_done st' = run_done st1 /\
  run_t st' = run_t st1 +! run_dt st1.
Proof.
  unfold half_step.
  intros (s1 & H1 & ([s2 cxy] & H2 & (s3 & H3 & ([dt done] & Hdt & (s4 & _ & [= <-]
         )%bind_Ok)%bind_Ok)%bind_Ok)%bind_Ok)%bind_Ok.
  simpl in *. injection Hdt as -> ->. done.
Qed.
End HalfSteps.

Section CFL.
Local Open Scope Q_scope.
Variable limdiff : Q -> Q -> Q -> Q.
Implicit Types (s : Central2D Q) (st : @run_state Q).

Lemma choose_dt_spec s (cx cy t tfinal : Q) (done : bool) dt done' :
  0 < dx s -> 0 < dy s -> 0 < cx -> 0 < cy ->
  choose_dt s (cx, cy) t tfinal done = Ok (dt, done') ->
  let m := Qmax (cx / dx s) (cy / dy s) in
  let dt0 := cfl s / m in
  (tfinal <= t + 2 * dt0 -> dt == (tfinal - t) / 2 /\ done' = true) /\
  (t + 2 * dt0 < tfinal -> dt == dt0 /\ done' = done) /\
  m * dt <= cfl s.
Proof.
  intros Hdx Hdy Hcx Hcy. unfold choose_dt. cbn [fst snd].
  intros (qx & Hqx & (qy & Hqy & (d0 & Hd0 & Hif)%bind_Ok)%bind_Ok)%bind_Ok.
  destruct (rdiv cx (dx s)) as [qx'|] eqn:Eqx; [|discriminate]. injection Hqx as ->.
  destruct (rdiv cy (dy s)) as [qy'|] eqn:Eqy; [|discriminate]. injection Hqy as ->.
  destruct (rdiv (cfl s) (std_max qx qy)) as [d0'|] eqn:Ed0; [|discriminate].
  injection Hd0 as ->.
  apply Q_rdiv_Some in Eqx as [_ Eqx]. apply Q_rdiv_Some in Eqy as [_ Eqy].
  apply Q_rdiv_Some in Ed0 as [Hm0 Ed0].
  set (m := Qmax (cx / dx s) (cy / dy s)). set (dt0 := cfl s / m).
  assert (Hm : std_max qx qy == m).
  { rewrite Q_std_max. unfold m. apply Q.max_compat; done. }
  assert (Hmpos : 0 < m).
  { apply Qlt_le_trans with (cx / dx s); [|apply Q.le_max_l].
    apply Qlt_shift_div_l; [done|]. by rewrite Qmult_0_l. }
  assert (Hd : d0 == dt0) by (unfold dt0; rewrite Ed0, Hm; reflexivity).
  assert (Hmd : m * dt0 == cfl s).
  { unfold dt0. apply Qmult_div_r. intros H0. rewrite H0 in Hmpos.
    by apply Qlt_irrefl in Hmpos. }
  assert (Hcond : t +! rlit 2 *! d0 == t + 2 * dt0).
  { rewrite Q_radd, Q_rmul, Q_rlit, Hd. reflexivity. }
  destruct (t +! rlit 2 *! d0 >=! tfinal) eqn:Ege.
  - apply Q_rge in Ege. rewrite Hcond in Ege.
    destruct (rdiv (tfinal -! t) (rlit 2)) as [d1|] eqn:Ed1; [|discriminate].
    injection Hif as <- <-.
    apply Q_rdiv_Some in Ed1 as [_ Ed1]. rewrite Q_rsub, Q_rlit in Ed1.
    split_and!.
    + done.
    + intros Hlt. exfalso. apply (Qlt_irrefl tfinal).
      eapply Qle_lt_trans; [exact Ege|exact Hlt].
    + rewrite <- Hmd. apply Qmult_le_l; [done|]. rewrite Ed1.
      apply Qle_shift_div_r; [reflexivity|]. lra.
  - injection Hif as <- <-.
    assert (Hlt : t + 2 * dt0 < tfinal).
    { apply Qnot_le_lt. intros Hle. rewrite <- Hcond in Hle.
      apply Q_rge in Hle. congruence. }
    split_and!.
    + intros Hle. exfalso. apply (Qlt_irrefl tfinal).
      eapply Qle_lt_trans; [exact Hle|exact Hlt].
    + done.
    + rewrite Hd, Hmd. apply Qle_refl.
Qed.

End CFL.



(** * The loop of [limited_derivs] *)

Section LimitedDerivs.
Context {real : Type} {RO : RealOps real}.
Variable limdiff : real -> real -> real -> real.
Implicit Types (s m : Central2D real).

Lemma range_cons (lo hi : Z) : lo < hi -> range lo hi = lo :: range (lo + 1) hi.
Proof.
  intros H. unfold range. rewrite seqZ_cons by lia.
  f_equal. f_equal; lia.
Qed.

(** Whenever the padded grid is wider than high, the first iteration reads
    before the start of [u_]. *)
Lemma limited_derivs_out_of_bounds s :
  wf s -> ny_all s < nx_all s ->
  limited_derivs limdiff s = Fault OutOfBounds.
Proof.
  intros Hwf Hlt.
  pose proof (wf_nx s Hwf) as Hnx. pose proof (wf_ny s Hwf) as Hny.
  pose proof (wf_nx_all s Hwf) as Hxa. pose proof (wf_ny_all s Hwf) as Hya.
  assert (Hlen : forall n, Z.of_nat (length (vec n s)) = 3 * nx_all s * ny_all s)
    by apply (wf_len s Hwf).
  unfold nghost in *.
  unfold limited_derivs. rewrite range_cons
    by (unfold nfield, Shallow2D.nfield; nia).
  simpl. unfold limited_derivs_at.
  rewrite !load_Ok by (rewrite Hlen; nia). run_ok.
  rewrite store_Ok by (rewrite Hlen; nia). run_ok.
  rewrite !load_Ok by (rewrite vec_set_vec_ne, Hlen by discriminate; nia). run_ok.
  rewrite store_Ok by (rewrite vec_set_vec_ne, Hlen by discriminate; nia). run_ok.
  assert (Hoob : forall m, load U (ny_all s - nx_all s) m = Fault OutOfBounds).
  { intros m. unfold load, rd.
    destruct (Z.ltb_spec (ny_all s - nx_all s) 0); [reflexivity|lia]. }
  rewrite Hoob. reflexivity.
Qed.

(** The loop assigns at the offsets [ny_all <= i < hi] only. *)
Lemma limited_derivs_untouched s s' n i :
  limited_derivs limdiff s = Ok s' ->
  i < ny_all s \/ nfield * (ny_all s - 1) * nx_all s <= i ->
  at_ (vec n s') i = at_ (vec n s) i.
Proof.
  unfold limited_derivs. intros Hrun Hi. revert Hrun.
  apply (forM_preserve (fun m => at_ (vec n m) i = at_ (vec n s) i)); [|done].
  intros j m m' Hj%elem_of_range Hm. unfold limited_derivs_at.
  intros (? & _ & (? & _ & (? & _ & (m1 & H1 &
          (? & _ & (? & _ & (? & _ & (m2 & H2 &
          (? & _ & (? & _ & (? & _ & (m3 & H3 &
          (? & _ & (? & _ & (? & _ & H4)%bind_Ok)%bind_Ok)%bind_Ok
          )%bind_Ok)%bind_Ok)%bind_Ok)%bind_Ok
          )%bind_Ok)%bind_Ok)%bind_Ok)%bind_Ok
          )%bind_Ok)%bind_Ok)%bind_Ok)%bind_Ok.
  assert (Hst : forall W y m0 m1, store W j y m0 = Ok m1 ->
            at_ (vec n m1) i = at_ (vec n m0) i).
  { intros W y m0 m1' [Hb ->]%store_Ok_inv.
    destruct (decide (W = n)) as [->|Hne].
    - rewrite vec_set_vec_eq. apply at_insert_ne; lia.
    - by rewrite vec_set_vec_ne. }
  rewrite (Hst _ _ _ _ H4), (Hst _ _ _ _ H3), (Hst _ _ _ _ H2), (Hst _ _ _ _ H1).
  exact Hm.
Qed.

(** Hence the derivatives of the last field are never computed in the rows
    [ny_all - 3] and [ny_all - 2], which are not in the outermost ring. *)
Lemma limited_derivs_skips_last_rows s s' n ix iy :
  wf s -> limited_derivs limdiff s = Ok s' ->
  0 <= ix < nx_all s -> ny_all s - 3 <= iy < ny_all s ->
  cell n s' (nfield - 1) ix iy = cell n s (nfield - 1) ix iy.
Proof.
  intros Hwf Hrun Hx Hy. unfold cell.
  rewrite (offset_params s s') by (by apply limited_derivs_params in Hrun).
  apply limited_derivs_untouched; [done|]. right.
  unfold offset, nfield, Shallow2D.nfield. nia.
Qed.
End LimitedDerivs.

(** * Least and greatest height *)

Section MinMax.
Local Open Scope Q_scope.

Lemma Q_std_min (x y : Q) : std_min x y == Qmin x y.
Proof.
  unfold std_min. destruct (y <! x) eqn:E.
  - apply Q_rlt in E. symmetry. apply Q.min_r. by apply Qlt_le_weak.
  - symmetry. apply Q.min_l. apply Qnot_lt_le. intros H. apply Q_rlt in H. congruence.
Qed.

Lemma fold_std_min_spec {A : Type} (f : A -> Q) (l : list A) (a : Q) :
  let r := fold_left (fun acc x => std_min (f x) acc) l a in
  r <= a /\ (forall x, x ∈ l -> r <= f x) /\ (r = a \/ exists x, x ∈ l /\ r = f x).
Proof.
  revert a. induction l as [|y l IH]; intros a; simpl.
  - split_and!; [apply Qle_refl| |by left].
    intros x Hx. by apply elem_of_nil in Hx.
  - destruct (IH (std_min (f y) a)) as (H1 & H2 & H3).
    assert (Hm : std_min (f y) a <= a /\ std_min (f y) a <= f y).
    { rewrite Q_std_min. split; [apply Q.le_min_r|apply Q.le_min_l]. }
    destruct Hm as [Ha Hy]. split_and!.
    + eapply Qle_trans; eauto.
    + intros x [->|Hx]%elem_of_cons; [eapply Qle_trans; eauto|by apply H2].
    + destruct H3 as [H3|(x & Hx & H3)].
      * rewrite H3. unfold std_min. destruct (a <! f y).
        -- by left.
        -- right. exists y. split; [constructor|done].
      * right. exists x. split; [by constructor|done].
Qed.

Lemma fold_std_max_spec {A : Type} (f : A -> Q) (l : list A) (a : Q) :
  let r := fold_left (fun acc x => std_max (f x) acc) l a in
  a <= r /\ (forall x, x ∈ l -> f x <= r) /\ (r = a \/ exists x, x ∈ l /\ r = f x).
Proof.
  revert a. induction l as [|y l IH]; intros a; simpl.
  - split_and!; [apply Qle_refl| |by left].
    intros x Hx. by apply elem_of_nil in Hx.
  - destruct (IH (std_max (f y) a)) as (H1 & H2 & H3).
    assert (Hm : a <= std_max (f y) a /\ f y <= std_max (f y) a).
    { rewrite Q_std_max. split; [apply Q.le_max_r|apply Q.le_max_l]. }
    destruct Hm as [Ha Hy]. split_and!.
    + eapply Qle_trans; eauto.
    + intros x [->|Hx]%elem_of_cons; [eapply Qle_trans; eauto|by apply H2].
    + destruct H3 as [H3|(x & Hx & H3)].
      * rewrite H3. unfold std_max. destruct (f y <! a).
        -- by left.
        -- right. exists y. split; [constructor|done].
      * right. exists x. split; [by constructor|done].
Qed.

(** In exact arithmetic the range reported by [solution_check] is the
    least and the greatest interior height: both bound every interior
    height and both are the height of some interior cell. *)
Lemma interior_range_spec (s : Central2D Q) :
  wf s ->
  (forall i j, (nghost <= i < nx s + nghost)%Z -> (nghost <= j < ny s + nghost)%Z ->
     interior_min s <= cell U s 0 i j <= interior_max s) /\
  (exists i j, (nghost <= i < nx s + nghost)%Z /\ (nghost <= j < ny s + nghost)%Z /\
     interior_min s = cell U s 0 i j) /\
  (exists i j, (nghost <= i < nx s + nghost)%Z /\ (nghost <= j < ny s + nghost)%Z /\
     interior_max s = cell U s 0 i j).
Proof.
  intros Hwf.
  pose proof (wf_nx s Hwf) as Hnx. pose proof (wf_ny s Hwf) as Hny.
  destruct (fold_std_min_spec (fun ji : Z * Z => cell U s 0 ji.2 ji.1)
              (interior_cells s) (cell U s 0 nghost nghost)) as (_ & Hmin & Hminin).
  destruct (fold_std_max_spec (fun ji : Z * Z => cell U s 0 ji.2 ji.1)
              (interior_cells s) (cell U s 0 nghost nghost)) as (_ & Hmax & Hmaxin).
  fold (interior_min s) in Hmin, Hminin. fold (interior_max s) in Hmax, Hmaxin.
  split_and!.
  - intros i j Hi Hj. split.
    + apply (Hmin (j, i)). by apply elem_of_interior_cells.
    + apply (Hmax (j, i)). by apply elem_of_interior_cells.
  - destruct Hminin as [E|([j i] & Hin%elem_of_interior_cells & E)].
    + exists nghost, nghost. split_and!; [lia..|exact E].
    + exists i, j. simpl in *. split_and!; [tauto..|exact E].
  - destruct Hmaxin as [E|([j i] & Hin%elem_of_interior_cells & E)].
    + exists nghost, nghost. split_and!; [lia..|exact E].
    + exists i, j. simpl in *. split_and!; [tauto..|exact E].
Qed.
End MinMax.

(** * What each stage leaves unchanged *)

Section Frames.
Context {real : Type} {RO : RealOps real}.
Variable limdiff : real -> real -> real -> real.
Implicit Types (s m : Central2D real) (st : @run_state real).

Lemma store_same_except W i x m m' :
  store W i x m = Ok m' -> same_except [W] m m'.
Proof.
  intros [_ ->]%store_Ok_inv.
  apply same_except_set; [apply same_except_refl|vec_in|].
  by rewrite length_insert.
Qed.

Lemma same_except_step ws ws' s m m' :
  same_except ws s m -> same_except ws' m m' ->
  (forall n, n ∈ ws' -> n ∈ ws) -> same_except ws s m'.
Proof.
  intros H1 H2 Hsub. eapply same_except_trans; [exact H1|].
  eapply same_except_weaken; [exact H2|exact Hsub].
Qed.

Lemma forM_same_except {T : Type} ws (l : list T)
    (body : T -> Central2D real -> result (Central2D real)) s s' :
  (forall t m m', t ∈ l -> body t m = Ok m' -> same_except ws m m') ->
  forM l body s = Ok s' -> same_except ws s s'.
Proof.
  intros Hb. apply (forM_preserve (fun m => same_except ws s m));
    [|apply same_except_refl].
  intros t m m' Ht Hm Hbody. eapply same_except_trans; [exact Hm|].
  by eapply Hb.
Qed.

Lemma copy_length (src : list real) ps n (dst : list real) pd d :
  copy src ps n dst pd = Ok d -> length d = length dst.
Proof.
  unfold copy. destruct (n <? 0); [discriminate|].
  apply (forM_preserve (fun d => length d = length dst)); [|done].
  intros j d1 d2 _ Hd (x & _ & [_ ->]%wr_Ok_inv)%bind_Ok.
  by rewrite length_insert.
Qed.

Lemma flux_length (FU GU U : list real) pf pg pu ncell stride FU' GU' :
  Shallow2D.flux FU GU U pf pg pu ncell stride = Ok (FU', GU') ->
  length FU' = length FU /\ length GU' = length GU.
Proof.
  unfold Shallow2D.flux.
  intros (F1 & HF1%copy_length & (G1 & HG1%copy_length & Hloop)%bind_Ok)%bind_Ok.
  revert Hloop.
  apply (forM_preserve (fun FG : list real * list real =>
           length FG.1 = length FU /\ length FG.2 = length GU)); [|done].
  intros i [Fa Ga] [Fb Gb] _ [HFa HGa]. unfold Shallow2D.flux_cell.
  intros (? & _ & (? & _ & (? & _ & (? & _ &
          (F2 & [_ ->]%wr_Ok_inv & (F3 & [_ ->]%wr_Ok_inv &
          (G2 & [_ ->]%wr_Ok_inv & (G3 & [_ ->]%wr_Ok_inv & [= <- <-]
          )%bind_Ok)%bind_Ok)%bind_Ok)%bind_Ok
          )%bind_Ok)%bind_Ok)%bind_Ok)%bind_Ok.
  simpl in *. by rewrite !length_insert.
Qed.

Lemma set_flux_same_except m (f g : list real) :
  length f = length (f_ m) -> length g = length (g_ m) ->
  same_except [F; G] m (set_vec G g (set_vec F f m)).
Proof.
  intros Hf Hg. apply same_except_set; [|vec_in|done].
  apply same_except_set; [apply same_except_refl|vec_in|done].
Qed.

Lemma wrap_cell_same_except s k ix iy m m' :
  wrap_cell s k ix iy m = Ok m' -> same_except [U] m m'.
Proof.
  unfold wrap_cell. intros (i & _ & (x & _ & H)%bind_Ok)%bind_Ok.
  by apply store_same_except in H.
Qed.

Lemma apply_periodic_same_except s s' :
  apply_periodic s = Ok s' -> same_except [U] s s'.
Proof.
  unfold apply_periodic. apply forM_same_except.
  intros k m m' _ (m1 & H1 & H2)%bind_Ok.
  assert (S1 : same_except [U] m m1).
  { revert H1. apply forM_same_except. intros iy m2 m3 _.
    apply forM_same_except. intros ix m4 m5 _ (m6 & H6 & H7)%bind_Ok.
    apply wrap_cell_same_except in H6, H7. by eapply same_except_trans. }
  assert (S2 : same_except [U] m1 m').
  { revert H2. apply forM_same_except. intros iy m2 m3 _.
    apply forM_same_except. intros ix m4 m5 _ (m6 & H6 & H7)%bind_Ok.
    apply wrap_cell_same_except in H6, H7. by eapply same_except_trans. }
  by eapply same_except_trans.
Qed.

Lemma compute_fg_speeds_same_except s s' cxy :
  compute_fg_speeds s = Ok (s', cxy) -> same_except [F; G] s s'.
Proof.
  unfold compute_fg_speeds.
  intros ([f g] & [Hf Hg]%flux_length & (c & _ & [= <- _])%bind_Ok)%bind_Ok.
  by apply set_flux_same_except.
Qed.

Lemma limited_derivs_same_except s s' :
  limited_derivs limdiff s = Ok s' -> same_except [UX; UY; FX; GY] s s'.
Proof.
  unfold limited_derivs. apply forM_same_except.
  intros i m m' _. unfold limited_derivs_at.
  intros (? & _ & (? & _ & (? & _ & (m1 & H1 &
          (? & _ & (? & _ & (? & _ & (m2 & H2 &
          (? & _ & (? & _ & (? & _ & (m3 & H3 &
          (? & _ & (? & _ & (? & _ & H4)%bind_Ok)%bind_Ok)%bind_Ok
          )%bind_Ok)%bind_Ok)%bind_Ok)%bind_Ok
          )%bind_Ok)%bind_Ok)%bind_Ok)%bind_Ok
          )%bind_Ok)%bind_Ok)%bind_Ok)%bind_Ok.
  apply store_same_except in H1, H2, H3, H4.
  eapply same_except_step; [|exact H4|intros ? ->%list_elem_of_singleton; vec_in].
  eapply same_except_step; [|exact H3|intros ? ->%list_elem_of_singleton; vec_in].
  eapply same_except_step; [|exact H2|intros ? ->%list_elem_of_singleton; vec_in].
  eapply same_except_weaken; [exact H1|intros ? ->%list_elem_of_singleton; vec_in].
Qed.

Lemma predictor_same_except a b s s' :
  predictor a b s = Ok s' -> same_except [V] s s'.
Proof.
  unfold predictor. apply forM_same_except. intros iy m1 m2 _.
  apply forM_same_except. intros ix m3 m4 _.
  apply forM_same_except. intros k m5 m6 _.
  intros (? & _ & (? & _ & (? & _ & H)%bind_Ok)%bind_Ok)%bind_Ok.
  by apply store_same_except in H.
Qed.

Lemma half_step_flux_same_except s s' :
  half_step_flux s = Ok s' -> same_except [F; G] s s'.
Proof.
  unfold half_step_flux. apply forM_same_except. intros iy m1 m2 _.
  intros ([f g] & [Hf Hg]%flux_length & [= <-])%bind_Ok.
  by apply set_flux_same_except.
Qed.

Lemma corrector_same_except io a b s s' :
  corrector io a b s = Ok s' -> same_except [V] s s'.
Proof.
  unfold corrector. apply forM_same_except. intros iy m1 m2 _.
  apply forM_same_except. intros ix m3 m4 _.
  apply forM_same_except. intros k m5 m6 _. unfold corrector_cell.
  intros H. do 20 (apply bind_Ok in H as (? & _ & H)).
  by apply store_same_except in H.
Qed.

Lemma copy_back_same_except io s s' :
  copy_back io s = Ok s' -> same_except [U] s s'.
Proof.
  unfold copy_back. apply forM_same_except. intros k m1 m2 _.
  intros (u & Hu%copy_length & [= <-])%bind_Ok.
  apply same_except_set; [apply same_except_refl|vec_in|done].
Qed.

Lemma compute_step_same_except io dt s s' :
  compute_step io dt s = Ok s' -> same_except [U; V; F; G] s s'.
Proof.
  unfold compute_step.
  intros (a & _ & (b & _ & (s1 & H1%predictor_same_except &
          (s2 & H2%half_step_flux_same_except &
          (s3 & H3%corrector_same_except & H4%copy_back_same_except
          )%bind_Ok)%bind_Ok)%bind_Ok)%bind_Ok)%bind_Ok.
  eapply same_except_step; [|exact H4|intros ? ->%list_elem_of_singleton; vec_in].
  eapply same_except_step; [|exact H3|intros ? ->%list_elem_of_singleton; vec_in].
  eapply same_except_step; [|exact H2|].
  - eapply same_except_weaken; [exact H1|intros ? ->%list_elem_of_singleton; vec_in].
  - intros n [->|[->|Hn]%elem_of_cons]%elem_of_cons; [vec_in..|].
    by apply elem_of_nil in Hn.
Qed.

Lemma half_step_shape tfinal io st st' :
  half_step limdiff tfinal io st = Ok st' ->
  params (run_sim st') = params (run_sim st) /\
  forall n, length (vec n (run_sim st')) = length (vec n (run_sim st)).
Proof.
  unfold half_step.
  intros (s1 & (P1 & _ & L1)%apply_periodic_same_except &
          ([s2 cxy] & (P2 & _ & L2)%compute_fg_speeds_same_except &
          (s3 & (P3 & _ & L3)%limited_derivs_same_except &
          ([dt done] & _ & (s4 & (P4 & _ & L4)%compute_step_same_except & [= <-]
          )%bind_Ok)%bind_Ok)%bind_Ok)%bind_Ok)%bind_Ok.
  simpl. split; [congruence|]. intros n. by rewrite L4, L3, L2, L1.
Qed.

Lemma macro_step_shape tfinal st st' :
  macro_step limdiff tfinal st = Ok st' ->
  params (run_sim st') = params (run_sim st) /\
  forall n, length (vec n (run_sim st')) = length (vec n (run_sim st)).
Proof.
  rewrite macro_step_unfold.
  intros (st1 & [P0 L0]%half_step_shape & [P1 L1]%half_step_shape)%bind_Ok.
  split; [congruence|]. intros n. by rewrite L1, L0.
Qed.

Lemma run_loop_shape fuel tfinal st st' :
  run_loop limdiff fuel tfinal st = Ok st' ->
  params (run_sim st') = params (run_sim st) /\
  forall n, length (vec n (run_sim st')) = length (vec n (run_sim st)).
Proof.
  revert st. induction fuel as [|fuel IH]; intros st; simpl; [discriminate|].
  intros (st1 & [P1 L1]%macro_step_shape & Hrest)%bind_Ok.
  destruct (run_done st1).
  - injection Hrest as <-. done.
  - apply IH in Hrest as [P2 L2]. split; [congruence|].
    intros n. by rewrite L2, L1.
Qed.
End Frames.

(** * One half-step *)

Section HalfStepResults.
Context {real : Type} {RO : RealOps real}.
Implicit Types (s m : Central2D real).

(** C1.  Take a half-step [compute_step io dt] on a well-formed solver, with
    [dtcdx2 = 0.5 * dt / dx] and [dtcdy2 = 0.5 * dt / dy] defined and the
    predicted height non-zero at every cell but those of the outermost ring
    (the flux divides by it).  The half-step returns, after four phases:
    the predictor stores in [v], at every cell but those of the outermost
    ring, [u - dtcdx2 * fx - dtcdy2 * gy]; the flux of these predicted values
    is then stored in [f] and [g]; the corrector stores in [v], at every
    cell [(ix, iy)] of the window [nghost - io <= ix < nx + nghost - io]
    (same in [y]), 0.25 times the sum of the state before the predictor over
    the 2 x 2 stencil, minus 0.0625 times the signed sum of the limited
    derivatives [ux] and [uy], minus [dtcdx2] times the differences in x of
    the recomputed [f] over the two rows, minus [dtcdy2] times the
    differences in y of the recomputed [g] over the two columns; and the
    copy back ends the half-step. *)
Theorem compute_step_predictor_corrector io dt s dtcdx2 dtcdy2 :
  wf s -> 0 <= io <= 1 ->
  rdiv (rlit (1 # 2) *! dt) (dx s) = Some dtcdx2 ->
  rdiv (rlit (1 # 2) *! dt) (dy s) = Some dtcdy2 ->
  (forall ix iy, 1 <= ix < nx_all s - 1 -> 1 <= iy < ny_all s - 1 ->
     is_Some (rdiv (rlit 1) (predicted dtcdx2 dtcdy2 s (offset s 0 ix iy)))) ->
  exists s1 s2 s3 s',
    predictor dtcdx2 dtcdy2 s = Ok s1 /\
    (forall k ix iy, 0 <= k < nfield ->
       1 <= ix < nx_all s - 1 -> 1 <= iy < ny_all s - 1 ->
       cell V s1 k ix iy =
         cell U s k ix iy -! dtcdx2 *! cell FX s k ix iy
                          -! dtcdy2 *! cell GY s k ix iy) /\
    half_step_flux s1 = Ok s2 /\
    (forall ix iy, 1 <= ix < nx_all s - 1 -> 1 <= iy < ny_all s - 1 ->
       flux_of_v s1 s2 ix iy) /\
    corrector io dtcdx2 dtcdy2 s2 = Ok s3 /\
    (forall k ix iy, 0 <= k < nfield ->
       nghost - io <= ix < nx s + nghost - io ->
       nghost - io <= iy < ny s + nghost - io ->
       cell V s3 k ix iy =
         rlit (1 # 4) *! (cell U s k ix iy +! cell U s k (ix + 1) iy +!
                          cell U s k ix (iy + 1) +! cell U s k (ix + 1) (iy + 1)) -!
         rlit (1 # 16) *! (cell UX s k (ix + 1) iy -! cell UX s k ix iy +!
                           cell UX s k (ix + 1) (iy + 1) -! cell UX s k ix (iy + 1) +!
                           cell UY s k ix (iy + 1) -! cell UY s k ix iy +!
                           cell UY s k (ix + 1) (iy + 1) -! cell UY s k (ix + 1) iy) -!
         dtcdx2 *! (cell F s2 k (ix + 1) iy -! cell F s2 k ix iy +!
                    cell F s2 k (ix + 1) (iy + 1) -! cell F s2 k ix (iy + 1)) -!
         dtcdy2 *! (cell G s2 k ix (iy + 1) -! cell G s2 k ix iy +!
                    cell G s2 k (ix + 1) (iy + 1) -! cell G s2 k (ix + 1) iy)) /\
    copy_back io s3 = Ok s' /\
    compute_step io dt s = Ok s'.
Proof.
  intros Hwf Hio Ha Hb Hdef.
  destruct (predictor_spec dtcdx2 dtcdy2 s Hwf) as (s1 & H1 & Hse1 & Hpred).
  pose proof (same_except_params _ _ _ Hse1) as Hp1.
  assert (Hwf1 : wf s1) by (eapply same_except_wf; eauto).
  assert (Hg1 : nx_all s1 = nx_all s /\ ny_all s1 = ny_all s).
  { unfold params in Hp1. injection Hp1 as _ _ -> -> _ _ _. done. }
  destruct Hg1 as [Hnxa1 Hnya1].
  destruct (half_step_flux_spec s1 Hwf1) as (s2 & H2 & Hse2 & Hflux).
  { intros ix iy Hx Hy. rewrite Hnxa1 in Hx. rewrite Hnya1 in Hy.
    rewrite (cell_same_params V s s1) by done. simpl.
    rewrite Hpred by (done || unfold nfield, Shallow2D.nfield; lia).
    by apply Hdef. }
  pose proof (same_except_params _ _ _ Hse2) as Hp2.
  assert (Hp2' : params s2 = params s) by congruence.
  assert (Hwf2 : wf s2) by (eapply same_except_wf; eauto).
  destruct (corrector_spec io dtcdx2 dtcdy2 s2 Hwf2 Hio) as (s3 & H3 & Hse3 & Hcorr & _).
  pose proof (same_except_params _ _ _ Hse3) as Hp3.
  assert (Hwf3 : wf s3) by (eapply same_except_wf; eauto).
  destruct (copy_back_spec io s3 Hwf3 Hio) as (s' & H4 & _).
  exists s1, s2, s3, s'. split_and!; try done.
  - intros k ix iy Hk Hx Hy. rewrite (cell_same_params V s s1) by done.
    apply Hpred; done.
  - intros ix iy Hx Hy. apply Hflux; rewrite ?Hnxa1, ?Hnya1; done.
  - intros k ix iy Hk Hx Hy.
    assert (Hnx : nx s2 = nx s /\ ny s2 = ny s /\ nx_all s2 = nx_all s).
    { unfold params in Hp2'. injection Hp2' as -> -> -> _ _ _ _. done. }
    destruct Hnx as (Hnx & Hny & Hnxa).
    rewrite (cell_same_params V s2 s3) by done.
    rewrite Hcorr by (rewrite ?Hnx, ?Hny; done).
    unfold corrected, cell. rewrite !(offset_params s s2) by done.
    rewrite !offset_north_east, !offset_north, !offset_east, Hnxa.
    assert (HU : u_ s2 = u_ s).
    { change (vec U s2 = vec U s).
      rewrite (same_except_vec _ _ _ U Hse2), (same_except_vec _ _ _ U Hse1); [done|vec_notin..]. }
    assert (HUX : ux_ s2 = ux_ s).
    { change (vec UX s2 = vec UX s).
      rewrite (same_except_vec _ _ _ UX Hse2), (same_except_vec _ _ _ UX Hse1); [done|vec_notin..]. }
    assert (HUY : uy_ s2 = uy_ s).
    { change (vec UY s2 = vec UY s).
      rewrite (same_except_vec _ _ _ UY Hse2), (same_except_vec _ _ _ UY Hse1); [done|vec_notin..]. }
    simpl. rewrite HU, HUX, HUY. reflexivity.
  - unfold compute_step. rewrite Ha, Hb. simpl. rewrite H1. simpl.
    rewrite H2. simpl. rewrite H3. simpl. exact H4.
Qed.

(** C6.  A half-step of parity [io] that returns has run the predictor,
    the flux at half step, the corrector and the copy back, in this order;
    the copy back writes [u] only, so [v] still is what the corrector left.
    For every field [k] and every position of the copied run
    ([ny * nx_all] cells from [(nghost, nghost)] on), the cell
    [(nghost + i, nghost + j)] of [u] is the cell
    [(nghost - io + i, nghost - io + j)] of the corrector's [v]; the rest of
    [u] is left as it was.  In particular the accessor reads, at the
    interior cell [(i, j)], the value that the corrector computed for the
    cell [(nghost - io + i, nghost - io + j)]. *)
Theorem compute_step_copy_back io dt s s' :
  wf s -> 0 <= io <= 1 -> compute_step io dt s = Ok s' ->
  exists dtcdx2 dtcdy2 s1 s2 s3,
    predictor dtcdx2 dtcdy2 s = Ok s1 /\ half_step_flux s1 = Ok s2 /\
    corrector io dtcdx2 dtcdy2 s2 = Ok s3 /\ copy_back io s3 = Ok s' /\
    same_except [U] s3 s' /\ v_ s' = v_ s3 /\
    (forall k i j, 0 <= k < nfield ->
       0 <= j * nx_all s + i < ny s * nx_all s ->
       cell U s' k (nghost + i) (nghost + j) =
       cell V s3 k (nghost - io + i) (nghost - io + j)) /\
    (forall k i j, 0 <= k < nfield ->
       0 <= j * nx_all s + i < ny s * nx_all s ->
       cell U s' k (nghost + i) (nghost + j) =
       cell V s' k (nghost - io + i) (nghost - io + j)) /\
    (forall i, (forall k, 0 <= k < nfield ->
                  ~ (offset s k nghost nghost <= i
                     < offset s k nghost nghost + ny s * nx_all s)) ->
       at_ (u_ s') i = at_ (u_ s) i) /\
    (forall k i j, 0 <= k < nfield -> 0 <= i < nx s -> 0 <= j < ny s ->
       get s' k i j = Ok (cell V s' k (nghost - io + i) (nghost - io + j)) /\
       cell V s' k (nghost - io + i) (nghost - io + j) =
       corrector_value dtcdx2 dtcdy2 s s2 k (nghost - io + i) (nghost - io + j)).
Proof.
  intros Hwf Hio Hstep.
  destruct (compute_step_result io dt s s' Hwf Hio Hstep)
    as (a & b & s1 & s2 & s3 & _ & _ & H1 & H2 & H3 & H4 & Hse4 & Hp3 & Hwf3 & Hwf'
        & Hcorr & Hcopy & Hout).
  pose proof (same_except_params _ _ _ Hse4) as Hp4.
  assert (Hp' : params s' = params s) by congruence.
  assert (HV : v_ s' = v_ s3).
  { change (vec V s' = vec V s3). apply (same_except_vec _ _ _ V Hse4). vec_notin. }
  assert (HVc : forall k ix iy, cell V s' k ix iy = cell V s3 k ix iy).
  { intros k ix iy. unfold cell. rewrite (offset_params s3 s') by done.
    simpl. by rewrite HV. }
  assert (Hg : nx s' = nx s /\ ny s' = ny s).
  { unfold params in Hp'. injection Hp' as -> -> _ _ _ _ _. done. }
  destruct Hg as [Hnx Hny].
  pose proof (wf_nx_all s Hwf) as Hxa.
  exists a, b, s1, s2, s3. split_and!; try done.
  - intros k i j Hk Hij. rewrite HVc. by apply Hcopy.
  - intros k i j Hk Hi Hj. split.
    + unfold get. rewrite load_Ok.
      * f_equal. rewrite HVc, <- Hcopy; [|done|unfold nghost in *; nia].
        unfold cell. simpl. do 2 f_equal; ring.
      * rewrite (wf_len s' Hwf' U). apply offset_bounds; try done.
        -- pose proof (wf_nx_all s' Hwf'). pose proof (wf_nx s' Hwf').
           unfold nghost in *. lia.
        -- pose proof (wf_ny_all s' Hwf'). pose proof (wf_ny s' Hwf').
           unfold nghost in *. lia.
    + rewrite HVc. apply Hcorr; [done|lia..].
Qed.
End HalfStepResults.

(** * The grid on which [run] leaves the solution *)

Section RunGrid.
Context {real : Type} {RO : RealOps real}.
Variable limdiff : real -> real -> real -> real.
Implicit Types (s m : Central2D real) (st : @run_state real).

Lemma wf_shape s s' :
  params s' = params s ->
  (forall n, length (vec n s') = length (vec n s)) -> wf s -> wf s'.
Proof.
  intros Hp Hl [H1 H2 H3 H4 H5]. unfold params in Hp.
  injection Hp as Hnx Hny Hxa Hya _ _ _.
  constructor; [congruence..|]. intros n. rewrite Hl, Hxa, Hya. apply H5.
Qed.

(** The calls that precede [compute_step] keep the solver well formed and
    the interior of the state. *)
Lemma prepare_spec s pe cxy :
  wf s -> prepare limdiff s = Ok (pe, cxy) ->
  wf pe /\ params pe = params s /\
  forall k i j, 0 <= k < nfield -> 0 <= i < nx s -> 0 <= j < ny s ->
    get pe k i j = get s k i j.
Proof.
  intros Hwf. unfold prepare.
  intros (s1 & Hap & ([s2 c] & Hsp & (s3 & Hld & [= <- <-])%bind_Ok)%bind_Ok)%bind_Ok.
  destruct (apply_periodic_interior s s1 Hwf Hap) as [Hse1 Hint].
  pose proof (compute_fg_speeds_same_except _ _ _ Hsp) as Hse2.
  pose proof (limited_derivs_same_except limdiff _ _ Hld) as Hse3.
  pose proof (same_except_params _ _ _ Hse1) as Hp1.
  pose proof (same_except_params _ _ _ Hse2) as Hp2.
  pose proof (same_except_params _ _ _ Hse3) as Hp3.
  assert (Hp : params s3 = params s) by congruence.
  assert (Hwf3 : wf s3).
  { eapply same_except_wf; [exact Hse3|]. eapply same_except_wf; [exact Hse2|].
    eapply same_except_wf; eauto. }
  assert (HU : u_ s3 = u_ s1).
  { change (vec U s3 = vec U s1).
    rewrite (same_except_vec _ _ _ U Hse3), (same_except_vec _ _ _ U Hse2);
      [done|vec_notin..]. }
  split; [exact Hwf3|]. split; [exact Hp|].
  intros k i j Hk Hi Hj.
  pose proof (wf_nx_all s Hwf) as Hxa. pose proof (wf_ny_all s Hwf) as Hya.
  assert (Hb : 0 <= offset s k (i + nghost) (j + nghost)
               < nfield * nx_all s * ny_all s)
    by (apply offset_bounds; [done|unfold nghost in *; lia..]).
  unfold get. rewrite (offset_params s s3) by done.
  rewrite !load_Ok.
  - f_equal. simpl. rewrite HU.
    specialize (Hint k (i + nghost) (j + nghost) Hk).
    unfold cell in Hint. rewrite (offset_params s s1) in Hint by done.
    apply Hint; unfold nghost; lia.
  - by rewrite (wf_len s Hwf U).
  - rewrite (wf_len s3 Hwf3 U).
    rewrite (params_nx_all _ _ Hp).
    assert (Hnya : ny_all s3 = ny_all s)
      by (unfold params in Hp; by injection Hp as _ _ _ -> _ _ _).
    by rewrite Hnya.
Qed.

(** A half-step is [prepare] followed by [compute_step]. *)
Lemma half_step_prepare tfinal io st st' :
  half_step limdiff tfinal io st = Ok st' ->
  exists pe cxy,
    prepare limdiff (run_sim st) = Ok (pe, cxy) /\
    compute_step io (run_dt st') pe = Ok (run_sim st').
Proof.
  unfold half_step, prepare.
  intros (s1 & Hap & ([s2 cxy] & Hsp & (s3 & Hld & ([dt done] & _ &
          (s4 & Hstep & [= <-])%bind_Ok)%bind_Ok)%bind_Ok)%bind_Ok)%bind_Ok.
  exists s3, cxy. rewrite Hap. cbn [mbind result_bind]. rewrite Hsp.
  cbn [mbind result_bind]. rewrite Hld. done.
Qed.

(** A run that returns has ended with a macro-step, taken from a solver of
    the shape of the one at entry. *)
Lemma run_loop_last fuel tfinal st st' :
  run_loop limdiff fuel tfinal st = Ok st' ->
  exists st0, macro_step limdiff tfinal st0 = Ok st' /\
    params (run_sim st0) = params (run_sim st) /\
    forall n, length (vec n (run_sim st0)) = length (vec n (run_sim st)).
Proof.
  revert st. induction fuel as [|fuel IH]; intros st; simpl; [discriminate|].
  intros (st1 & Hm & Hrest)%bind_Ok.
  destruct (run_done st1).
  - injection Hrest as <-. by exists st.
  - apply IH in Hrest as (st0 & H0 & P0 & L0).
    apply (macro_step_shape limdiff) in Hm as [P1 L1].
    exists st0. split; [done|]. split; [congruence|].
    intros n. by rewrite L0, L1.
Qed.

(** C4.  A call of [run] on a well-formed solver that returns has called
    [compute_step] an even number of times, in pairs of parity 0 then 1
    with one step size per pair, at least one pair, and leaves a
    well-formed solver, so that [run] can be called again.  Its last two
    calls are an even half-step from a solver [pe] and an odd half-step
    from a solver [po], each prepared by the periodic wrap, the wave
    speeds and the limited derivatives, which keep what the accessor
    reads.  After the even half-step the accessor reads at the interior
    cell [(i, j)] the corrector's value for the stencil of [pe] that
    starts at this cell, [(nghost + i, nghost + j)] to
    [(nghost + i + 1, nghost + j + 1)]: the solution is then on the
    staggered grid, half a cell further.  After the odd half-step it reads
    the corrector's value for the stencil of [po] that ends at this cell,
    [(nghost + i - 1, nghost + j - 1)] to [(nghost + i, nghost + j)]: the
    copy back of parity 1 has undone the shift, and the solution is on the
    main grid again. *)
Theorem run_even_half_steps fuel tfinal s st' :
  wf s -> run limdiff fuel tfinal s = Ok st' ->
  wf (run_sim st') /\
  (exists dts : list real, dts <> [] /\
     run_log st' = pairs_of dts /\
     length (run_log st') = (2 * length dts)%nat) /\
  exists st0 pe cxy sm po cxy' dtcdx2 dtcdy2 pe1 pe2 po1 po2,
    wf (run_sim st0) /\ macro_step limdiff tfinal st0 = Ok st' /\
    rdiv (rlit (1 # 2) *! run_dt st') (dx s) = Some dtcdx2 /\
    rdiv (rlit (1 # 2) *! run_dt st') (dy s) = Some dtcdy2 /\
    prepare limdiff (run_sim st0) = Ok (pe, cxy) /\
    compute_step 0 (run_dt st') pe = Ok sm /\
    predictor dtcdx2 dtcdy2 pe = Ok pe1 /\ half_step_flux pe1 = Ok pe2 /\
    prepare limdiff sm = Ok (po, cxy') /\
    compute_step 1 (run_dt st') po = Ok (run_sim st') /\
    predictor dtcdx2 dtcdy2 po = Ok po1 /\ half_step_flux po1 = Ok po2 /\
    forall k i j, 0 <= k < nfield -> 0 <= i < nx s -> 0 <= j < ny s ->
      get pe k i j = get (run_sim st0) k i j /\
      get sm k i j =
        Ok (corrector_value dtcdx2 dtcdy2 pe pe2 k (nghost + i) (nghost + j)) /\
      get po k i j = get sm k i j /\
      get (run_sim st') k i j =
        Ok (corrector_value dtcdx2 dtcdy2 po po2 k
              (nghost - 1 + i) (nghost - 1 + j)).
Proof.
  intros Hwf Hrun. unfold run in Hrun.
  destruct (run_loop_log limdiff _ _ _ _ Hrun) as (dts & Hne & Hlog).
  destruct (run_loop_last _ _ _ _ Hrun) as (st0 & Hmacro & P0 & L0).
  cbn [run_sim run_log app] in Hlog, P0, L0.
  assert (Hwf0 : wf (run_sim st0)) by (by apply (wf_shape s)).
  pose proof Hmacro as Hm. rewrite macro_step_unfold in Hm.
  apply bind_Ok in Hm as (st1 & He & Ho).
  destruct (half_step_log limdiff _ _ _ _ Ho) as [_ Hdt]. destruct Hdt as [Hdt _]; [done|].
  apply half_step_prepare in He as (pe & cxy & Hpe & Hse).
  apply half_step_prepare in Ho as (po & cxy' & Hpo & Hso).
  rewrite <- Hdt in Hse. set (sm := run_sim st1) in *.
  destruct (prepare_spec _ _ _ Hwf0 Hpe) as (Hwfe & Ppe & Gpe).
  destruct (compute_step_get 0 _ _ _ Hwfe ltac:(lia) Hse)
    as (a & b & pe1 & pe2 & Ha & Hb & Hp1 & Hp2 & Hwfm & Pm & Gm).
  destruct (prepare_spec _ _ _ Hwfm Hpo) as (Hwfo & Ppo & Gpo).
  destruct (compute_step_get 1 _ _ _ Hwfo ltac:(lia) Hso)
    as (a' & b' & po1 & po2 & Ha' & Hb' & Ho1 & Ho2 & Hwf' & P' & G').
  assert (Ppe' : params pe = params s) by congruence.
  assert (Pm' : params sm = params s) by congruence.
  assert (Ppo' : params po = params s) by congruence.
  assert (Hgeo : forall m, params m = params s ->
            nx m = nx s /\ ny m = ny s /\ dx m = dx s /\ dy m = dy s).
  { intros m Hp. unfold params in Hp. injection Hp as -> -> _ _ -> -> _. done. }
  destruct (Hgeo _ P0) as (Hnx0 & Hny0 & _ & _).
  destruct (Hgeo _ Ppe') as (Hnxe & Hnye & Hdxe & Hdye).
  destruct (Hgeo _ Pm') as (Hnxm & Hnym & _ & _).
  destruct (Hgeo _ Ppo') as (Hnxo & Hnyo & Hdxo & Hdyo).
  rewrite Hdxe in Ha. rewrite Hdye in Hb. rewrite Hdxo in Ha'. rewrite Hdyo in Hb'.
  assert (a' = a) as -> by congruence. assert (b' = b) as -> by congruence.
  split; [exact Hwf'|]. split.
  { exists dts. split_and!; try done. rewrite Hlog. apply pairs_of_length. }
  exists st0, pe, cxy, sm, po, cxy', a, b, pe1, pe2, po1, po2.
  split_and!; try done.
  intros k i j Hk Hi Hj. split_and!.
  - apply Gpe; [done|lia..].
  - apply Gm; [done|lia..].
  - apply Gpo; [done|lia..].
  - apply G'; [done|lia..].
Qed.
End RunGrid.

(** * Construction *)

Section Construction.
Context {real : Type} {RO : RealOps real}.

Lemma new_vector_Ok (n : Z) :
  0 <= n -> new_vector n = Ok (replicate (Z.to_nat n) (rlit 0)).
Proof. intros Hn. unfold new_vector. destruct (Z.ltb_spec n 0); [lia|done]. Qed.

Lemma int_Ok (z n : Z) : int_ z = Ok n -> n = z /\ fits_int z = true.
Proof. unfold int_. destruct (fits_int z); [|discriminate]. by intros [= <-]. Qed.

Lemma int_fits (z : Z) : fits_int z = true -> int_ z = Ok z.
Proof. unfold int_. by intros ->. Qed.

Lemma fits_int_spec (z : Z) : fits_int z = true <-> int_min <= z <= int_max.
Proof. unfold fits_int. rewrite andb_true_iff, !Z.leb_le. done. Qed.

(** The vector of a field, when the constructor returns it. *)
Lemma new_field_Ok (nxa nya : Z) (a : list real) :
  new_field nxa nya = Ok a ->
  fits_int (nfield * nxa) = true /\ fits_int (nfield * nxa * nya) = true /\
  0 <= nfield * nxa * nya /\
  a = replicate (Z.to_nat (nfield * nxa * nya)) (rlit 0).
Proof.
  unfold new_field, field_size.
  intros (n & (n1 & [-> H1]%int_Ok & [-> H2]%int_Ok)%bind_Ok & Hv)%bind_Ok.
  unfold new_vector in Hv.
  destruct (Z.ltb_spec (nfield * nxa * nya) 0); [discriminate|].
  injection Hv as <-. done.
Qed.

Lemma new_field_fits (nxa nya : Z) :
  fits_int (nfield * nxa) = true -> fits_int (nfield * nxa * nya) = true ->
  new_field nxa nya = new_vector (nfield * nxa * nya).
Proof.
  intros H1 H2. unfold new_field, field_size.
  rewrite (int_fits _ H1). cbn [mbind result_bind].
  rewrite (int_fits _ H2). done.
Qed.

(** What a completed construction has built. *)
Lemma Central2D_new_Ok (w h c : real) (n_x n_y : Z) (s : Central2D real) :
  Central2D_new w h n_x n_y c = Ok s ->
  exists dx0 dy0,
    w /! rlit (inject_Z n_x) = Ok dx0 /\ h /! rlit (inject_Z n_y) = Ok dy0 /\
    0 <= nfield * (n_x + 2 * nghost) * (n_y + 2 * nghost) /\
    let a := replicate
      (Z.to_nat (nfield * (n_x + 2 * nghost) * (n_y + 2 * nghost))) (rlit 0) in
    s = mkCentral2D n_x n_y (n_x + 2 * nghost) (n_y + 2 * nghost) dx0 dy0 c
          a a a a a a a a.
Proof.
  unfold Central2D_new.
  intros (? & [-> _]%int_Ok & (? & [-> _]%int_Ok & (dx0 & Hdx & (dy0 & Hdy & H)%bind_Ok)%bind_Ok)%bind_Ok)%bind_Ok.
  do 8 (let a := fresh "a" in let Ha := fresh "Ha" in
        apply bind_Ok in H as (a & Ha & H);
        apply new_field_Ok in Ha as (_ & _ & ? & ->)).
  injection H as <-. exists dx0, dy0. done.
Qed.

(** A solver built for positive cell counts is well formed. *)
Lemma Central2D_new_wf (w h c : real) (nx ny : Z) (s : Central2D real) :
  0 < nx -> 0 < ny -> Central2D_new w h nx ny c = Ok s -> wf s.
Proof.
  intros Hnx Hny (dx0 & dy0 & _ & _ & Hsize & ->)%Central2D_new_Ok.
  constructor; simpl; try done.
  intros n. destruct n; simpl; rewrite length_replicate, Z2Nat.id; done.
Qed.
End Construction.

Section ConstructionQ.
Local Open Scope Q_scope.

(** C7, as amended.  The constructor checks the sign of none of its
    arguments.  For every width, height and CFL bound, positive or not, and
    all non-zero cell counts, positive or not, as long as the padded sizes
    [nx + 6], [ny + 6] and the products [nfield * (nx + 6)] and
    [nfield * (nx + 6) * (ny + 6)] fit in a 32-bit [int]: when the last
    product is not negative the solver is built, with [dx = w / nx],
    [dy = h / ny] and eight vectors of zeros of that size; when it is
    negative the allocation of the vectors fails.  When one of the four
    does not fit, the [int] arithmetic of the constructor overflows and
    nothing is built. *)
Theorem construction_unchecked (w h c : Q) (n_x n_y : Z) :
  n_x <> 0%Z -> n_y <> 0%Z ->
  let nxa := (n_x + 2 * nghost)%Z in
  let nya := (n_y + 2 * nghost)%Z in
  let size := (nfield * nxa * nya)%Z in
  let in_int := fits_int nxa && fits_int nya &&
                fits_int (nfield * nxa) && fits_int size in
  (in_int = true -> (0 <= size)%Z ->
     exists s, Central2D_new w h n_x n_y c = Ok s /\
       nx s = n_x /\ ny s = n_y /\
       nx_all s = nxa /\ ny_all s = nya /\
       dx s == w / inject_Z n_x /\ dy s == h / inject_Z n_y /\ cfl s = c /\
       forall n, vec n s = replicate (Z.to_nat size) 0) /\
  (in_int = true -> (size < 0)%Z ->
     Central2D_new w h n_x n_y c = Fault BadAlloc) /\
  (in_int = false -> Central2D_new w h n_x n_y c = Fault IntOverflow).
Proof.
  intros Hnx Hny nxa nya size in_int.
  assert (Hz : forall n : Z, n <> 0%Z -> ~ rlit (inject_Z n) == 0).
  { intros n Hn. rewrite Q_rlit. unfold Qeq. simpl. lia. }
  destruct (Q_rdiv_defined w (rlit (inject_Z n_x)) (Hz n_x Hnx)) as [dx0 Hdx].
  destruct (Q_rdiv_defined h (rlit (inject_Z n_y)) (Hz n_y Hny)) as [dy0 Hdy].
  assert (Hnew : in_int = true ->
            Central2D_new w h n_x n_y c =
            (u ← new_vector size; f ← new_vector size; g ← new_vector size;
             ux ← new_vector size; uy ← new_vector size; fx ← new_vector size;
             gy ← new_vector size; v ← new_vector size;
             Ok (mkCentral2D n_x n_y nxa nya dx0 dy0 c u f g ux uy fx gy v))).
  { unfold in_int. rewrite !andb_true_iff. intros [[[Hx Hy] Hfx] Hs].
    unfold Central2D_new. fold nxa nya.
    rewrite (int_fits _ Hx). cbn [mbind result_bind].
    rewrite (int_fits _ Hy). cbn [mbind result_bind].
    rewrite Hdx, Hdy. run_ok.
    rewrite (new_field_fits _ _ Hfx Hs). done. }
  pose proof Hdx as Hdx0. pose proof Hdy as Hdy0.
  apply Q_rdiv_Some in Hdx as [_ Hdx]. apply Q_rdiv_Some in Hdy as [_ Hdy].
  rewrite Q_rlit in Hdx, Hdy. split_and!.
  - intros Hfit Hsize. rewrite (Hnew Hfit), !new_vector_Ok by done. run_ok.
    eexists. split; [reflexivity|]. simpl. split_and!; try done.
    intros []; reflexivity.
  - intros Hfit Hsize. rewrite (Hnew Hfit). unfold new_vector.
    destruct (Z.ltb_spec size 0); [reflexivity|lia].
  - unfold in_int, Central2D_new. fold nxa nya. unfold int_.
    destruct (fits_int nxa); [|done]. cbn [mbind result_bind].
    destruct (fits_int nya); [|done]. cbn [mbind result_bind andb].
    rewrite Hdx0, Hdy0. run_ok. unfold new_field, field_size, int_.
    destruct (fits_int (nfield * nxa)); [|done]. cbn [mbind result_bind andb].
    fold size. intros ->. done.
Qed.

Lemma construction_unchecked_witness :
  exists s, Central2D_new (-1) (-1) (-1) (-1) (-1) = Ok s /\
    nx s = (-1)%Z /\ dx s == 1 /\ dy s == 1.
Proof.
  destruct (construction_unchecked (-1) (-1) (-1) (-1) (-1)) as [Hok _];
    [discriminate|discriminate|].
  destruct Hok as (s & Hs & Hnx & _ & _ & _ & Hdx & Hdy & _);
    [reflexivity|discriminate|].
  exists s. split_and!; try done.
Defined.

(** A grid of 30000 x 30000 cells: the padded size 3 * 30006 * 30006 does
    not fit in [int]. *)
Lemma construction_overflow_example :
  Central2D_new 1 1 30000 30000 default_cfl = Fault IntOverflow.
Proof. vm_compute. reflexivity. Qed.

(** C7 as stated fails: a solver with negative cell counts and negative
    width and height is constructed without any error. *)
Lemma construction_accepts_nonpositive :
  ~ (forall (w h c : Q) (nx ny : Z),
       (nx <= 0)%Z \/ (ny <= 0)%Z \/ w <= 0 \/ h <= 0 ->
       exists e, Central2D_new w h nx ny c = Fault e).
Proof.
  intros Hall.
  destruct (Hall (-1) (-1) default_cfl (-1)%Z (-1)%Z) as [e He]; [left; lia|].
  vm_compute in He. discriminate.
Qed.
End ConstructionQ.

(** * The defects of the periodic wrap and of the derivative loop *)

Section Defects.
Local Open Scope Q_scope.

(** C2 at a failing input.  On the 2 x 1 grid [narrow_new] (height 1 in
    both interior cells, ghost cells still zero) [apply_periodic] leaves 0
    in the ghost cell [(0, 3)] of the height field, although its canonical
    interior cell [(4, 3)] holds 1: [(0 + 2 - 3) % 2] is [-1] in C++, so
    the value is read from the ghost cell [(2, 3)], before that cell is
    itself filled with 1. *)
Theorem apply_periodic_narrow_grid :
  apply_periodic narrow_new = Ok narrow_wrapped /\
  ghost narrow_new 0 3 /\
  (canonical (nx narrow_new) 0, canonical (ny narrow_new) 3) = (4, 3)%Z /\
  ioffset narrow_new 0 0 3 = Ok (offset narrow_new 0 2 3) /\
  cell U narrow_new 0 2 3 = 0 /\
  cell U narrow_wrapped 0 0 3 = 0 /\
  cell U narrow_wrapped 0 2 3 = 1 /\
  cell U narrow_wrapped 0 4 3 = 1.
Proof.
  split_and!; try (vm_compute; reflexivity).
  unfold ghost, nghost. change (nx narrow_new) with 2%Z.
  change (ny narrow_new) with 1%Z. lia.
Qed.

(** C5 at two failing inputs.  On the 2 x 1 grid, where [nx_all > ny_all],
    the first iteration [i = ny_all] reads [u_[i - nx_all]], before the
    start of the vector.  On the 1 x 3 grid [ridge] the loop ends at
    [hi = 168], before the offset 171 of the cell [(3, 6)] of field 2,
    which is not in the outermost ring: [uy] keeps 0 there, whereas the
    limiter gives 1/10 on the neighbours below, at and above the cell. *)
Theorem limited_derivs_misses_cells :
  limited_derivs minmod_limdiff narrow_new = Fault OutOfBounds /\
  limited_derivs minmod_limdiff ridge = Ok ridge_derivs /\
  (1 <= 3 < nx_all ridge - 1 /\ 1 <= 6 < ny_all ridge - 1)%Z /\
  cell UY ridge_derivs 2 3 6 = 0 /\
  minmod_limdiff (cell U ridge 2 3 5) (cell U ridge 2 3 6) (cell U ridge 2 3 7)
    = 1 # 10.
Proof. split_and!; vm_compute; first [reflexivity | discriminate]. Qed.

(** C9 at a failing input.  [run(1/1000)] on the 1 x 3 grid [ridge_new] is
    one macro-step.  In exact arithmetic, where there is no rounding at all,
    it changes the total volume from 1 to 399999997/400000000 and the total
    momentum in y from 1/10 to 624999991/6000000000.  In binary32 arithmetic
    it changes the total momentum in y from the binary32 number nearest to
    1/10 by more than 1/250, some 30000 times the unit roundoff [2^-24]
    accumulated over its two half-steps. *)
Theorem conservation_broken :
  run minmod_limdiff 1 (1 # 1000) ridge_new = Ok ridge_after /\
  run_log ridge_after = [(0%Z, 1 # 2000); (1%Z, 1 # 2000)] /\
  (exists r, solution_check ridge_new = Ok r /\
     volume r = 1 /\ momentum_x r = 0 /\ momentum_y r = 1 # 10) /\
  (exists r, solution_check (run_sim ridge_after) = Ok r /\
     volume r = 399999997 # 400000000 /\ momentum_x r = 0 /\
     momentum_y r = 624999991 # 6000000000) /\
  run minmod_limdiff 1 (f32_of_Q (1 # 1000)) ridge32_new = Ok ridge32_after /\
  length (run_log ridge32_after) = 2%nat /\
  (exists r r', solution_check ridge32_new = Ok r /\
     solution_check (run_sim ridge32_after) = Ok r' /\
     Q_of_f32 (momentum_y r) = 6710887 # 67108864 /\
     Q_of_f32 (momentum_y r') = 13981015 # 134217728 /\
     1 # 250 < Q_of_f32 (momentum_y r') - Q_of_f32 (momentum_y r) /\
     30000 * (2 * (1 # 2 ^ 24)) < Q_of_f32 (momentum_y r') - Q_of_f32 (momentum_y r)).
Proof.
  split_and!.
  - vm_compute. reflexivity.
  - vm_compute. reflexivity.
  - eexists. split_and!; [vm_compute; reflexivity|reflexivity..].
  - eexists. split_and!; [vm_compute; reflexivity|reflexivity..].
  - vm_compute. reflexivity.
  - vm_compute. reflexivity.
  - do 2 eexists. split_and!; [vm_compute; reflexivity..].
Qed.
End Defects.

(** * The results on a lake at rest *)

Lemma range_forallb (P : Z -> bool) (lo hi : Z) :
  forallb P (range lo hi) = true -> forall i, lo <= i < hi -> P i = true.
Proof.
  intros Hall i Hi. rewrite forallb_forall in Hall. apply Hall.
  apply list_elem_of_In, elem_of_range. exact Hi.
Qed.

Lemma lake_wf : wf lake.
Proof. constructor; [reflexivity..|intros []; reflexivity]. Qed.

Lemma compute_step_predictor_corrector_witness :
  wf lake /\
  rdiv (rlit (1 # 2) *! (1 # 100)%Q) (dx lake) = Some (1 # 200)%Q /\
  rdiv (rlit (1 # 2) *! (1 # 100)%Q) (dy lake) = Some (1 # 200)%Q /\
  compute_step 0 (1 # 100)%Q lake = Ok lake_stepped.
Proof.
  assert (Ha : rdiv (rlit (1 # 2) *! (1 # 100)%Q) (dx lake) = Some (1 # 200)%Q)
    by reflexivity.
  assert (Hb : rdiv (rlit (1 # 2) *! (1 # 100)%Q) (dy lake) = Some (1 # 200)%Q)
    by reflexivity.
  split; [exact lake_wf|]. split; [exact Ha|]. split; [exact Hb|].
  destruct (compute_step_predictor_corrector 0 (1 # 100)%Q lake
              (1 # 200)%Q (1 # 200)%Q lake_wf)
    as (s1 & s2 & s3 & s' & _ & _ & _ & _ & _ & _ & _ & Hstep);
    [lia|exact Ha|exact Hb| |].
  - intros ix iy Hx Hy.
    assert (Hall : forallb (fun ix => forallb (fun iy =>
              match rdiv (rlit 1)
                      (predicted (1 # 200)%Q (1 # 200)%Q lake (offset lake 0 ix iy))
              with Some _ => true | None => false end)
              (range 1 (ny_all lake - 1))) (range 1 (nx_all lake - 1)) = true)
      by (vm_compute; reflexivity).
    pose proof (range_forallb _ _ _ (range_forallb _ _ _ Hall ix Hx) iy Hy) as Hd.
    cbv beta in Hd.
    destruct (rdiv (rlit 1)
                (predicted (1 # 200)%Q (1 # 200)%Q lake (offset lake 0 ix iy)));
      [by eexists|discriminate].
  - vm_compute. reflexivity.
Defined.

Lemma compute_step_copy_back_witness :
  wf lake /\ compute_step 0 (1 # 100)%Q lake = Ok lake_stepped /\
  get lake_stepped 0 0 0 = Ok (cell V lake_stepped 0 3 3).
Proof.
  split; [exact lake_wf|]. split; [vm_compute; reflexivity|].
  destruct (compute_step_copy_back 0 (1 # 100)%Q lake lake_stepped lake_wf)
    as (a & b & s1 & s2 & s3 & _ & _ & _ & _ & _ & _ & _ & _ & _ & Hget);
    [lia|vm_compute; reflexivity|].
  apply (Hget 0 0 0); [unfold nfield, Shallow2D.nfield; lia|simpl; lia..].
Defined.


Lemma lake_new_wf : wf lake_new.
Proof. constructor; [reflexivity..|intros []; reflexivity]. Qed.

Lemma run_even_half_steps_witness :
  wf lake_new /\ run minmod_limdiff 1 (1 # 10)%Q lake_new = Ok lake_after /\
  wf lake_after.(run_sim) /\
  exists dts : list Q, dts <> [] /\ run_log lake_after = pairs_of dts.
Proof.
  assert (Hrun : run minmod_limdiff 1 (1 # 10)%Q lake_new = Ok lake_after)
    by (vm_compute; reflexivity).
  split; [exact lake_new_wf|]. split; [exact Hrun|].
  destruct (run_even_half_steps minmod_limdiff 1 (1 # 10)%Q lake_new lake_after
              lake_new_wf Hrun)
    as (Hwf' & (dts & Hne & Hlog & _) & _).
  split; [exact Hwf'|]. exists dts. split; [exact Hne|exact Hlog].
Defined.


Lemma shallow2d_defined_on_positive_height_witness :
  (exists FG, Shallow2D.flux (f_ lake) (g_ lake) (u_ lake) 0 0 0 49 49 = Ok FG) /\
  (exists c, Shallow2D.wave_speed (0%Q, 0%Q) (u_ lake) 0 49 49 = Ok c).
Proof.
  destruct (shallow2d_defined_on_positive_height
              (f_ lake) (g_ lake) (u_ lake) 0 0 0 49 49 (0%Q, 0%Q)) as [Hpos _];
    try (vm_compute; first [reflexivity | discriminate | (split; discriminate)]).
  apply Hpos. intros i Hi. apply Q_rlt.
  apply (range_forallb (fun i => (0%Q : Q) <! at_ (u_ lake) (0 + i)) 0 49);
    [vm_compute; reflexivity|exact Hi].
Defined.

(** * The storage layout and the element accessor *)

Section Layout.
Context {real : Type} {RO : RealOps real}.
Implicit Types (s m : Central2D real) (n : vecname).

(** Every subscript of a vector is the offset of some cell. *)
Lemma offset_surj s i :
  0 < nx_all s -> 0 < ny_all s -> 0 <= i < nfield * nx_all s * ny_all s ->
  exists k ix iy, 0 <= k < nfield /\ 0 <= ix < nx_all s /\ 0 <= iy < ny_all s /\
    offset s k ix iy = i.
Proof.
  intros Hx Hy Hi. unfold nfield, Shallow2D.nfield in *.
  set (X := nx_all s) in *. set (Y := ny_all s) in *.
  pose proof (Z.div_mod i X ltac:(lia)) as Hd1.
  pose proof (Z.mod_pos_bound i X Hx) as Hm1.
  pose proof (Z.div_mod (i / X) Y ltac:(lia)) as Hd2.
  pose proof (Z.mod_pos_bound (i / X) Y Hy) as Hm2.
  exists (i / X / Y), (i mod X), ((i / X) mod Y).
  assert (Hq : 0 <= i / X < 3 * Y).
  { split; [apply Z.div_pos; lia|]. apply Z.div_lt_upper_bound; [lia|]. nia. }
  assert (Hk : 0 <= i / X / Y < 3).
  { split; [apply Z.div_pos; lia|]. apply Z.div_lt_upper_bound; lia. }
  split_and!; try lia.
  unfold offset. fold X Y. nia.
Qed.

(** Two vectors of the same length with the same values are equal. *)
Lemma at_ext (a b : list real) :
  length a = length b ->
  (forall i, 0 <= i < Z.of_nat (length a) -> at_ a i = at_ b i) -> a = b.
Proof.
  intros Hl Hat. apply list_eq_same_length with (length a); [done|done|].
  intros i x y Hi Hx Hy.
  specialize (Hat (Z.of_nat i) ltac:(lia)).
  rewrite (at_lookup a (Z.of_nat i) x), (at_lookup b (Z.of_nat i) y) in Hat;
    rewrite ?Nat2Z.id; (done || lia).
Qed.

(** A solver is its [const] members and its eight vectors. *)
Lemma solver_ext s m :
  params m = params s -> (forall n, vec n m = vec n s) -> m = s.
Proof.
  destruct s, m. unfold params. simpl. intros [= -> -> -> -> -> -> ->] Hv.
  pose proof (Hv U). pose proof (Hv F). pose proof (Hv G). pose proof (Hv UX).
  pose proof (Hv UY). pose proof (Hv FX). pose proof (Hv GY). pose proof (Hv V).
  simpl in *. congruence.
Qed.

(** X1.  The storage layout.  On a well-formed solver [offset] is a
    bijection between the cells [(k, ix, iy)] of the padded grid, [k]
    a field, and the subscripts of a vector: every cell has a subscript
    inside the vector, two cells never share one, and every subscript is
    the offset of a cell. *)
Theorem offset_layout s :
  wf s ->
  (forall k ix iy, 0 <= k < nfield -> 0 <= ix < nx_all s -> 0 <= iy < ny_all s ->
     forall n, 0 <= offset s k ix iy < Z.of_nat (length (vec n s))) /\
  (forall k ix iy k' ix' iy',
     0 <= ix < nx_all s -> 0 <= ix' < nx_all s ->
     0 <= iy < ny_all s -> 0 <= iy' < ny_all s ->
     offset s k ix iy = offset s k' ix' iy' -> (k, ix, iy) = (k', ix', iy')) /\
  (forall n i, 0 <= i < Z.of_nat (length (vec n s)) ->
     exists k ix iy, 0 <= k < nfield /\ 0 <= ix < nx_all s /\ 0 <= iy < ny_all s /\
       offset s k ix iy = i).
Proof.
  intros Hwf.
  pose proof (wf_nx s Hwf) as Hnx. pose proof (wf_ny s Hwf) as Hny.
  pose proof (wf_nx_all s Hwf) as Hxa. pose proof (wf_ny_all s Hwf) as Hya.
  unfold nghost in *. split_and!.
  - intros k ix iy Hk Hx Hy n. rewrite (wf_len s Hwf n). by apply offset_bounds.
  - intros k ix iy k' ix' iy' Hx Hx' Hy Hy' Heq.
    apply offset_inj in Heq as (-> & -> & ->); done.
  - intros n i Hi. rewrite (wf_len s Hwf n) in Hi. apply offset_surj; lia.
Qed.

(** X2.  Write then read through [operator()].  On a well-formed solver,
    for a field [k] and a cell [(i, j)] of the padded grid (interior
    coordinates, so from [-nghost] on), the write returns; a read of the
    same cell then gives the value written, a read of any other cell gives
    what it gave before, and nothing but [u] has changed. *)
Theorem set_then_get s k i j x :
  wf s -> 0 <= k < nfield ->
  - nghost <= i < nx s + nghost -> - nghost <= j < ny s + nghost ->
  exists s', set s k i j x = Ok s' /\
    same_except [U] s s' /\
    get s' k i j = Ok x /\
    forall k' i' j', 0 <= k' < nfield ->
      - nghost <= i' < nx s + nghost -> - nghost <= j' < ny s + nghost ->
      (k', i', j') <> (k, i, j) -> get s' k' i' j' = get s k' i' j'.
Proof.
  intros Hwf Hk Hi Hj.
  pose proof (wf_nx_all s Hwf) as Hxa. pose proof (wf_ny_all s Hwf) as Hya.
  pose proof (wf_len s Hwf U) as Hlen. unfold nghost in *.
  assert (Hb : 0 <= offset s k (i + 3) (j + 3) < nfield * nx_all s * ny_all s)
    by (apply offset_bounds; [done|lia..]).
  unfold set, nghost. rewrite store_Ok by lia.
  eexists. split; [reflexivity|].
  set (s' := set_vec U _ s).
  assert (Hp : params s' = params s) by apply params_set_vec.
  assert (Hu : u_ s' = <[Z.to_nat (offset s k (i + 3) (j + 3)) := x]> (u_ s))
    by apply (vec_set_vec_eq U).
  split_and!.
  - apply same_except_set; [apply same_except_refl|vec_in|].
    by rewrite length_insert.
  - unfold get, nghost, load. rewrite (offset_params s s') by done.
    simpl. rewrite Hu, rd_Ok by (rewrite length_insert; simpl in Hlen; lia).
    f_equal. apply at_insert_eq. simpl in Hlen. lia.
  - intros k' i' j' Hk' Hi' Hj' Hne.
    assert (Hb' : 0 <= offset s k' (i' + 3) (j' + 3) < nfield * nx_all s * ny_all s)
      by (apply offset_bounds; [done|lia..]).
    unfold get, nghost, load. rewrite (offset_params s s') by done.
    simpl. rewrite Hu.
    rewrite !rd_Ok by (rewrite ?length_insert; simpl in Hlen; lia).
    f_equal. apply at_insert_ne; [lia|].
    intros Heq. apply offset_inj in Heq as (? & ? & ?); try lia.
    apply Hne. f_equal; [f_equal|]; lia.
Qed.

(** X3.  [operator()] checks the subscript of no axis.  A read succeeds
    exactly when the offset of the cell falls inside [u_], whatever the
    three indices are; an [i] that leaves the row on the right reads the
    next row, and a [j] that leaves the field at the top reads the next
    field. *)
Theorem get_checks_no_axis s k i j :
  wf s ->
  (get s k i j = Fault OutOfBounds <->
   ~ 0 <= offset s k (i + nghost) (j + nghost) < nfield * nx_all s * ny_all s) /\
  (0 <= offset s k (i + nghost) (j + nghost) < nfield * nx_all s * ny_all s ->
   get s k i j = Ok (cell U s k (i + nghost) (j + nghost))) /\
  get s k (i + nx_all s) j = get s k i (j + 1) /\
  get s k i (j + ny_all s) = get s (k + 1) i j.
Proof.
  intros Hwf. pose proof (wf_len s Hwf U) as Hlen. simpl in Hlen.
  assert (Hok : 0 <= offset s k (i + nghost) (j + nghost) < nfield * nx_all s * ny_all s ->
            get s k i j = Ok (cell U s k (i + nghost) (j + nghost))).
  { intros Hb. unfold get, load, cell. simpl. apply rd_Ok. lia. }
  split_and!.
  - split.
    + intros Hf Hb. rewrite (Hok Hb) in Hf. discriminate.
    + intros Hnb. unfold get, load, rd. simpl.
      destruct (Z.ltb_spec (offset s k (i + nghost) (j + nghost)) 0); [done|].
      rewrite lookup_ge_None_2; [done|]. lia.
  - exact Hok.
  - unfold get. f_equal. unfold offset. ring.
  - unfold get. f_equal. unfold offset. ring.
Qed.
End Layout.

(** * The periodic wrap on every grid *)

Section PeriodicAll.
Context {real : Type} {RO : RealOps real}.
Implicit Types (s m : Central2D real).

(** X4.  On every well-formed solver, the ones with two cells along an
    axis included, [apply_periodic] returns: no subscript leaves [u_].  It
    assigns to ghost cells only, so every interior cell of [u] and every
    other vector are as before. *)
Theorem apply_periodic_keeps_interior s :
  wf s ->
  exists s', apply_periodic s = Ok s' /\ same_except [U] s s' /\
    forall k ix iy, 0 <= k < nfield ->
      nghost <= ix < nx s + nghost -> nghost <= iy < ny s + nghost ->
      cell U s' k ix iy = cell U s k ix iy.
Proof.
  intros Hwf.
  pose proof (wf_nx_all s Hwf) as Hxa. pose proof (wf_ny_all s Hwf) as Hya.
  destruct (apply_periodic_total s Hwf) as (s' & Hs' & Hse & Hint).
  exists s'. split; [exact Hs'|]. split; [exact Hse|].
  intros k ix iy Hk Hx Hy. unfold cell.
  rewrite (offset_params s s') by apply Hse. simpl.
  specialize (Hint k ix iy Hx Hy). unfold periodic_at in Hint.
  rewrite Hint by (unfold nghost in *; lia).
  rewrite !canonical_interior by done. reflexivity.
Qed.

Lemma canonical_period (N c : Z) : 0 < N -> canonical N (c + N) = canonical N c.
Proof.
  intros HN. unfold canonical.
  replace (c + N - nghost + N) with (c - nghost + N + 1 * N) by ring.
  by rewrite Z.mod_add by lia.
Qed.

(** X5.  On a well-formed solver with [nx] and [ny] other than 2,
    [apply_periodic] leaves [u] periodic over the whole padded grid: two
    cells [nx] apart in a row hold the same value, and so do two cells [ny]
    apart in a column; the interior is as before. *)
Theorem apply_periodic_periodic s :
  wf s -> nx s <> 2 -> ny s <> 2 ->
  exists s', apply_periodic s = Ok s' /\
    (forall k ix iy, 0 <= k < nfield -> 0 <= iy < ny_all s ->
       0 <= ix -> ix + nx s < nx_all s ->
       cell U s' k (ix + nx s) iy = cell U s' k ix iy) /\
    (forall k ix iy, 0 <= k < nfield -> 0 <= ix < nx_all s ->
       0 <= iy -> iy + ny s < ny_all s ->
       cell U s' k ix (iy + ny s) = cell U s' k ix iy) /\
    (forall k ix iy, 0 <= k < nfield ->
       nghost <= ix < nx s + nghost -> nghost <= iy < ny s + nghost ->
       cell U s' k ix iy = cell U s k ix iy).
Proof.
  intros Hwf Hnx2 Hny2.
  pose proof (wf_nx s Hwf) as Hnx. pose proof (wf_ny s Hwf) as Hny.
  destruct (apply_periodic_spec s Hwf Hnx2 Hny2) as (s' & Hs' & Hse & Hc).
  exists s'. split; [exact Hs'|]. split_and!.
  - intros k ix iy Hk Hy Hx Hx'.
    rewrite !Hc by lia. by rewrite canonical_period.
  - intros k ix iy Hk Hx Hy Hy'.
    rewrite !Hc by lia. by rewrite canonical_period.
  - intros k ix iy Hk Hx Hy.
    pose proof (wf_nx_all s Hwf). pose proof (wf_ny_all s Hwf).
    rewrite Hc by (unfold nghost in *; lia).
    by rewrite !canonical_interior.
Qed.

Lemma canonical_idem (N c : Z) :
  0 < N -> canonical N (canonical N c) = canonical N c.
Proof. intros HN. apply canonical_interior, canonical_range, HN. Qed.

(** X6.  Applying the periodic wrap twice is applying it once: on a
    well-formed solver with [nx] and [ny] other than 2, [apply_periodic]
    returns its own result unchanged. *)
Theorem apply_periodic_idempotent s s' :
  wf s -> nx s <> 2 -> ny s <> 2 ->
  apply_periodic s = Ok s' -> apply_periodic s' = Ok s'.
Proof.
  intros Hwf Hnx2 Hny2 Hs'.
  pose proof (wf_nx s Hwf) as Hnx. pose proof (wf_ny s Hwf) as Hny.
  pose proof (wf_nx_all s Hwf) as Hxa. pose proof (wf_ny_all s Hwf) as Hya.
  destruct (apply_periodic_spec s Hwf Hnx2 Hny2) as (s1 & Hs1 & Hse & Hc).
  rewrite Hs' in Hs1. injection Hs1 as <-.
  assert (Hp : params s' = params s) by apply Hse.
  assert (Hwf' : wf s') by (eapply same_except_wf; done).
  assert (Hnx' : nx s' = nx s) by (unfold params in Hp; by injection Hp).
  assert (Hny' : ny s' = ny s) by (unfold params in Hp; by injection Hp).
  assert (Hxa' : nx_all s' = nx_all s) by (unfold params in Hp; by injection Hp).
  assert (Hya' : ny_all s' = ny_all s) by (unfold params in Hp; by injection Hp).
  destruct (apply_periodic_spec s' Hwf' ltac:(lia) ltac:(lia))
    as (s2 & Hs2 & Hse2 & Hc2).
  rewrite Hs2. f_equal. apply solver_ext; [apply Hse2|].
  intros n. destruct (decide (n = U)) as [->|Hn].
  - apply at_ext; [apply Hse2|].
    intros i Hi. destruct Hse2 as (Hp2 & _ & Hl2). rewrite (Hl2 U) in Hi.
    rewrite (wf_len s' Hwf' U) in Hi.
    destruct (offset_surj s' i) as (k & ix & iy & Hk & Hx & Hy & <-);
      [unfold nghost in *; lia..|].
    specialize (Hc2 k ix iy Hk Hx Hy).
    assert (Hcell : at_ (vec U s2) (offset s' k ix iy) = cell U s2 k ix iy)
      by (unfold cell; by rewrite (offset_params s' s2)).
    change (at_ (vec U s2) (offset s' k ix iy) = cell U s' k ix iy).
    rewrite Hcell, Hc2.
    rewrite Hnx', Hny'.
    pose proof (canonical_range (nx s) ix Hnx).
    pose proof (canonical_range (ny s) iy Hny).
    rewrite !Hc by (unfold nghost in *; lia).
    by rewrite !canonical_idem.
  - destruct Hse2 as (_ & Hv & _). apply Hv.
    intros [->|Hin]%elem_of_cons; [done|by apply elem_of_nil in Hin].
Qed.

(** X7.  A solver with no cell along an axis cannot run.  When the
    constructor returns one, as it does when [w / 0] is a value of the
    arithmetic, the first assignment of [apply_periodic] takes a remainder
    modulo zero, and so does every call of [run]. *)
Theorem zero_cells_fault (limdiff : real -> real -> real -> real)
    (w h c tfinal : real) (n_x n_y : Z) (fuel : nat) s :
  Central2D_new w h n_x n_y c = Ok s -> n_x = 0 \/ n_y = 0 ->
  apply_periodic s = Fault DivByZero /\
  run limdiff (S fuel) tfinal s = Fault DivByZero.
Proof.
  intros Hnew Hz.
  assert (Hgeom : nx s = n_x /\ ny s = n_y /\
            nx_all s = n_x + 2 * nghost /\ ny_all s = n_y + 2 * nghost).
  { apply Central2D_new_Ok in Hnew as (? & ? & _ & _ & _ & ->). done. }
  destruct Hgeom as (Hnx & Hny & Hxa & Hya). unfold nghost in *.
  assert (Hio : forall k ix iy, ioffset s k ix iy = Fault DivByZero).
  { intros k ix iy. unfold ioffset, cmod. rewrite Hnx, Hny.
    destruct Hz as [-> | ->]; simpl; [done|].
    by destruct (n_x =? 0). }
  assert (Hw : forall k ix iy m, wrap_cell s k ix iy m = Fault DivByZero).
  { intros k ix iy m. unfold wrap_cell. by rewrite Hio. }
  assert (Hap : apply_periodic s = Fault DivByZero).
  { unfold apply_periodic.
    rewrite (range_cons 0 nfield) by (unfold nfield, Shallow2D.nfield; lia).
    cbn [forM].
    destruct (Z.lt_ge_cases 0 (ny_all s)) as [Hpos|Hneg].
    - rewrite (range_cons 0 (ny_all s)) by lia. cbn [forM].
      rewrite (range_cons 0 nghost) by (unfold nghost; lia). cbn [forM].
      by rewrite Hw.
    - assert (Hx0 : 0 < nx_all s) by (destruct Hz; lia).
      replace (range 0 (ny_all s)) with (@nil Z)
        by (unfold range; by rewrite seqZ_nil by lia).
      cbn [forM mbind result_bind].
      rewrite (range_cons 0 nghost) by (unfold nghost; lia). cbn [forM].
      rewrite (range_cons 0 (nx_all s)) by lia. cbn [forM].
      by rewrite Hw. }
  split; [exact Hap|].
  assert (Hh : forall st, run_sim st = s ->
            half_step limdiff tfinal 0 st = Fault DivByZero).
  { intros st Hst. unfold half_step. by rewrite Hst, Hap. }
  unfold run. cbn [run_loop]. unfold macro_step.
  rewrite (range_cons 0 2) by lia. cbn [forM].
  by rewrite Hh.
Qed.
End PeriodicAll.

(** * What [limited_derivs] computes *)

Section LimitedDerivsSpec.
Context {real : Type} {RO : RealOps real}.
Variable limdiff : real -> real -> real -> real.
Implicit Types (s m : Central2D real).

Ltac vec_simpl :=
  repeat (rewrite vec_set_vec_eq || rewrite vec_set_vec_ne by discriminate).

(** The loop of [limited_derivs] on a solver that is not wider than
    high. *)
Lemma limited_derivs_flat s :
  wf s -> nx s <= ny s ->
  exists s', limited_derivs limdiff s = Ok s' /\
    same_except [UX; UY; FX; GY] s s' /\
    (forall i, ny_all s <= i < nfield * (ny_all s - 1) * nx_all s ->
       at_ (ux_ s') i = limdiff (at_ (u_ s) (i - 1)) (at_ (u_ s) i) (at_ (u_ s) (i + 1)) /\
       at_ (fx_ s') i = limdiff (at_ (f_ s) (i - 1)) (at_ (f_ s) i) (at_ (f_ s) (i + 1)) /\
       at_ (uy_ s') i = limdiff (at_ (u_ s) (i - nx_all s)) (at_ (u_ s) i)
                          (at_ (u_ s) (i + nx_all s)) /\
       at_ (gy_ s') i = limdiff (at_ (g_ s) (i - nx_all s)) (at_ (g_ s) i)
                          (at_ (g_ s) (i + nx_all s))).
Proof.
  intros Hwf Hle.
  pose proof (wf_nx s Hwf) as Hnx. pose proof (wf_ny s Hwf) as Hny.
  pose proof (wf_nx_all s Hwf) as Hxa. pose proof (wf_ny_all s Hwf) as Hya.
  assert (Hlen : forall n, Z.of_nat (length (vec n s)) = 3 * nx_all s * ny_all s)
    by apply (wf_len s Hwf).
  unfold nghost in *.
  destruct (forM_inv
    (fun m => same_except [UX; UY; FX; GY] s m)
    (fun i m =>
       at_ (vec UX m) i = limdiff (at_ (u_ s) (i - 1)) (at_ (u_ s) i) (at_ (u_ s) (i + 1)) /\
       at_ (vec FX m) i = limdiff (at_ (f_ s) (i - 1)) (at_ (f_ s) i) (at_ (f_ s) (i + 1)) /\
       at_ (vec UY m) i = limdiff (at_ (u_ s) (i - nx_all s)) (at_ (u_ s) i)
                          (at_ (u_ s) (i + nx_all s)) /\
       at_ (vec GY m) i = limdiff (at_ (g_ s) (i - nx_all s)) (at_ (g_ s) i)
                          (at_ (g_ s) (i + nx_all s)))
    (range (ny_all s) (nfield * (ny_all s - 1) * nx_all s))
    (limited_derivs_at limdiff s) s) as (s' & Hs' & HI & HQ).
  - apply same_except_refl.
  - intros i m Hi%elem_of_range HIm.
    unfold nfield, Shallow2D.nfield in Hi.
    assert (HU : vec U m = vec U s) by (apply HIm; vec_notin).
    assert (HF : vec F m = vec F s) by (apply HIm; vec_notin).
    assert (HG : vec G m = vec G s) by (apply HIm; vec_notin).
    assert (Hl : forall n, Z.of_nat (length (vec n m)) = 3 * nx_all s * ny_all s).
    { intros n. destruct HIm as (_ & _ & Hl). by rewrite Hl. }
    unfold limited_derivs_at.
    rewrite !load_Ok by (rewrite Hl; nia). run_ok.
    rewrite store_Ok by (rewrite Hl; nia). run_ok.
    rewrite !load_Ok by (vec_simpl; rewrite Hl; nia). run_ok.
    rewrite store_Ok by (vec_simpl; rewrite Hl; nia). run_ok.
    rewrite !load_Ok by (vec_simpl; rewrite Hl; nia). run_ok.
    rewrite store_Ok by (vec_simpl; rewrite Hl; nia). run_ok.
    rewrite !load_Ok by (vec_simpl; rewrite Hl; nia). run_ok.
    rewrite store_Ok by (vec_simpl; rewrite Hl; nia).
    eexists. split; [reflexivity|]. vec_simpl. rewrite HU, HF, HG.
    assert (Hnew :
      at_ (<[Z.to_nat i := limdiff (at_ (vec U s) (i - 1)) (at_ (vec U s) i)
                             (at_ (vec U s) (i + 1))]> (vec UX m)) i =
        limdiff (at_ (u_ s) (i - 1)) (at_ (u_ s) i) (at_ (u_ s) (i + 1)) /\
      at_ (<[Z.to_nat i := limdiff (at_ (vec F s) (i - 1)) (at_ (vec F s) i)
                             (at_ (vec F s) (i + 1))]> (vec FX m)) i =
        limdiff (at_ (f_ s) (i - 1)) (at_ (f_ s) i) (at_ (f_ s) (i + 1)) /\
      at_ (<[Z.to_nat i := limdiff (at_ (vec U s) (i - nx_all s)) (at_ (vec U s) i)
                             (at_ (vec U s) (i + nx_all s))]> (vec UY m)) i =
        limdiff (at_ (u_ s) (i - nx_all s)) (at_ (u_ s) i) (at_ (u_ s) (i + nx_all s)) /\
      at_ (<[Z.to_nat i := limdiff (at_ (vec G s) (i - nx_all s)) (at_ (vec G s) i)
                             (at_ (vec G s) (i + nx_all s))]> (vec GY m)) i =
        limdiff (at_ (g_ s) (i - nx_all s)) (at_ (g_ s) i) (at_ (g_ s) (i + nx_all s))).
    { rewrite !at_insert_eq by (rewrite Hl; nia). done. }
    split_and!.
    + repeat (apply same_except_set; [|vec_in|
                rewrite length_insert; apply HIm]).
      exact HIm.
    + apply Hnew.
    + apply Hnew.
    + apply Hnew.
    + apply Hnew.
    + intros t' _ Ht'. destruct (decide (t' = i)) as [->|Hne]; [exact Hnew|].
      rewrite !at_insert_ne by lia. exact Ht'.
  - exists s'. split; [exact Hs'|]. split; [exact HI|].
    intros i Hi. apply (HQ i). by apply elem_of_range.
Qed.

(** X8.  On a well-formed solver that is not wider than high,
    [limited_derivs] returns.  At every offset [i] that its loop visits,
    [ny_all <= i < nfield * (ny_all - 1) * nx_all], the four derivative
    vectors hold the limiter applied to the neighbours of [i] at distance
    1 in [u] and [f] and at distance [nx_all] in [u] and [g], which for a
    cell are the cells next to it along x and along y; at every other
    offset they are as before, and [u], [f], [g] and [v] are as before. *)
Theorem limited_derivs_computes s :
  wf s -> nx s <= ny s ->
  exists s', limited_derivs limdiff s = Ok s' /\
    same_except [UX; UY; FX; GY] s s' /\
    (forall n i, i < ny_all s \/ nfield * (ny_all s - 1) * nx_all s <= i ->
       at_ (vec n s') i = at_ (vec n s) i) /\
    (forall k ix iy,
       ny_all s <= offset s k ix iy < nfield * (ny_all s - 1) * nx_all s ->
       cell UX s' k ix iy =
         limdiff (cell U s k (ix - 1) iy) (cell U s k ix iy) (cell U s k (ix + 1) iy) /\
       cell FX s' k ix iy =
         limdiff (cell F s k (ix - 1) iy) (cell F s k ix iy) (cell F s k (ix + 1) iy) /\
       cell UY s' k ix iy =
         limdiff (cell U s k ix (iy - 1)) (cell U s k ix iy) (cell U s k ix (iy + 1)) /\
       cell GY s' k ix iy =
         limdiff (cell G s k ix (iy - 1)) (cell G s k ix iy) (cell G s k ix (iy + 1))).
Proof.
  intros Hwf Hle.
  destruct (limited_derivs_flat s Hwf Hle) as (s' & Hs' & HI & Hflat).
  exists s'. split; [exact Hs'|]. split; [exact HI|]. split.
  - intros n i Hi. by apply (limited_derivs_untouched limdiff s s').
  - intros k ix iy Hi. unfold cell.
    rewrite !(offset_params s s') by apply HI.
    replace (offset s k (ix - 1) iy) with (offset s k ix iy - 1)
      by (unfold offset; ring).
    replace (offset s k (ix + 1) iy) with (offset s k ix iy + 1)
      by (unfold offset; ring).
    replace (offset s k ix (iy - 1)) with (offset s k ix iy - nx_all s)
      by (unfold offset; ring).
    replace (offset s k ix (iy + 1)) with (offset s k ix iy + nx_all s)
      by (unfold offset; ring).
    apply (Hflat _ Hi).
Qed.

(** X9.  On every well-formed solver that is wider than high,
    [limited_derivs] stops at its first iteration: the loop starts at
    [ny_all], and [u_[i - nx_all]] is then a subscript before the start
    of [u_]. *)
Theorem limited_derivs_wide_grid s :
  wf s -> ny s < nx s -> limited_derivs limdiff s = Fault OutOfBounds.
Proof.
  intros Hwf Hlt. apply limited_derivs_out_of_bounds; [done|].
  rewrite (wf_nx_all s Hwf), (wf_ny_all s Hwf). lia.
Qed.

(** X10.  The rows that the loop of [limited_derivs] leaves out.  When
    [limited_derivs] returns, the derivative vectors are as before in the
    rows [ny_all - 3] to [ny_all - 1] of the last field, and in every cell
    of the first field whose offset is below [ny_all], where the loop
    starts. *)
Theorem limited_derivs_rows_left_out s s' n :
  wf s -> limited_derivs limdiff s = Ok s' ->
  (forall ix iy, 0 <= ix < nx_all s -> ny_all s - 3 <= iy < ny_all s ->
     cell n s' (nfield - 1) ix iy = cell n s (nfield - 1) ix iy) /\
  (forall ix iy, 0 <= ix < nx_all s -> 0 <= iy ->
     iy * nx_all s + ix < ny_all s ->
     cell n s' 0 ix iy = cell n s 0 ix iy).
Proof.
  intros Hwf Hrun. split.
  - intros ix iy Hx Hy. by apply (limited_derivs_skips_last_rows limdiff).
  - intros ix iy Hx Hy Hlt. unfold cell.
    rewrite (offset_params s s')
      by (by apply limited_derivs_params in Hrun).
    apply (limited_derivs_untouched limdiff s s'); [done|]. left.
    unfold offset. lia.
Qed.
End LimitedDerivsSpec.

(** * Fluxes and wave speeds at the start of a half-step *)

Section Speeds.
Context {real : Type} {RO : RealOps real}.
Implicit Types (s m : Central2D real).

(** X11.  When [compute_fg_speeds] returns on a well-formed solver, [f]
    and [g] hold at every cell of the padded grid, ghost cells included,
    the two fluxes of the values of [u] at that cell: the momenta in the
    first field, and the momentum fluxes, which divide by the height, in
    the other two.  Every height has a defined inverse, and nothing but
    [f] and [g] has changed. *)
Theorem compute_fg_speeds_fluxes s s' cxy :
  wf s -> compute_fg_speeds s = Ok (s', cxy) ->
  same_except [F; G] s s' /\
  forall ix iy, 0 <= ix < nx_all s -> 0 <= iy < ny_all s ->
    let h := cell U s 0 ix iy in
    let hu := cell U s 1 ix iy in
    let hv := cell U s 2 ix iy in
    is_Some (rdiv (rlit 1) h) /\
    cell F s' 0 ix iy = hu /\
    cell F s' 1 ix iy = flux_x_hu h hu hv /\
    cell F s' 2 ix iy = flux_xy h hu hv /\
    cell G s' 0 ix iy = hv /\
    cell G s' 1 ix iy = flux_xy h hu hv /\
    cell G s' 2 ix iy = flux_y_hv h hu hv.
Proof.
  intros Hwf Hrun.
  pose proof (wf_nx s Hwf) as Hnx. pose proof (wf_ny s Hwf) as Hny.
  pose proof (wf_nx_all s Hwf) as Hxa. pose proof (wf_ny_all s Hwf) as Hya.
  pose proof (wf_len s Hwf U) as HlU. pose proof (wf_len s Hwf F) as HlF.
  pose proof (wf_len s Hwf G) as HlG. simpl in HlU, HlF, HlG.
  unfold nfield, Shallow2D.nfield, nghost in *.
  unfold compute_fg_speeds in Hrun.
  apply bind_Ok in Hrun as ([f g] & Hflux & Hrun).
  apply bind_Ok in Hrun as (c & _ & [= <- _]).
  set (st := nx_all s * ny_all s) in *.
  assert (Hst : 0 <= st) by (unfold st; nia).
  pose proof (flux_Ok_defined _ _ _ _ _ _ _ _ _ Hflux) as Hdef.
  destruct (flux_spec (f_ s) (g_ s) (u_ s) 0 0 0 st st) as (f' & g' & Hf & Hpost);
    try lia; [exact Hdef|].
  rewrite Hflux in Hf. injection Hf as <- <-.
  destruct Hpost as (Hlf & Hlg & Hval & _).
  split.
  - apply same_except_set; [|vec_in|done].
    apply same_except_set; [apply same_except_refl|vec_in|done].
  - intros ix iy Hx Hy. unfold cell.
    rewrite !(offset_params s (set_vec G g (set_vec F f s)))
      by (by rewrite !params_set_vec).
    rewrite vec_set_vec_eq, vec_set_vec_ne, vec_set_vec_eq by discriminate.
    assert (Hi : 0 <= iy * nx_all s + ix < st) by (unfold st; nia).
    specialize (Hval _ Hi). specialize (Hdef _ Hi). cbv zeta in Hval.
    replace (offset s 0 ix iy) with (0 + (iy * nx_all s + ix))
      by (unfold offset; ring).
    replace (offset s 1 ix iy) with (0 + st + (iy * nx_all s + ix))
      by (unfold offset, st; ring).
    replace (offset s 2 ix iy) with (0 + 2 * st + (iy * nx_all s + ix))
      by (unfold offset, st; ring).
    cbv zeta. simpl vec. tauto.
Qed.

(** X12.  [flux] writes the three runs of each output and nothing else.
    When a call returns (the runs being inside the vectors and not
    overlapping), both outputs have the length they had and hold their
    old values outside the runs of [ncell] cells that start at the three
    field pointers; the flux of x-momentum along y and the flux of
    y-momentum along x are the same numbers; and a call on an empty run
    changes nothing. *)
Theorem flux_writes_runs_only (FU GU U : list real) pf pg pu ncell stride FU' GU' :
  0 <= ncell <= stride ->
  0 <= pf -> pf + 2 * stride + ncell <= Z.of_nat (length FU) ->
  0 <= pg -> pg + 2 * stride + ncell <= Z.of_nat (length GU) ->
  0 <= pu -> pu + 2 * stride + ncell <= Z.of_nat (length U) ->
  Shallow2D.flux FU GU U pf pg pu ncell stride = Ok (FU', GU') ->
  length FU' = length FU /\ length GU' = length GU /\
  (forall i, ~ in_runs pf ncell stride i -> at_ FU' i = at_ FU i) /\
  (forall i, ~ in_runs pg ncell stride i -> at_ GU' i = at_ GU i) /\
  (forall i, 0 <= i < ncell ->
     at_ FU' (pf + 2 * stride + i) = at_ GU' (pg + stride + i)) /\
  (ncell = 0 -> FU' = FU /\ GU' = GU).
Proof.
  intros Hn Hpf HF Hpg HG Hpu HU Hrun.
  pose proof (flux_Ok_defined _ _ _ _ _ _ _ _ _ Hrun) as Hdef.
  destruct (flux_spec FU GU U pf pg pu ncell stride) as (f' & g' & Hf & Hpost);
    try done.
  rewrite Hrun in Hf. injection Hf as <- <-.
  destruct Hpost as (Hlf & Hlg & Hval & Hframe_f & Hframe_g).
  split_and!; try done.
  - intros i Hi. destruct (Hval i Hi) as (_ & _ & -> & _ & -> & _). done.
  - intros ->. split; apply at_ext; try done.
    + intros i _. apply Hframe_f. unfold in_runs. lia.
    + intros i _. apply Hframe_g. unfold in_runs. lia.
Qed.
End Speeds.

Section SpeedBound.
Local Open Scope Q_scope.
Implicit Types (U : list Q).

Lemma Q_rsqrt_Some (x r : Q) : rsqrt x = Some r -> 0 <= x /\ r = Qsqrt_floor x.
Proof.
  simpl. destruct (Qle_bool 0 x) eqn:E; [|discriminate].
  intros [= <-]. by apply Qle_bool_iff in E.
Qed.

(** The loop of [wave_speed] over any list of cells. *)
Lemma wave_speed_loop U (h hu hv : Z) (l : list Z) (cxy c : Q * Q) :
  forM l (Shallow2D.wave_speed_cell U h hu hv) cxy = Ok c ->
  cxy.1 <= c.1 /\ cxy.2 <= c.2 /\
  forall i, i ∈ l ->
    ~ at_ U (h + i) == 0 /\ 0 <= Shallow2D.g * at_ U (h + i) /\
    Qabs (at_ U (hu + i) / at_ U (h + i))
      + Qsqrt_floor (Shallow2D.g *! at_ U (h + i)) <= c.1 /\
    Qabs (at_ U (hv + i) / at_ U (h + i))
      + Qsqrt_floor (Shallow2D.g *! at_ U (h + i)) <= c.2.
Proof.
  revert cxy. induction l as [|i l IH]; intros [cx cy]; cbn [forM].
  - intros [= <-]. split_and!; try apply Qle_refl.
    intros i Hi. by apply elem_of_nil in Hi.
  - intros ([cx1 cy1] & Hcell & Hrest)%bind_Ok.
    destruct (IH _ Hrest) as (Hx & Hy & Hall). cbn [fst snd] in *.
    unfold Shallow2D.wave_speed_cell in Hcell.
    apply bind_Ok in Hcell as (hi & [_ ->]%rd_Ok_inv & Hcell).
    apply bind_Ok in Hcell as (hui & [_ ->]%rd_Ok_inv & Hcell).
    apply bind_Ok in Hcell as (hvi & [_ ->]%rd_Ok_inv & Hcell).
    apply bind_Ok in Hcell as (r & Hr & Hcell).
    apply bind_Ok in Hcell as (qx & Hqx & Hcell).
    apply bind_Ok in Hcell as (qy & Hqy & [= <- <-]).
    destruct (rdiv (at_ U (hu + i)) (at_ U (h + i))) as [qx'|] eqn:Ex;
      [|discriminate]. cbn [lift] in Hqx. injection Hqx as ->.
    destruct (rdiv (at_ U (hv + i)) (at_ U (h + i))) as [qy'|] eqn:Ey;
      [|discriminate]. cbn [lift] in Hqy. injection Hqy as ->.
    apply Q_rdiv_Some in Ex as [Hnz Ex]. apply Q_rdiv_Some in Ey as [_ Ey].
    assert (Hroot : 0 <= Shallow2D.g * at_ U (h + i) /\
              r = Qsqrt_floor (Shallow2D.g *! at_ U (h + i))).
    { destruct (rsqrt (Shallow2D.g *! at_ U (h + i))) as [r'|] eqn:Er;
        [|discriminate]. cbn [lift] in Hr. injection Hr as ->.
      apply Q_rsqrt_Some in Er as [Hge ->]. rewrite Q_rmul in Hge. done. }
    destruct Hroot as [Hge ->].
    split_and!.
    + eapply Qle_trans; [apply Q_std_max_le|exact Hx].
    + eapply Qle_trans; [apply Q_std_max_le|exact Hy].
    + intros j [->|Hj]%elem_of_cons; [|by apply Hall].
      split_and!; try done.
      * eapply Qle_trans; [|exact Hx]. rewrite Q_std_max, Qred_correct, Ex.
        apply Q.le_max_r.
      * eapply Qle_trans; [|exact Hy]. rewrite Q_std_max, Qred_correct, Ey.
        apply Q.le_max_r.
Qed.

(** X13, in exact arithmetic.  When [wave_speed] returns, the pair it
    returns bounds the speed of every cell it has read: in each direction
    the returned value is at least the value passed in and at least
    [|hu/h| + sqrt(g h)] (resp. [|hv/h| + sqrt(g h)]), the root being the
    one the arithmetic gives, of every cell of the run, whose height is
    not zero and has a defined root. *)
Theorem wave_speed_bounds_every_cell (cxy c : Q * Q) U (pu ncell st : Z) :
  Shallow2D.wave_speed cxy U pu ncell st = Ok c ->
  cxy.1 <= c.1 /\ cxy.2 <= c.2 /\
  forall i, (0 <= i < ncell)%Z ->
    let h := at_ U (pu + i) in
    let hu := at_ U (pu + st + i) in
    let hv := at_ U (pu + 2 * st + i) in
    ~ h == 0 /\ 0 <= Shallow2D.g * h /\
    Qabs (hu / h) + Qsqrt_floor (Shallow2D.g *! h) <= c.1 /\
    Qabs (hv / h) + Qsqrt_floor (Shallow2D.g *! h) <= c.2.
Proof.
  unfold Shallow2D.wave_speed. intros Hrun.
  destruct (wave_speed_loop _ _ _ _ _ _ _ Hrun) as (Hx & Hy & Hall).
  split_and!; try done.
  intros i Hi. apply Hall. by apply elem_of_range.
Qed.
End SpeedBound.

(** * The frame of a half-step and the shape kept by [run] *)

Section FrameResults.
Context {real : Type} {RO : RealOps real}.
Variable limdiff : real -> real -> real -> real.
Implicit Types (s m : Central2D real) (st : @run_state real).

(** X14.  A half-step assigns to [u], [v], [f] and [g] only.  Whatever
    the solver and the arguments, when [compute_step] returns the four
    derivative vectors, the [const] members and the length of every vector
    are as before. *)
Theorem compute_step_frame io dt s s' :
  compute_step io dt s = Ok s' ->
  ux_ s' = ux_ s /\ uy_ s' = uy_ s /\ fx_ s' = fx_ s /\ gy_ s' = gy_ s /\
  params s' = params s /\
  forall n, length (vec n s') = length (vec n s).
Proof.
  intros (Hp & Hv & Hl)%compute_step_same_except.
  split_and!; try done.
  - apply (Hv UX). vec_notin.
  - apply (Hv UY). vec_notin.
  - apply (Hv FX). vec_notin.
  - apply (Hv GY). vec_notin.
Qed.

(** X15.  [run] keeps the shape of the solver.  When a call of [run]
    returns, the size accessors and the dimension accessors give what
    they gave before the call, every vector has the length it had, and a
    well-formed solver is still well-formed. *)
Theorem run_keeps_shape fuel tfinal s st' :
  run limdiff fuel tfinal s = Ok st' ->
  xsize (run_sim st') = xsize s /\ ysize (run_sim st') = ysize s /\
  get_dx (run_sim st') = get_dx s /\ get_dy (run_sim st') = get_dy s /\
  cfl (run_sim st') = cfl s /\
  (forall n, length (vec n (run_sim st')) = length (vec n s)) /\
  (wf s -> wf (run_sim st')).
Proof.
  unfold run. intros [Hp Hl]%run_loop_shape. simpl in Hp, Hl.
  assert (Hp' := Hp). unfold params in Hp'.
  injection Hp' as Hnx Hny Hxa Hya Hdx Hdy Hcfl.
  unfold xsize, ysize, get_dx, get_dy. split_and!; try done.
  intros [H1 H2 H3 H4 H5]. constructor; [congruence..|].
  intros n. rewrite Hl, Hxa, Hya. apply H5.
Qed.
End FrameResults.

(** * The time reached by [run] *)

Section RunTime.
Local Open Scope Q_scope.
Variable limdiff : Q -> Q -> Q -> Q.
Implicit Types (s : Central2D Q) (st : @run_state Q).

(** [done] is set only where the step is cut to land on [tfinal]. *)
Lemma choose_dt_done s cxy (t tfinal dt : Q) :
  choose_dt s cxy t tfinal false = Ok (dt, true) -> dt == (tfinal - t) / 2.
Proof.
  unfold choose_dt.
  intros (qx & _ & (qy & _ & (dt0 & _ & H)%bind_Ok)%bind_Ok)%bind_Ok.
  destruct (t +! rlit 2 *! dt0 >=! tfinal); [|discriminate].
  apply bind_Ok in H as (dt' & Hdt & [= <-]).
  destruct (rdiv (tfinal -! t) (rlit 2)) as [q|] eqn:E; [|discriminate].
  cbn [lift] in Hdt. injection Hdt as ->.
  apply Q_rdiv_Some in E as [_ E]. by rewrite E, Q_rsub, Q_rlit.
Qed.

Lemma macro_step_lands tfinal st st' :
  run_done st = false -> macro_step limdiff tfinal st = Ok st' ->
  run_done st' = true ->
  run_dt st' == (tfinal - run_t st) / 2 /\ run_t st' == tfinal.
Proof.
  intros Hnd Hm Hd. rewrite macro_step_unfold in Hm.
  apply bind_Ok in Hm as (st1 & H0 & H1).
  apply half_step_even in H0 as (s1 & s2 & s3 & cxy & _ & _ & _ & Hdt & Ht1).
  apply half_step_odd in H1 as (Edt & Edone & Et).
  rewrite Hnd, <- Edone, Hd in Hdt. apply choose_dt_done in Hdt.
  rewrite Edt. split; [exact Hdt|].
  rewrite Et, Ht1, !Q_radd, Hdt. field.
Qed.

(** X16, in exact arithmetic.  A call of [run] that returns has advanced
    the time by [tfinal] exactly: the loop ends with [done] set, the last
    pair of half-steps has the size that was left to [tfinal] halved, and
    the time it reaches is [tfinal]. *)
Theorem run_reaches_tfinal fuel (tfinal : Q) s st' :
  run limdiff fuel tfinal s = Ok st' ->
  run_done st' = true /\ run_t st' == tfinal.
Proof.
  unfold run.
  assert (Hgen : forall st, run_done st = false ->
            run_loop limdiff fuel tfinal st = Ok st' ->
            run_done st' = true /\ run_t st' == tfinal).
  { induction fuel as [|fuel IH]; intros st Hnd; simpl; [discriminate|].
    intros (st1 & Hm & Hrest)%bind_Ok.
    destruct (run_done st1) eqn:Hd1.
    - injection Hrest as <-. split; [exact Hd1|].
      by apply (macro_step_lands tfinal st st1).
    - by apply (IH st1). }
  by apply Hgen.
Qed.

(** X17, in exact arithmetic.  [run] does not test the sign of [tfinal].
    On a solver with positive cell sizes and a CFL number that is not
    negative, a call with [tfinal <= 0] that returns has made exactly one
    pair of half-steps, of size [tfinal / 2] each: of size zero for
    [tfinal = 0], backwards in time for a negative [tfinal]. *)
Theorem run_nonpositive_duration fuel (tfinal : Q) s st' :
  0 < dx s -> 0 < dy s -> 0 <= cfl s -> tfinal <= 0 ->
  run limdiff fuel tfinal s = Ok st' ->
  run_log st' = [(0%Z, run_dt st'); (1%Z, run_dt st')] /\
  run_dt st' == tfinal / 2 /\ run_t st' == tfinal.
Proof.
  intros Hdx Hdy Hcfl Htf. unfold run.
  destruct fuel as [|fuel]; cbn [run_loop]; [discriminate|].
  intros (st1 & Hm & Hrest)%bind_Ok.
  assert (Hd1 : run_done st1 = true).
  { pose proof Hm as Hm'. rewrite macro_step_unfold in Hm'.
    apply bind_Ok in Hm' as (st0 & H0 & H1).
    apply half_step_even in H0 as (s1 & s2 & s3 & [cx cy] & _ & Hsp & Hp & Hdt & _).
    apply half_step_odd in H1 as (_ & -> & _).
    apply compute_fg_speeds_floor in Hsp as [Hcx Hcy].
    cbn [run_sim run_t run_done] in Hp, Hdt.
    assert (Hp' := Hp). unfold params in Hp'.
    injection Hp' as _ _ _ _ Edx Edy Ecfl.
    apply choose_dt_spec in Hdt as (Hcut & _ & _);
      [|rewrite Edx; exact Hdx|rewrite Edy; exact Hdy
       |eapply Qlt_le_trans; [|exact Hcx]; reflexivity
       |eapply Qlt_le_trans; [|exact Hcy]; reflexivity].
    apply Hcut. rewrite Edx, Edy, Ecfl, Q_rlit.
    assert (Hm0 : 0 < Qmax (cx / dx s) (cy / dy s)).
    { eapply Qlt_le_trans; [|apply Q.le_max_l].
      apply Qlt_shift_div_l; [exact Hdx|]. rewrite Qmult_0_l.
      eapply Qlt_le_trans; [|exact Hcx]. reflexivity. }
    assert (Hdt0 : 0 <= cfl s / Qmax (cx / dx s) (cy / dy s)).
    { apply Qle_shift_div_l; [exact Hm0|]. by rewrite Qmult_0_l. }
    eapply Qle_trans; [exact Htf|].
    rewrite Qplus_0_l.
    apply Qmult_le_0_compat; [discriminate|exact Hdt0]. }
  rewrite Hd1 in Hrest. injection Hrest as <-.
  destruct (macro_step_lands tfinal (mkRun s (rlit 0) (rlit 0) false []) st1
              eq_refl Hm Hd1) as [Edt Et].
  cbn [run_t] in Edt.
  split_and!.
  - by apply macro_step_log in Hm.
  - rewrite Edt, Q_rlit. field.
  - exact Et.
Qed.
(** One pass of the loop of [run], entered before [tfinal]. *)
Lemma macro_step_forward (tfinal : Q) st st' :
  0 < dx (run_sim st) -> 0 < dy (run_sim st) -> 0 <= cfl (run_sim st) ->
  run_t st <= tfinal ->
  macro_step limdiff tfinal st = Ok st' ->
  0 <= run_dt st' /\
  run_t st' == run_t st + run_dt st' + run_dt st' /\
  run_t st' <= tfinal.
Proof.
  intros Hdx Hdy Hcfl Ht Hm. rewrite macro_step_unfold in Hm.
  apply bind_Ok in Hm as (st1 & H0 & H1).
  apply half_step_even in H0 as (s1 & s2 & s3 & [cx cy] & _ & Hsp & Hp & Hdt & Ht1).
  apply half_step_odd in H1 as (Edt & _ & Et).
  apply compute_fg_speeds_floor in Hsp as [Hcx Hcy].
  assert (Hp' := Hp). unfold params in Hp'.
  injection Hp' as _ _ _ _ Edx Edy Ecfl.
  apply choose_dt_spec in Hdt as (Hcut & Hkeep & _);
    [|rewrite Edx; exact Hdx|rewrite Edy; exact Hdy
     |eapply Qlt_le_trans; [|exact Hcx]; reflexivity
     |eapply Qlt_le_trans; [|exact Hcy]; reflexivity].
  rewrite Edx, Edy, Ecfl in Hcut, Hkeep.
  set (m := Qmax (cx / dx (run_sim st)) (cy / dy (run_sim st))) in *.
  assert (Hm0 : 0 < m).
  { eapply Qlt_le_trans; [|apply Q.le_max_l].
    apply Qlt_shift_div_l; [exact Hdx|]. rewrite Qmult_0_l.
    eapply Qlt_le_trans; [|exact Hcx]. reflexivity. }
  assert (Hdt0 : 0 <= cfl (run_sim st) / m).
  { apply Qle_shift_div_l; [exact Hm0|]. by rewrite Qmult_0_l. }
  assert (Hsum : run_t st' == run_t st + run_dt st1 + run_dt st1)
    by (by rewrite Et, Ht1, !Q_radd).
  rewrite Edt.
  destruct (Qlt_le_dec (run_t st + 2 * (cfl (run_sim st) / m)) tfinal) as [Hlt|Hle].
  - destruct (Hkeep Hlt) as [E _]. split_and!.
    + by rewrite E.
    + exact Hsum.
    + rewrite Hsum, E. apply Qlt_le_weak.
      eapply Qle_lt_trans; [|exact Hlt]. apply Qle_lteq. right. ring.
  - destruct (Hcut Hle) as [E _]. split_and!.
    + rewrite E. apply Qle_shift_div_l; [reflexivity|].
      rewrite Qmult_0_l. by apply -> Qle_minus_iff.
    + exact Hsum.
    + rewrite Hsum, E. apply Qle_lteq. right. field.
Qed.

(** X18, in exact arithmetic.  A run to a time that is not negative only
    steps forward.  On a solver with positive cell sizes and a CFL number
    that is not negative, when [run(tfinal)] with [0 <= tfinal] returns,
    no half-step it has made has a negative size: the time never
    decreases, and the sizes of all the half-steps add up to [tfinal]. *)
Theorem run_steps_forward fuel (tfinal : Q) s st' :
  0 < dx s -> 0 < dy s -> 0 <= cfl s -> 0 <= tfinal ->
  run limdiff fuel tfinal s = Ok st' ->
  (forall io dt, (io, dt) ∈ run_log st' -> 0 <= dt) /\
  fold_left (fun acc (e : Z * Q) => acc + e.2) (run_log st') 0 == tfinal.
Proof.
  intros Hdx Hdy Hcfl Htf Hrun.
  assert (Hgen : forall st,
            run_done st = false ->
            params (run_sim st) = params s -> run_t st <= tfinal ->
            (forall io dt, (io, dt) ∈ run_log st -> 0 <= dt) ->
            fold_left (fun acc (e : Z * Q) => acc + e.2) (run_log st) 0 == run_t st ->
            run_loop limdiff fuel tfinal st = Ok st' ->
            (forall io dt, (io, dt) ∈ run_log st' -> 0 <= dt) /\
            fold_left (fun acc (e : Z * Q) => acc + e.2) (run_log st') 0
              == tfinal).
  { clear Hrun.
    induction fuel as [|fuel IH]; intros st Hnd Hp Ht Hpos Hsum; cbn [run_loop];
      [discriminate|].
    intros (st1 & Hm & Hrest)%bind_Ok.
    assert (Hp' := Hp). unfold params in Hp'.
    injection Hp' as _ _ _ _ Edx Edy Ecfl.
    destruct (macro_step_forward tfinal st st1) as (Hdt & Ht1 & Hle1);
      [by rewrite Edx|by rewrite Edy|by rewrite Ecfl|done|done|].
    pose proof (macro_step_log limdiff tfinal st st1 Hm) as Hlog.
    pose proof (macro_step_shape limdiff tfinal st st1 Hm) as [Hp1 _].
    assert (Hpos1 : forall io dt, (io, dt) ∈ run_log st1 -> 0 <= dt).
    { intros io dt. rewrite Hlog.
      intros [Hin|Hin]%elem_of_app; [by eapply Hpos|].
      apply elem_of_cons in Hin as [[= _ ->]|Hin]; [done|].
      apply list_elem_of_singleton in Hin as [= _ ->]. done. }
    assert (Hsum1 : fold_left (fun acc (e : Z * Q) => acc + e.2) (run_log st1) 0
                    == run_t st1).
    { rewrite Hlog, fold_left_app. cbn [fold_left snd]. by rewrite Hsum, Ht1. }
    destruct (run_done st1) eqn:Hd1.
    - injection Hrest as <-. split; [exact Hpos1|]. rewrite Hsum1.
      by apply (macro_step_lands tfinal st st1).
    - apply (IH st1); [done|congruence|done..]. }
  apply (Hgen (mkRun s (rlit 0) (rlit 0) false []));
    cbn [run_sim run_t run_log run_done fold_left];
    [done|done|by rewrite Q_rlit|intros io dt Hin; by apply elem_of_nil in Hin
     |by rewrite Q_rlit|exact Hrun].
Qed.
End RunTime.

(** * Diagnostics and ghost cells *)

Section CheckGhosts.
Context {real : Type} {RO : RealOps real}.
Implicit Types (s m : Central2D real).

(** [solution_check] on a well-formed solver, as a function of the
    interior. *)
Lemma solution_check_interior s :
  wf s ->
  solution_check s =
    (if interior_positive s
     then Ok (mkReport (interior_sum 0 s *! (dx s *! dy s))
                       (interior_sum 1 s *! (dx s *! dy s))
                       (interior_sum 2 s *! (dx s *! dy s))
                       (interior_min s) (interior_max s))
     else Fault AssertFailed).
Proof.
  intros Hwf. unfold solution_check.
  pose proof (wf_nx_all s Hwf) as Hxa. pose proof (wf_ny_all s Hwf) as Hya.
  pose proof (wf_nx s Hwf) as Hnx. pose proof (wf_ny s Hwf) as Hny.
  assert (Hload : forall k i j, 0 <= k < nfield ->
            nghost <= i < nx s + nghost -> nghost <= j < ny s + nghost ->
            load U (offset s k i j) s = Ok (cell U s k i j)).
  { intros k i j Hk Hi Hj. apply load_Ok. rewrite (wf_len s Hwf U).
    unfold nghost in *. apply offset_bounds; [done|lia..]. }
  rewrite Hload by (unfold nfield, Shallow2D.nfield, nghost; lia).
  cbn [mbind result_bind]. rewrite forM_nest.
  rewrite (forM_check (fun ji => rlit 0 <! cell U s 0 ji.2 ji.1)
             (fun ji (a : sums) =>
                mkSums (h_sum a +! cell U s 0 ji.2 ji.1)
                       (hu_sum a +! cell U s 1 ji.2 ji.1)
                       (hv_sum a +! cell U s 2 ji.2 ji.1)
                       (std_min (cell U s 0 ji.2 ji.1) (hmin a))
                       (std_max (cell U s 0 ji.2 ji.1) (hmax a)))
             AssertFailed).
  - fold (interior_cells s). fold (interior_positive s).
    destruct (interior_positive s); [|reflexivity].
    cbn [mbind result_bind]. rewrite fold_sums. reflexivity.
  - intros [j i] a [Hj%elem_of_range Hi%elem_of_range]%elem_of_list_prod.
    cbn [fst snd] in *. unfold check_cell.
    rewrite !Hload by (unfold nfield, Shallow2D.nfield; lia).
    cbn [mbind result_bind]. reflexivity.
Qed.

Lemma fold_left_ext_in {A B : Type} (f g : A -> B -> A) (l : list B) (a : A) :
  (forall a b, b ∈ l -> f a b = g a b) -> fold_left f l a = fold_left g l a.
Proof.
  revert a. induction l as [|b l IH]; intros a Hfg; simpl; [done|].
  rewrite Hfg by constructor. apply IH. intros a' b' Hb'. apply Hfg. by constructor.
Qed.

Lemma forallb_ext_elem {A : Type} (f g : A -> bool) (l : list A) :
  (forall a, a ∈ l -> f a = g a) -> forallb f l = forallb g l.
Proof.
  induction l as [|a l IH]; intros Hfg; simpl; [done|].
  rewrite Hfg by constructor. f_equal. apply IH.
  intros a' Ha'. apply Hfg. by constructor.
Qed.

(** X19.  The diagnostics do not read ghost cells.  Two well-formed
    solvers with the same [const] members and the same interior cells of
    [u] get the same answer from [solution_check]; so the answer is the
    same before and after [apply_periodic]. *)
Theorem solution_check_ignores_ghosts s :
  wf s ->
  (forall m, wf m -> params m = params s ->
     (forall k ix iy, 0 <= k < nfield ->
        nghost <= ix < nx s + nghost -> nghost <= iy < ny s + nghost ->
        cell U m k ix iy = cell U s k ix iy) ->
     solution_check m = solution_check s) /\
  (exists s', apply_periodic s = Ok s' /\ solution_check s' = solution_check s).
Proof.
  intros Hwf.
  assert (Hsame : forall m, wf m -> params m = params s ->
     (forall k ix iy, 0 <= k < nfield ->
        nghost <= ix < nx s + nghost -> nghost <= iy < ny s + nghost ->
        cell U m k ix iy = cell U s k ix iy) ->
     solution_check m = solution_check s).
  { intros m Hwfm Hp Hcells.
    rewrite (solution_check_interior m Hwfm), (solution_check_interior s Hwf).
    assert (Hp' := Hp). unfold params in Hp'.
    injection Hp' as Hnx Hny _ _ Hdx Hdy _.
    assert (Hic : interior_cells m = interior_cells s)
      by (unfold interior_cells; by rewrite Hnx, Hny).
    assert (Hc : forall k ji, 0 <= k < nfield -> ji ∈ interior_cells s ->
              cell U m k ji.2 ji.1 = cell U s k ji.2 ji.1).
    { intros k ji Hk [Hj Hi]%elem_of_interior_cells. by apply Hcells. }
    assert (Hk0 : 0 <= 0 < nfield) by (unfold nfield, Shallow2D.nfield; lia).
    assert (Hk1 : 0 <= 1 < nfield) by (unfold nfield, Shallow2D.nfield; lia).
    assert (Hk2 : 0 <= 2 < nfield) by (unfold nfield, Shallow2D.nfield; lia).
    assert (Hpos : interior_positive m = interior_positive s).
    { unfold interior_positive. rewrite Hic.
      apply forallb_ext_elem. intros ji Hin. by rewrite Hc. }
    assert (Hsum : forall k, 0 <= k < nfield -> interior_sum k m = interior_sum k s).
    { intros k Hk. unfold interior_sum. rewrite Hic.
      apply fold_left_ext_in. intros a ji Hin. by rewrite Hc. }
    assert (H33 : cell U m 0 nghost nghost = cell U s 0 nghost nghost).
    { apply Hcells; [done|..]; pose proof (wf_nx s Hwf); pose proof (wf_ny s Hwf);
        unfold nghost; lia. }
    assert (Hmin : interior_min m = interior_min s).
    { unfold interior_min. rewrite Hic, H33.
      apply fold_left_ext_in. intros a ji Hin. by rewrite Hc. }
    assert (Hmax : interior_max m = interior_max s).
    { unfold interior_max. rewrite Hic, H33.
      apply fold_left_ext_in. intros a ji Hin. by rewrite Hc. }
    by rewrite Hpos, !Hsum, Hmin, Hmax, Hdx, Hdy. }
  split; [exact Hsame|].
  destruct (apply_periodic_total s Hwf) as (s' & Hs' & Hse & Hint).
  exists s'. split; [exact Hs'|].
  apply Hsame; [eapply same_except_wf; eauto|apply Hse|].
  intros k ix iy Hk Hx Hy. unfold cell.
  rewrite (offset_params s s') by apply Hse. simpl.
  pose proof (wf_nx_all s Hwf). pose proof (wf_ny_all s Hwf).
  specialize (Hint k ix iy Hx Hy). unfold periodic_at in Hint.
  rewrite Hint by (unfold nghost in *; lia).
  by rewrite !canonical_interior.
Qed.
End CheckGhosts.

Section CheckRange.
Local Open Scope Q_scope.
Implicit Types (s : Central2D Q).

(** X20, in exact arithmetic.  When [solution_check] returns on a
    well-formed solver, the range it reports is the range of the interior
    heights: every interior height lies between the two bounds, each
    bound is the height of some interior cell, and the lower bound is
    positive. *)
Theorem solution_check_range s r :
  wf s -> solution_check s = Ok r ->
  (forall i j, (nghost <= i < nx s + nghost)%Z -> (nghost <= j < ny s + nghost)%Z ->
     range_min r <= cell U s 0 i j <= range_max r) /\
  (exists i j, (nghost <= i < nx s + nghost)%Z /\ (nghost <= j < ny s + nghost)%Z /\
     range_min r = cell U s 0 i j) /\
  (exists i j, (nghost <= i < nx s + nghost)%Z /\ (nghost <= j < ny s + nghost)%Z /\
     range_max r = cell U s 0 i j) /\
  0 < range_min r.
Proof.
  intros Hwf Hr. rewrite (solution_check_interior s Hwf) in Hr.
  destruct (interior_positive s) eqn:Hpos; [|discriminate].
  injection Hr as <-. cbn [range_min range_max].
  destruct (interior_range_spec s Hwf) as (Hall & Hmin & Hmax).
  split_and!; try done.
  destruct Hmin as (i & j & Hi & Hj & ->).
  unfold interior_positive in Hpos. rewrite forallb_forall in Hpos.
  assert (Hin : In (j, i) (interior_cells s))
    by (by apply list_elem_of_In, elem_of_interior_cells).
  specialize (Hpos (j, i) Hin). cbn [fst snd] in Hpos.
  apply Q_rlt in Hpos. by rewrite Q_rlit in Hpos.
Qed.
End CheckRange.

(** * A uniform state *)

Section Uniform.
Local Open Scope Q_scope.
Implicit Types (s m : Central2D Q).

Ltac q_ops := cbv beta iota delta [radd rsub rmul rlit Q_ops]; rewrite ?Qred_correct.

Lemma Q_inv_of (h : Q) : ~ h == 0 -> inv_of h == 1 / h.
Proof.
  intros Hh. unfold inv_of.
  destruct (rdiv (rlit 1) h) as [q|] eqn:E.
  - apply Q_rdiv_Some in E as [_ E]. change (q == 1 / h).
    by rewrite E, Q_rlit.
  - destruct (Q_rdiv_defined (rlit 1) h Hh) as [q Hq]. congruence.
Qed.

Lemma Q_flux_x_hu (h hu hv : Q) :
  ~ h == 0 ->
  flux_x_hu h hu hv == hu * hu * (1 / h) + (1 # 2) * Shallow2D.g * h * h.
Proof.
  intros Hh. unfold flux_x_hu. q_ops. by rewrite (Q_inv_of h Hh).
Qed.

Lemma Q_flux_xy (h hu hv : Q) : ~ h == 0 -> flux_xy h hu hv == hu * hv * (1 / h).
Proof. intros Hh. unfold flux_xy. q_ops. by rewrite (Q_inv_of h Hh). Qed.

Lemma Q_flux_y_hv (h hu hv : Q) :
  ~ h == 0 ->
  flux_y_hv h hu hv == hv * hv * (1 / h) + (1 # 2) * Shallow2D.g * h * h.
Proof.
  intros Hh. unfold flux_y_hv. q_ops. by rewrite (Q_inv_of h Hh).
Qed.

(** X21, in exact arithmetic.  A uniform state is a fixed point of a
    half-step.  Take a well-formed solver with cell sizes other than zero
    in which every cell of the padded grid holds the same height [c 0],
    not zero, and the same momenta [c 1] and [c 2], and in which the four
    derivative vectors are zero.  Then [compute_step], for either parity
    and any step size, returns, and every interior cell read through
    [operator()] holds the same three values again. *)
Theorem compute_step_keeps_uniform io (dt : Q) s (c : Z -> Q) :
  wf s -> (0 <= io <= 1)%Z -> ~ dx s == 0 -> ~ dy s == 0 -> ~ c 0%Z == 0 ->
  (forall k ix iy, (0 <= k < nfield)%Z ->
     (0 <= ix < nx_all s)%Z -> (0 <= iy < ny_all s)%Z ->
     cell U s k ix iy == c k /\
     cell UX s k ix iy == 0 /\ cell UY s k ix iy == 0 /\
     cell FX s k ix iy == 0 /\ cell GY s k ix iy == 0) ->
  exists s', compute_step io dt s = Ok s' /\
    forall k i j, (0 <= k < nfield)%Z -> (0 <= i < nx s)%Z -> (0 <= j < ny s)%Z ->
      exists x, get s' k i j = Ok x /\ x == c k.
Proof.
  intros Hwf Hio Hdx Hdy Hc0 Hun.
  pose proof (wf_nx s Hwf) as Hnx. pose proof (wf_ny s Hwf) as Hny.
  pose proof (wf_nx_all s Hwf) as Hxa. pose proof (wf_ny_all s Hwf) as Hya.
  destruct (Q_rdiv_defined (rlit (1 # 2) *! dt) (dx s) Hdx) as [a Ha].
  destruct (Q_rdiv_defined (rlit (1 # 2) *! dt) (dy s) Hdy) as [b Hb].
  (* predictor *)
  destruct (predictor_spec a b s Hwf) as (s1 & H1 & Hse1 & Hpred).
  pose proof (same_except_params _ _ _ Hse1) as Hp1.
  assert (Hwf1 : wf s1) by (eapply same_except_wf; eauto).
  assert (Hg1 : nx_all s1 = nx_all s /\ ny_all s1 = ny_all s).
  { unfold params in Hp1. injection Hp1 as _ _ -> -> _ _ _. done. }
  destruct Hg1 as [Hnxa1 Hnya1].
  assert (Hv1 : forall k ix iy, (0 <= k < nfield)%Z ->
            (1 <= ix < nx_all s - 1)%Z -> (1 <= iy < ny_all s - 1)%Z ->
            cell V s1 k ix iy == c k).
  { intros k ix iy Hk Hx Hy. rewrite (cell_same_params V s s1) by done.
    cbn [vec]. rewrite Hpred by done. unfold predicted.
    destruct (Hun k ix iy Hk ltac:(lia) ltac:(lia)) as (HU & _ & _ & HFX & HGY).
    unfold cell in HU, HFX, HGY. cbn [vec] in HU, HFX, HGY.
    q_ops. rewrite HU, HFX, HGY. ring. }
  (* flux at half step *)
  destruct (half_step_flux_spec s1 Hwf1) as (s2 & H2 & Hse2 & Hflux).
  { intros ix iy Hx Hy. rewrite Hnxa1 in Hx. rewrite Hnya1 in Hy.
    apply Q_rdiv_defined.
    rewrite Hv1 by (done || unfold nfield, Shallow2D.nfield; lia). exact Hc0. }
  pose proof (same_except_params _ _ _ Hse2) as Hp2.
  assert (Hp2' : params s2 = params s) by congruence.
  assert (Hwf2 : wf s2) by (eapply same_except_wf; eauto).
  assert (Hg2 : nx s2 = nx s /\ ny s2 = ny s /\
                nx_all s2 = nx_all s /\ ny_all s2 = ny_all s).
  { unfold params in Hp2'. injection Hp2' as -> -> -> -> _ _ _. done. }
  destruct Hg2 as (Hnx2 & Hny2 & Hnxa2 & Hnya2).
  assert (Hfg : exists fv gv : Z -> Q, forall k ix iy, (0 <= k < nfield)%Z ->
            (1 <= ix < nx_all s - 1)%Z -> (1 <= iy < ny_all s - 1)%Z ->
            cell F s2 k ix iy == fv k /\ cell G s2 k ix iy == gv k).
  { exists (fun k => if (k =? 0)%Z then c 1%Z
                     else if (k =? 1)%Z
                          then c 1%Z * c 1%Z * (1 / c 0%Z)
                               + (1 # 2) * Shallow2D.g * c 0%Z * c 0%Z
                          else c 1%Z * c 2%Z * (1 / c 0%Z)),
           (fun k => if (k =? 0)%Z then c 2%Z
                     else if (k =? 1)%Z then c 1%Z * c 2%Z * (1 / c 0%Z)
                          else c 2%Z * c 2%Z * (1 / c 0%Z)
                               + (1 # 2) * Shallow2D.g * c 0%Z * c 0%Z).
    intros k ix iy Hk Hx Hy. unfold nfield, Shallow2D.nfield in Hk.
    destruct (Hflux ix iy ltac:(lia) ltac:(lia))
      as (F0 & F1 & F2 & G0 & G1 & G2).
    pose proof (Hv1 0%Z ix iy ltac:(unfold nfield, Shallow2D.nfield; lia) Hx Hy) as E0.
    pose proof (Hv1 1%Z ix iy ltac:(unfold nfield, Shallow2D.nfield; lia) Hx Hy) as E1.
    pose proof (Hv1 2%Z ix iy ltac:(unfold nfield, Shallow2D.nfield; lia) Hx Hy) as E2.
    assert (Hh : ~ cell V s1 0 ix iy == 0) by (by rewrite E0).
    assert (Hk' : k = 0%Z \/ k = 1%Z \/ k = 2%Z) by lia.
    destruct Hk' as [-> | [-> | ->]]; cbn [Z.eqb Pos.eqb].
    - rewrite F0, G0, E1, E2. done.
    - rewrite F1, G1, Q_flux_x_hu, Q_flux_xy, E0, E1, E2 by done. done.
    - rewrite F2, G2, Q_flux_xy, Q_flux_y_hv, E0, E1, E2 by done. done. }
  destruct Hfg as (fv & gv & Hfg).
  (* corrector *)
  destruct (corrector_spec io a b s2 Hwf2 Hio) as (s3 & H3 & Hse3 & Hcorr & _).
  pose proof (same_except_params _ _ _ Hse3) as Hp3.
  assert (Hp3' : params s3 = params s) by congruence.
  assert (Hwf3 : wf s3) by (eapply same_except_wf; eauto).
  assert (Hg3 : nx s3 = nx s /\ ny s3 = ny s /\
                nx_all s3 = nx_all s /\ ny_all s3 = ny_all s).
  { unfold params in Hp3'. injection Hp3' as -> -> -> -> _ _ _. done. }
  destruct Hg3 as (Hnx3 & Hny3 & Hnxa3 & Hnya3).
  assert (Hsame : forall n, n <> F -> n <> G -> n <> V -> vec n s2 = vec n s).
  { intros n HnF HnG HnV.
    rewrite (same_except_vec _ _ _ n Hse2), (same_except_vec _ _ _ n Hse1); [done|..].
    - intros ->%list_elem_of_singleton. done.
    - intros [->|[->|Hn]%elem_of_cons]%elem_of_cons; [done..|].
      by apply elem_of_nil in Hn. }
  assert (Hv3 : forall k ix iy, (0 <= k < nfield)%Z ->
            (nghost - io <= ix < nx s + nghost - io)%Z ->
            (nghost - io <= iy < ny s + nghost - io)%Z ->
            cell V s3 k ix iy == c k).
  { intros k ix iy Hk Hx Hy. unfold nghost in *.
    rewrite (cell_same_params V s2 s3) by done. cbn [vec].
    rewrite Hcorr by (rewrite ?Hnx2, ?Hny2; unfold nghost; lia).
    unfold corrected.
    rewrite <- !offset_north_east, <- !offset_north, <- !offset_east.
    rewrite !(offset_params s s2) by done.
    change (u_ s2) with (vec U s2). change (ux_ s2) with (vec UX s2).
    change (uy_ s2) with (vec UY s2).
    rewrite !Hsame by discriminate.
    change (f_ s2) with (vec F s2). change (g_ s2) with (vec G s2).
    destruct (Hun k ix iy Hk ltac:(lia) ltac:(lia)) as (U00 & X00 & Y00 & _).
    destruct (Hun k (ix + 1)%Z iy Hk ltac:(lia) ltac:(lia)) as (U10 & X10 & Y10 & _).
    destruct (Hun k ix (iy + 1)%Z Hk ltac:(lia) ltac:(lia)) as (U01 & X01 & Y01 & _).
    destruct (Hun k (ix + 1)%Z (iy + 1)%Z Hk ltac:(lia) ltac:(lia))
      as (U11 & X11 & Y11 & _).
    destruct (Hfg k ix iy Hk ltac:(lia) ltac:(lia)) as (F00 & G00).
    destruct (Hfg k (ix + 1)%Z iy Hk ltac:(lia) ltac:(lia)) as (F10 & G10).
    destruct (Hfg k ix (iy + 1)%Z Hk ltac:(lia) ltac:(lia)) as (F01 & G01).
    destruct (Hfg k (ix + 1)%Z (iy + 1)%Z Hk ltac:(lia) ltac:(lia)) as (F11 & G11).
    unfold cell in *. rewrite !(offset_params s s2) in * by done.
    q_ops.
    rewrite U00, U10, U01, U11, X00, X10, X01, X11, Y00, Y10, Y01, Y11,
      F00, F10, F01, F11, G00, G10, G01, G11.
    ring. }
  (* copy back *)
  destruct (copy_back_spec io s3 Hwf3 Hio) as (s' & H4 & Hse4 & Hcopy & _).
  pose proof (same_except_params _ _ _ Hse4) as Hp4.
  assert (Hp' : params s' = params s) by congruence.
  exists s'. split.
  { unfold compute_step. rewrite Ha, Hb. cbn [lift mbind result_bind].
    rewrite H1. cbn [mbind result_bind]. rewrite H2. cbn [mbind result_bind].
    rewrite H3. cbn [mbind result_bind]. exact H4. }
  intros k i j Hk Hi Hj. unfold nghost in *.
  assert (Hb' : (0 <= offset s k (i + 3) (j + 3) < nfield * nx_all s * ny_all s)%Z)
    by (apply offset_bounds; [done|lia..]).
  assert (Hlen : Z.of_nat (length (vec U s')) = (nfield * nx_all s * ny_all s)%Z).
  { destruct Hse4 as (_ & _ & Hl). rewrite Hl, (wf_len s3 Hwf3 U), Hnxa3, Hnya3. done. }
  unfold get, nghost. rewrite (offset_params s s') by done.
  rewrite load_Ok by lia. eexists. split; [reflexivity|].
  replace (offset s k (i + 3) (j + 3))
    with (offset s3 k 3 3 + (j * nx_all s + i))%Z
    by (unfold offset; rewrite Hnxa3, Hnya3; ring).
  cbn [vec]. rewrite Hcopy by (rewrite ?Hny3, ?Hnxa3; nia || done).
  replace (offset s3 k (3 - io) (3 - io) + (j * nx_all s + i))%Z
    with (offset s3 k (3 - io + i) (3 - io + j))
    by (unfold offset; rewrite Hnxa3, Hnya3; ring).
  apply (Hv3 k (3 - io + i)%Z (3 - io + j)%Z); [done|lia..].
Qed.
End Uniform.

(** * Runs in an arithmetic without undefined results *)

Section Total.
Context {real : Type} {RO : RealOps real}.
Variable limdiff : real -> real -> real -> real.
Implicit Types (s m : Central2D real) (st : @run_state real).

(** As in IEEE arithmetic: every quotient and every root is a value. *)
Hypothesis rdiv_total : forall x y : real, is_Some (rdiv x y).
Hypothesis rsqrt_total : forall x : real, is_Some (rsqrt x).

Lemma wave_speed_total (cxy : real * real) (U : list real) pu ncell stride :
  0 <= ncell -> 0 <= stride -> 0 <= pu ->
  pu + 2 * stride + ncell <= Z.of_nat (length U) ->
  exists c, Shallow2D.wave_speed cxy U pu ncell stride = Ok c.
Proof.
  intros Hn Hst Hpu HU. unfold Shallow2D.wave_speed.
  destruct (forM_inv (fun _ : real * real => True) (fun _ _ => True) (range 0 ncell)
              (Shallow2D.wave_speed_cell U pu (pu + stride) (pu + 2 * stride)) cxy)
    as (c & Hc & _); [done| |by exists c].
  intros i [cx cy] Hi%elem_of_range _. unfold Shallow2D.wave_speed_cell.
  rewrite !rd_Ok by lia. cbn [mbind result_bind lift].
  destruct (rsqrt_total (Shallow2D.g *! at_ U (pu + i))) as [r ->].
  destruct (rdiv_total (at_ U (pu + stride + i)) (at_ U (pu + i))) as [qx ->].
  destruct (rdiv_total (at_ U (pu + 2 * stride + i)) (at_ U (pu + i))) as [qy ->].
  cbn [mbind result_bind lift]. eexists. split; [reflexivity|]. done.
Qed.

Lemma compute_fg_speeds_total s :
  wf s -> exists s' cxy, compute_fg_speeds s = Ok (s', cxy) /\ same_except [F; G] s s'.
Proof.
  intros Hwf.
  pose proof (wf_nx s Hwf) as Hnx. pose proof (wf_ny s Hwf) as Hny.
  pose proof (wf_nx_all s Hwf) as Hxa. pose proof (wf_ny_all s Hwf) as Hya.
  pose proof (wf_len s Hwf U) as HlU. pose proof (wf_len s Hwf F) as HlF.
  pose proof (wf_len s Hwf G) as HlG. simpl in HlU, HlF, HlG.
  unfold nfield, Shallow2D.nfield, nghost in *.
  assert (Hst : 0 <= nx_all s * ny_all s) by nia.
  destruct (flux_spec (f_ s) (g_ s) (u_ s) 0 0 0 (nx_all s * ny_all s)
              (nx_all s * ny_all s)) as (f' & g' & Hf & _); try lia.
  { intros i _. apply rdiv_total. }
  destruct (wave_speed_total
              (rlit (1 # 1000000000000000), rlit (1 # 1000000000000000))
              (u_ s) 0 (nx_all s * ny_all s) (nx_all s * ny_all s))
    as (c & Hc); try lia.
  assert (Hrun : compute_fg_speeds s = Ok (set_vec G g' (set_vec F f' s), c)).
  { unfold compute_fg_speeds. rewrite Hf. cbn [mbind result_bind].
    assert (Hu : u_ (set_vec G g' (set_vec F f' s)) = u_ s) by (by destruct s).
    assert (Hg : nx_all (set_vec G g' (set_vec F f' s)) = nx_all s
              /\ ny_all (set_vec G g' (set_vec F f' s)) = ny_all s)
      by (by destruct s).
    destruct Hg as [-> ->]. rewrite Hu, Hc. reflexivity. }
  eexists _, _. split; [exact Hrun|].
  by apply compute_fg_speeds_same_except in Hrun.
Qed.

Lemma compute_step_total io dt s :
  wf s -> 0 <= io <= 1 ->
  exists s', compute_step io dt s = Ok s' /\ same_except [U; V; F; G] s s'.
Proof.
  intros Hwf Hio.
  destruct (rdiv_total (rlit (1 # 2) *! dt) (dx s)) as [a Ha].
  destruct (rdiv_total (rlit (1 # 2) *! dt) (dy s)) as [b Hb].
  destruct (predictor_spec a b s Hwf) as (s1 & H1 & Hse1 & _).
  assert (Hwf1 : wf s1) by (eapply same_except_wf; eauto).
  destruct (half_step_flux_spec s1 Hwf1) as (s2 & H2 & Hse2 & _).
  { intros ix iy _ _. apply rdiv_total. }
  assert (Hwf2 : wf s2) by (eapply same_except_wf; eauto).
  destruct (corrector_spec io a b s2 Hwf2 Hio) as (s3 & H3 & Hse3 & _).
  assert (Hwf3 : wf s3) by (eapply same_except_wf; eauto).
  destruct (copy_back_spec io s3 Hwf3 Hio) as (s' & H4 & _).
  assert (Hrun : compute_step io dt s = Ok s').
  { unfold compute_step. rewrite Ha, Hb. cbn [lift mbind result_bind].
    rewrite H1. cbn [mbind result_bind]. rewrite H2. cbn [mbind result_bind].
    rewrite H3. cbn [mbind result_bind]. exact H4. }
  exists s'. split; [exact Hrun|]. by apply compute_step_same_except in Hrun.
Qed.

Lemma choose_dt_total s cxy t tfinal done :
  exists r, choose_dt s cxy t tfinal done = Ok r.
Proof.
  unfold choose_dt.
  destruct (rdiv_total cxy.1 (dx s)) as [qx ->].
  destruct (rdiv_total cxy.2 (dy s)) as [qy ->]. cbn [lift mbind result_bind].
  destruct (rdiv_total (cfl s) (std_max qx qy)) as [dt ->].
  cbn [lift mbind result_bind].
  destruct (t +! rlit 2 *! dt >=! tfinal); [|by eexists].
  destruct (rdiv_total (tfinal -! t) (rlit 2)) as [dt' ->].
  cbn [lift mbind result_bind]. by eexists.
Qed.

Lemma half_step_total tfinal io st :
  wf (run_sim st) -> nx (run_sim st) <= ny (run_sim st) -> 0 <= io <= 1 ->
  exists st', half_step limdiff tfinal io st = Ok st' /\
    wf (run_sim st') /\ nx (run_sim st') <= ny (run_sim st').
Proof.
  intros Hwf Hle Hio.
  destruct (apply_periodic_total _ Hwf) as (s1 & H1 & Hse1 & _).
  assert (Hwf1 : wf s1) by (eapply same_except_wf; eauto).
  destruct (compute_fg_speeds_total s1 Hwf1) as (s2 & cxy & H2 & Hse2).
  assert (Hwf2 : wf s2) by (eapply same_except_wf; eauto).
  assert (Hp2 : params s2 = params (run_sim st)).
  { destruct Hse1 as (P1 & _). destruct Hse2 as (P2 & _). congruence. }
  assert (Hle2 : nx s2 <= ny s2).
  { unfold params in Hp2. injection Hp2 as -> -> _ _ _ _ _. exact Hle. }
  destruct (limited_derivs_flat limdiff s2 Hwf2 Hle2) as (s3 & H3 & Hse3 & _).
  assert (Hwf3 : wf s3) by (eapply same_except_wf; eauto).
  assert (Hdt : exists r, (if io =? 0
                 then choose_dt s3 cxy (run_t st) tfinal (run_done st)
                 else Ok (run_dt st, run_done st)) = Ok r).
  { destruct (io =? 0); [apply choose_dt_total|by eexists]. }
  destruct Hdt as ([dt done] & Hdt).
  destruct (compute_step_total io dt s3 Hwf3 Hio) as (s4 & H4 & Hse4).
  eexists. split.
  { unfold half_step. rewrite H1. cbn [mbind result_bind].
    rewrite H2. cbn [mbind result_bind]. rewrite H3. cbn [mbind result_bind].
    rewrite Hdt. cbn [mbind result_bind]. rewrite H4. reflexivity. }
  cbn [run_sim].
  assert (Hp4 : params s4 = params (run_sim st)).
  { destruct Hse3 as (P3 & _). destruct Hse4 as (P4 & _). congruence. }
  split; [eapply same_except_wf; eauto|].
  unfold params in Hp4. injection Hp4 as -> -> _ _ _ _ _. exact Hle.
Qed.

Lemma macro_step_total tfinal st :
  wf (run_sim st) -> nx (run_sim st) <= ny (run_sim st) ->
  exists st', macro_step limdiff tfinal st = Ok st' /\
    wf (run_sim st') /\ nx (run_sim st') <= ny (run_sim st').
Proof.
  intros Hwf Hle. rewrite macro_step_unfold.
  destruct (half_step_total tfinal 0 st Hwf Hle ltac:(lia)) as (st1 & H0 & Hwf1 & Hle1).
  destruct (half_step_total tfinal 1 st1 Hwf1 Hle1 ltac:(lia)) as (st2 & H1 & Hwf2 & Hle2).
  exists st2. rewrite H0. cbn [mbind result_bind]. done.
Qed.

(** X22.  In an arithmetic in which every quotient and every root is a
    value, as in IEEE arithmetic, a run never leaves a vector.  On a
    well-formed solver that is not wider than high, whatever values the
    cells hold, every half-step returns: no subscript is out of range, in
    any stage.  So [run] either returns, with a well-formed solver, or
    is still running when the bound on the iterations of its loop is
    reached. *)
Theorem run_stays_in_bounds fuel tfinal s :
  wf s -> nx s <= ny s ->
  (forall io st, 0 <= io <= 1 -> wf (run_sim st) ->
     nx (run_sim st) <= ny (run_sim st) ->
     exists st', half_step limdiff tfinal io st = Ok st') /\
  (run limdiff fuel tfinal s = Fault OutOfFuel \/
   exists st', run limdiff fuel tfinal s = Ok st' /\ wf (run_sim st')).
Proof.
  intros Hwf Hle. split.
  - intros io st Hio Hwfst Hlest.
    destruct (half_step_total tfinal io st Hwfst Hlest Hio) as (st' & H & _).
    by exists st'.
  - unfold run.
    assert (Hgen : forall st, wf (run_sim st) -> nx (run_sim st) <= ny (run_sim st) ->
              run_loop limdiff fuel tfinal st = Fault OutOfFuel \/
              exists st', run_loop limdiff fuel tfinal st = Ok st' /\ wf (run_sim st')).
    { induction fuel as [|fuel IH]; intros st Hwfst Hlest; cbn [run_loop]; [by left|].
      destruct (macro_step_total tfinal st Hwfst Hlest) as (st1 & -> & Hwf1 & Hle1).
      cbn [mbind result_bind].
      destruct (run_done st1); [right; by exists st1|by apply IH]. }
    by apply Hgen.
Qed.
(** X23.  In such an arithmetic every run on a grid that is wider than
    high leaves a vector.  On a well-formed solver with [ny < nx], whatever
    the cells hold, the first half-step of [run] gets through
    [apply_periodic] and [compute_fg_speeds] and stops in [limited_derivs]
    on a subscript before the start of [u_]. *)
Theorem run_wide_grid_out_of_bounds fuel tfinal s :
  wf s -> ny s < nx s -> run limdiff (S fuel) tfinal s = Fault OutOfBounds.
Proof.
  intros Hwf Hlt.
  assert (Hh : forall st, run_sim st = s ->
            half_step limdiff tfinal 0 st = Fault OutOfBounds).
  { intros st Hst.
    destruct (apply_periodic_total s Hwf) as (s1 & H1 & Hse1 & _).
    assert (Hwf1 : wf s1) by (eapply same_except_wf; eauto).
    destruct (compute_fg_speeds_total s1 Hwf1) as (s2 & cxy & H2 & Hse2).
    assert (Hwf2 : wf s2) by (eapply same_except_wf; eauto).
    assert (Hp2 : params s2 = params s).
    { destruct Hse1 as (P1 & _). destruct Hse2 as (P2 & _). congruence. }
    assert (H3 : limited_derivs limdiff s2 = Fault OutOfBounds).
    { apply limited_derivs_out_of_bounds; [exact Hwf2|].
      rewrite (wf_nx_all s2 Hwf2), (wf_ny_all s2 Hwf2).
      unfold params in Hp2. injection Hp2 as -> -> _ _ _ _ _. lia. }
    unfold half_step. rewrite Hst, H1. cbn [mbind result_bind].
    rewrite H2. cbn [mbind result_bind]. by rewrite H3. }
  unfold run. cbn [run_loop]. unfold macro_step.
  rewrite (range_cons 0 2) by lia. cbn [forM].
  by rewrite Hh.
Qed.
End Total.

(** * Wave speeds in binary32 arithmetic *)

Section Binary32.
Implicit Types (U : list spec_float) (s : Central2D spec_float).

Lemma SFltb_nan_r (x : spec_float) : SFltb x S754_nan = false.
Proof. by destruct x. Qed.

Lemma std_max_not_nan (a b : spec_float) : a <> S754_nan -> std_max a b <> S754_nan.
Proof.
  intros Ha. unfold std_max. cbn [rlt F32_ops].
  destruct (SFltb a b) eqn:E; [|done].
  intros ->. by rewrite SFltb_nan_r in E.
Qed.

(** X24, in binary32 arithmetic.  [wave_speed] never returns NaN for a
    bound that was not NaN when passed in, whatever the cells hold:
    [std::max(c, v)] keeps [c] when [v] is NaN, so a cell whose speed
    evaluates to NaN is left out of the bound.  The bounds of
    [compute_fg_speeds], which start from [1e-15], are therefore never
    NaN. *)
Theorem wave_speed_never_nan :
  (forall (cxy c : spec_float * spec_float) U (pu ncell stride : Z),
     Shallow2D.wave_speed cxy U pu ncell stride = Ok c ->
     (cxy.1 <> S754_nan -> c.1 <> S754_nan) /\
     (cxy.2 <> S754_nan -> c.2 <> S754_nan)) /\
  (forall s s' (cx cy : spec_float),
     compute_fg_speeds s = Ok (s', (cx, cy)) ->
     cx <> S754_nan /\ cy <> S754_nan).
Proof.
  assert (Hws : forall (cxy c : spec_float * spec_float) U (pu ncell stride : Z),
     Shallow2D.wave_speed cxy U pu ncell stride = Ok c ->
     (cxy.1 <> S754_nan -> c.1 <> S754_nan) /\
     (cxy.2 <> S754_nan -> c.2 <> S754_nan)).
  { intros cxy c U pu ncell stride. unfold Shallow2D.wave_speed.
    apply (forM_preserve (fun c : spec_float * spec_float =>
             (cxy.1 <> S754_nan -> c.1 <> S754_nan) /\
             (cxy.2 <> S754_nan -> c.2 <> S754_nan))); [|done].
    intros i [cx cy] c' _ [Hx Hy]. unfold Shallow2D.wave_speed_cell.
    intros (hi & _ & (hui & _ & (hvi & _ & (r & _ & (qx & _ & (qy & _ & [= <-]
           )%bind_Ok)%bind_Ok)%bind_Ok)%bind_Ok)%bind_Ok)%bind_Ok.
    cbn [fst snd] in *. split; intros H0; apply std_max_not_nan; auto. }
  split; [exact Hws|].
  intros s s' cx cy. unfold compute_fg_speeds.
  intros ([f g] & _ & (c & Hw & [= _ -> ])%bind_Ok)%bind_Ok.
  apply Hws in Hw. cbn [fst snd] in Hw. destruct Hw as [Hx Hy].
  split; [apply Hx|apply Hy]; vm_compute; discriminate.
Qed.
End Binary32.

(** * The further results on concrete grids *)

Ltac by_eval := vm_compute; repeat split; first [reflexivity | discriminate].

Lemma narrow_new_wf : wf narrow_new.
Proof. constructor; [reflexivity..|intros []; reflexivity]. Qed.

Lemma ridge_wf : wf ridge.
Proof. constructor; [reflexivity..|intros []; reflexivity]. Qed.

Lemma ridge32_new_wf : wf ridge32_new.
Proof. constructor; [reflexivity..|intros []; reflexivity]. Qed.

Lemma narrow32_new_wf : wf narrow32_new.
Proof. constructor; [reflexivity..|intros []; reflexivity]. Qed.

Lemma offset_layout_witness :
  wf lake /\
  forall n i, 0 <= i < Z.of_nat (length (vec n lake)) ->
    exists k ix iy, 0 <= k < nfield /\ 0 <= ix < nx_all lake /\
      0 <= iy < ny_all lake /\ offset lake k ix iy = i.
Proof.
  split; [exact lake_wf|].
  exact (proj2 (proj2 (offset_layout lake lake_wf))).
Defined.

Lemma set_then_get_witness :
  wf lake /\
  exists s', set lake 1 0 0 (1 # 2)%Q = Ok s' /\ get s' 1 0 0 = Ok (1 # 2)%Q.
Proof.
  split; [exact lake_wf|].
  destruct (set_then_get lake 1 0 0 (1 # 2)%Q lake_wf)
    as (s' & Hset & _ & Hget & _);
    [by_eval..|].
  exists s'. split; [exact Hset|exact Hget].
Defined.

Lemma get_checks_no_axis_witness :
  wf lake /\ get lake 0 (0 + nx_all lake) 0 = get lake 0 0 (0 + 1).
Proof.
  split; [exact lake_wf|].
  exact (proj1 (proj2 (proj2 (get_checks_no_axis lake 0 0 0 lake_wf)))).
Defined.

Lemma apply_periodic_keeps_interior_witness :
  wf narrow_new /\
  exists s', apply_periodic narrow_new = Ok s' /\
    cell U s' 0 3 3 = cell U narrow_new 0 3 3.
Proof.
  split; [exact narrow_new_wf|].
  destruct (apply_periodic_keeps_interior narrow_new narrow_new_wf)
    as (s' & Hs' & _ & Hint).
  exists s'. split; [exact Hs'|].
  apply Hint; by_eval.
Defined.

Lemma apply_periodic_periodic_witness :
  wf lake_new /\ nx lake_new <> 2 /\ ny lake_new <> 2 /\
  exists s', apply_periodic lake_new = Ok s' /\
    cell U s' 0 (2 + nx lake_new) 3 = cell U s' 0 2 3.
Proof.
  assert (Hx : nx lake_new <> 2) by (vm_compute; discriminate).
  assert (Hy : ny lake_new <> 2) by (vm_compute; discriminate).
  split; [exact lake_new_wf|]. split; [exact Hx|]. split; [exact Hy|].
  destruct (apply_periodic_periodic lake_new lake_new_wf Hx Hy)
    as (s' & Hs' & Hper & _).
  exists s'. split; [exact Hs'|].
  apply Hper; by_eval.
Defined.

Lemma apply_periodic_idempotent_witness :
  wf lake_new /\ apply_periodic lake_new = Ok lake /\ apply_periodic lake = Ok lake.
Proof.
  assert (Hrun : apply_periodic lake_new = Ok lake) by (vm_compute; reflexivity).
  split; [exact lake_new_wf|]. split; [exact Hrun|].
  apply (apply_periodic_idempotent lake_new lake lake_new_wf);
    [vm_compute; discriminate..|exact Hrun].
Defined.

Lemma zero_cells_fault_witness :
  Central2D_new (f32_of_Q 1) (f32_of_Q 1) 0 1 default_cfl = Ok strip32_new /\
  run minmod_limdiff 1 (f32_of_Q 1) strip32_new = Fault DivByZero.
Proof.
  assert (Hnew : Central2D_new (f32_of_Q 1) (f32_of_Q 1) 0 1 default_cfl
                 = Ok strip32_new) by (vm_compute; reflexivity).
  split; [exact Hnew|].
  exact (proj2 (zero_cells_fault minmod_limdiff (f32_of_Q 1) (f32_of_Q 1)
                  default_cfl (f32_of_Q 1) 0 1 0 strip32_new Hnew
                  (or_introl eq_refl))).
Defined.

Lemma limited_derivs_computes_witness :
  wf lake /\ nx lake <= ny lake /\
  exists s', limited_derivs minmod_limdiff lake = Ok s' /\
    same_except [UX; UY; FX; GY] lake s'.
Proof.
  assert (Hle : nx lake <= ny lake) by (vm_compute; discriminate).
  split; [exact lake_wf|]. split; [exact Hle|].
  destruct (limited_derivs_computes minmod_limdiff lake lake_wf Hle)
    as (s' & Hs' & Hse & _).
  exists s'. split; [exact Hs'|exact Hse].
Defined.

Lemma limited_derivs_wide_grid_witness :
  wf narrow_new /\ ny narrow_new < nx narrow_new /\
  limited_derivs minmod_limdiff narrow_new = Fault OutOfBounds.
Proof.
  assert (Hlt : ny narrow_new < nx narrow_new) by (vm_compute; reflexivity).
  split; [exact narrow_new_wf|]. split; [exact Hlt|].
  exact (limited_derivs_wide_grid minmod_limdiff narrow_new narrow_new_wf Hlt).
Defined.

Lemma limited_derivs_rows_left_out_witness :
  wf ridge /\ limited_derivs minmod_limdiff ridge = Ok ridge_derivs /\
  cell UY ridge_derivs (nfield - 1) 3 6 = cell UY ridge (nfield - 1) 3 6.
Proof.
  assert (Hrun : limited_derivs minmod_limdiff ridge = Ok ridge_derivs)
    by (vm_compute; reflexivity).
  split; [exact ridge_wf|]. split; [exact Hrun|].
  apply (proj1 (limited_derivs_rows_left_out minmod_limdiff ridge ridge_derivs UY
                  ridge_wf Hrun)); by_eval.
Defined.

Lemma compute_fg_speeds_fluxes_witness :
  wf lake /\ compute_fg_speeds lake = Ok (lake_fg.1, lake_fg.2) /\
  cell F lake_fg.1 0 3 3 = cell U lake 1 3 3.
Proof.
  assert (Hrun : compute_fg_speeds lake = Ok (lake_fg.1, lake_fg.2))
    by (vm_compute; reflexivity).
  split; [exact lake_wf|]. split; [exact Hrun|].
  destruct (compute_fg_speeds_fluxes lake lake_fg.1 lake_fg.2 lake_wf Hrun)
    as [_ Hflux].
  apply (Hflux 3 3); by_eval.
Defined.

Lemma flux_writes_runs_only_witness :
  Shallow2D.flux (f_ lake) (g_ lake) (u_ lake) 0 0 0 49 49
    = Ok (f_ lake_fg.1, g_ lake_fg.1) /\
  length (f_ lake_fg.1) = length (f_ lake).
Proof.
  assert (Hrun : Shallow2D.flux (f_ lake) (g_ lake) (u_ lake) 0 0 0 49 49
                 = Ok (f_ lake_fg.1, g_ lake_fg.1)) by (vm_compute; reflexivity).
  split; [exact Hrun|].
  apply (flux_writes_runs_only (f_ lake) (g_ lake) (u_ lake) 0 0 0 49 49
           (f_ lake_fg.1) (g_ lake_fg.1)); [by_eval..|exact Hrun].
Defined.

Lemma wave_speed_bounds_every_cell_witness :
  Shallow2D.wave_speed (0%Q, 0%Q) (u_ lake) 0 49 49 = Ok lake_fg.2 /\
  (0 <= (lake_fg.2).1)%Q.
Proof.
  assert (Hrun : Shallow2D.wave_speed (0%Q, 0%Q) (u_ lake) 0 49 49 = Ok lake_fg.2)
    by (vm_compute; reflexivity).
  split; [exact Hrun|].
  exact (proj1 (wave_speed_bounds_every_cell (0%Q, 0%Q) lake_fg.2 (u_ lake)
                  0 49 49 Hrun)).
Defined.

Lemma compute_step_frame_witness :
  compute_step 0 (1 # 100)%Q lake = Ok lake_stepped /\ ux_ lake_stepped = ux_ lake.
Proof.
  assert (Hrun : compute_step 0 (1 # 100)%Q lake = Ok lake_stepped)
    by (vm_compute; reflexivity).
  split; [exact Hrun|].
  exact (proj1 (compute_step_frame 0 (1 # 100)%Q lake lake_stepped Hrun)).
Defined.

Lemma run_keeps_shape_witness :
  run minmod_limdiff 1 (1 # 10)%Q lake_new = Ok lake_after /\
  xsize (run_sim lake_after) = xsize lake_new.
Proof.
  assert (Hrun : run minmod_limdiff 1 (1 # 10)%Q lake_new = Ok lake_after)
    by (vm_compute; reflexivity).
  split; [exact Hrun|].
  exact (proj1 (run_keeps_shape minmod_limdiff 1 (1 # 10)%Q lake_new lake_after Hrun)).
Defined.

Lemma run_reaches_tfinal_witness :
  run minmod_limdiff 1 (1 # 10)%Q lake_new = Ok lake_after /\
  (run_t lake_after == 1 # 10)%Q.
Proof.
  assert (Hrun : run minmod_limdiff 1 (1 # 10)%Q lake_new = Ok lake_after)
    by (vm_compute; reflexivity).
  split; [exact Hrun|].
  exact (proj2 (run_reaches_tfinal minmod_limdiff 1 (1 # 10)%Q lake_new lake_after Hrun)).
Defined.

Lemma run_nonpositive_duration_witness :
  (0 < dx lake_new)%Q /\ (0 < dy lake_new)%Q /\ (0 <= cfl lake_new)%Q /\
  run minmod_limdiff 1 0%Q lake_new = Ok lake_still /\
  run_log lake_still = [(0, run_dt lake_still); (1, run_dt lake_still)].
Proof.
  assert (Hrun : run minmod_limdiff 1 0%Q lake_new = Ok lake_still)
    by (vm_compute; reflexivity).
  split; [reflexivity|]. split; [reflexivity|]. split; [discriminate|].
  split; [exact Hrun|].
  apply (run_nonpositive_duration minmod_limdiff 1 0%Q lake_new lake_still);
    [reflexivity|reflexivity|discriminate|discriminate|exact Hrun].
Defined.

Lemma solution_check_ignores_ghosts_witness :
  wf lake_new /\
  exists s', apply_periodic lake_new = Ok s' /\
    solution_check s' = solution_check lake_new.
Proof.
  split; [exact lake_new_wf|].
  exact (proj2 (solution_check_ignores_ghosts lake_new lake_new_wf)).
Defined.

Lemma solution_check_range_witness :
  wf lake /\ solution_check lake = Ok (mkReport 1%Q 0%Q 0%Q 1%Q 1%Q) /\
  (0 < range_min (mkReport 1%Q 0%Q 0%Q 1%Q 1%Q))%Q.
Proof.
  assert (Hrun : solution_check lake = Ok (mkReport 1%Q 0%Q 0%Q 1%Q 1%Q))
    by (vm_compute; reflexivity).
  split; [exact lake_wf|]. split; [exact Hrun|].
  apply (solution_check_range lake _ lake_wf Hrun).
Defined.

Lemma compute_step_keeps_uniform_witness :
  wf lake /\ ~ (dx lake == 0)%Q /\ ~ (dy lake == 0)%Q /\
  ~ (lake_values 0 == 0)%Q /\
  exists s', compute_step 1 (1 # 100)%Q lake = Ok s' /\
    exists x, get s' 0 0 0 = Ok x /\ (x == lake_values 0)%Q.
Proof.
  assert (Hdx : ~ (dx lake == 0)%Q) by discriminate.
  assert (Hdy : ~ (dy lake == 0)%Q) by discriminate.
  assert (Hc : ~ (lake_values 0 == 0)%Q) by discriminate.
  split; [exact lake_wf|]. split; [exact Hdx|]. split; [exact Hdy|].
  split; [exact Hc|].
  destruct (compute_step_keeps_uniform 1 (1 # 100)%Q lake lake_values lake_wf)
    as (s' & Hs' & Hcells); [lia|exact Hdx|exact Hdy|exact Hc| |].
  - intros k ix iy Hk Hx Hy.
    assert (Hall : forallb (fun k => forallb (fun ix => forallb (fun iy =>
              Qeq_bool (cell U lake k ix iy) (lake_values k) &&
              Qeq_bool (cell UX lake k ix iy) 0 && Qeq_bool (cell UY lake k ix iy) 0 &&
              Qeq_bool (cell FX lake k ix iy) 0 && Qeq_bool (cell GY lake k ix iy) 0)
              (range 0 (ny_all lake))) (range 0 (nx_all lake))) (range 0 nfield)
            = true) by (vm_compute; reflexivity).
    pose proof (range_forallb _ _ _
                  (range_forallb _ _ _ (range_forallb _ _ _ Hall k Hk) ix Hx) iy Hy)
      as Hcell.
    cbv beta in Hcell.
    apply andb_prop in Hcell as [Hcell H5]. apply andb_prop in Hcell as [Hcell H4].
    apply andb_prop in Hcell as [Hcell H3]. apply andb_prop in Hcell as [H1 H2].
    split_and!; by apply Qeq_bool_iff.
  - exists s'. split; [exact Hs'|].
    apply Hcells; by_eval.
Defined.

Lemma run_stays_in_bounds_witness :
  (forall x y : spec_float, is_Some (rdiv x y)) /\
  (forall x : spec_float, is_Some (rsqrt x)) /\
  wf ridge32_new /\ nx ridge32_new <= ny ridge32_new /\
  (run minmod_limdiff 1 (f32_of_Q (1 # 1000)) ridge32_new = Fault OutOfFuel \/
   exists st', run minmod_limdiff 1 (f32_of_Q (1 # 1000)) ridge32_new = Ok st' /\
     wf (run_sim st')).
Proof.
  assert (Hdiv : forall x y : spec_float, is_Some (rdiv x y))
    by (intros x y; eexists; reflexivity).
  assert (Hsqrt : forall x : spec_float, is_Some (rsqrt x))
    by (intros x; eexists; reflexivity).
  assert (Hle : nx ridge32_new <= ny ridge32_new) by (vm_compute; discriminate).
  split; [exact Hdiv|]. split; [exact Hsqrt|].
  split; [exact ridge32_new_wf|]. split; [exact Hle|].
  exact (proj2 (run_stays_in_bounds minmod_limdiff Hdiv Hsqrt 1
                  (f32_of_Q (1 # 1000)) ridge32_new ridge32_new_wf Hle)).
Defined.

Lemma run_wide_grid_out_of_bounds_witness :
  (forall x y : spec_float, is_Some (rdiv x y)) /\
  (forall x : spec_float, is_Some (rsqrt x)) /\
  wf narrow32_new /\ ny narrow32_new < nx narrow32_new /\
  run minmod_limdiff 1 (f32_of_Q 1) narrow32_new = Fault OutOfBounds.
Proof.
  assert (Hdiv : forall x y : spec_float, is_Some (rdiv x y))
    by (intros x y; eexists; reflexivity).
  assert (Hsqrt : forall x : spec_float, is_Some (rsqrt x))
    by (intros x; eexists; reflexivity).
  assert (Hlt : ny narrow32_new < nx narrow32_new) by (vm_compute; reflexivity).
  split; [exact Hdiv|]. split; [exact Hsqrt|].
  split; [exact narrow32_new_wf|]. split; [exact Hlt|].
  exact (run_wide_grid_out_of_bounds minmod_limdiff Hdiv Hsqrt 0
           (f32_of_Q 1) narrow32_new narrow32_new_wf Hlt).
Defined.

Lemma run_steps_forward_witness :
  (0 < dx lake_new)%Q /\ (0 < dy lake_new)%Q /\ (0 <= cfl lake_new)%Q /\
  run minmod_limdiff 1 (1 # 10)%Q lake_new = Ok lake_after /\
  (fold_left (fun acc (e : Z * Q) => acc + e.2) (run_log lake_after) 0
   == 1 # 10)%Q.
Proof.
  assert (Hrun : run minmod_limdiff 1 (1 # 10)%Q lake_new = Ok lake_after)
    by (vm_compute; reflexivity).
  split; [reflexivity|]. split; [reflexivity|]. split; [discriminate|].
  split; [exact Hrun|].
  apply (run_steps_forward minmod_limdiff 1 (1 # 10)%Q lake_new lake_after);
    [reflexivity|reflexivity|discriminate|discriminate|exact Hrun].
Defined.
